(** * Index selection for the query planner (planner_ixselect.cpp)

    A shallow embedding of [QueryPlannerIXSelect]: the collection of the
    fields a predicate tree constrains ([getFields]), the prefilter of the
    index catalog ([findRelevantIndices]), the compatibility oracle
    ([compatible]), the tagging pass ([rateIndices]) and the enforcement of
    the text-index prefix rule ([stripInvalidAssignmentsToTextIndexes]).

    Doubles are IEEE binary64 numbers ([PrimFloat]); [size_t] index
    identifiers are natural numbers; [unordered_set<string>] is a
    [gset string]; a failed [verify] or [invariant] ends the run with
    [Abort]. *)

From Stdlib Require Import ZArith.
From Stdlib Require Import Floats.PrimFloat Floats.FloatOps Floats.FloatAxioms Floats.SpecFloat.
From stdpp Require Import base option list strings gmap.
From stdpp Require Import sorting.

#[local] Set Warnings "-register-all,-clear-no-such-hyp".
Open Scope string_scope.
Open Scope list_scope.

(** ** Fatal assertions *)

(** [verify(...)] and [invariant(...)] end the planning attempt; the number
    is the line of the assertion in planner_ixselect.cpp.  [undefined] is a
    dereference the C++ type system rules out (the child of a childless
    NOT, a downcast to the wrong expression class).  [depth_exceeded] is
    the bound of a recursion that is given its depth as a number; the
    planner never returns it ([strip_depth_suffices]). *)
Inductive Fatal : Type :=
  | verify_failed (line : nat)
  | invariant_failed (line : nat)
  | undefined
  | depth_exceeded.

Inductive Result (A : Type) : Type :=
  | Ok (a : A)
  | Abort (f : Fatal).
Arguments Ok {A} a.
Arguments Abort {A} f.

Definition bind {A B : Type} (m : Result A) (k : A → Result B) : Result B :=
  match m with
  | Ok a => k a
  | Abort f => Abort f
  end.

Notation "'do' x <- m ; k" := (bind m (fun x => k))
  (at level 10, x name, m at level 100, k at level 200).

Definition verify (line : nat) (b : bool) : Result unit :=
  if b then Ok () else Abort (verify_failed line).

Definition aborts {A : Type} (m : Result A) : Prop :=
  match m with
  | Ok _ => False
  | Abort (verify_failed _) | Abort (invariant_failed _) => True
  | Abort undefined | Abort depth_exceeded => False
  end.

(** [for (i = 0; i < n; ++i) f(child i)] over an owned vector of children,
    stopping at the first fatal assertion. *)
Definition forEach {A : Type} (f : A → Result A) : list A → Result (list A) :=
  fix go (l : list A) : Result (list A) :=
    match l with
    | [] => Ok []
    | x :: l' =>
        do y <- f x;
        do ys <- go l';
        Ok (y :: ys)
    end.

(** ** BSON elements and index descriptors *)

(** Modelled from the spec: the key-pattern elements and option values the
    planner reads (bson headers, not part of planner_ixselect.cpp): a field
    name with a number, a string, null, or the end-of-object mark. *)
Inductive BSONValue : Type :=
  | BEOO                       (* the end-of-object element *)
  | BNumber (d : float)
  | BString (s : string)
  | BNull
  | BOther.

Record BSONElement : Type := mkElt {
  fieldName : string;
  value : BSONValue;
}.

Definition eoo : BSONElement := mkElt "" BEOO.

(** [elt.type() == String] *)
Definition isString (e : BSONElement) : bool :=
  match value e with BString _ => true | _ => false end.

(** [elt.String()] *)
Definition stringValue (e : BSONElement) : string :=
  match value e with BString s => s | _ => "" end.

Definition isNumber (e : BSONElement) : bool :=
  match value e with BNumber _ => true | _ => false end.

Definition numberDouble (e : BSONElement) : float :=
  match value e with BNumber d => d | _ => 0%float end.

Definition isNull (e : BSONElement) : bool :=
  match value e with BNull => true | _ => false end.

(** A [BSONObj] is the ordered sequence of its elements; field names may
    repeat. *)
Definition BSONObj : Type := list BSONElement.

(** [obj[name]]: the first element of that name, the EOO element if none. *)
Fixpoint getField (obj : BSONObj) (name : string) : BSONElement :=
  match obj with
  | [] => eoo
  | e :: rest => if String.eqb (fieldName e) name then e else getField rest name
  end.

(** [BSONObjIterator]: [more] and [next]; [next] at the end of the object
    reads the EOO element. *)
Definition more (it : BSONObj) : bool :=
  match it with [] => false | _ :: _ => true end.

Definition next (it : BSONObj) : BSONElement * BSONObj :=
  match it with
  | [] => (eoo, [])
  | e :: rest => (e, rest)
  end.

(** Modelled from the spec: the classification of an index descriptor
    (index_entry.h), ordinary btree or a named special type. *)
Inductive IndexType : Type :=
  | INDEX_2D | INDEX_HAYSTACK | INDEX_2DSPHERE | INDEX_TEXT | INDEX_HASHED
  | INDEX_BTREE.

Global Instance IndexType_eq_dec : EqDecision IndexType.
Proof. solve_decision. Defined.

Record IndexEntry : Type := mkIndex {
  keyPattern : BSONObj;
  multikey : bool;
  sparse : bool;
  type : IndexType;
  infoObj : BSONObj;
}.

(** Modelled from the spec: the family names of index_names.h (hashed, 2d,
    2dsphere, text, geoHaystack). *)
Module IndexNames.
Definition GEO_2D : string := "2d".
Definition GEO_HAYSTACK : string := "geoHaystack".
Definition GEO_2DSPHERE : string := "2dsphere".
Definition TEXT : string := "text".
Definition HASHED : string := "hashed".
End IndexNames.

(** ** Geometry payloads *)

(** Modelled from the spec: what the geometry module exposes to the planner
    (geo headers): the coordinate system of a point, the circle of a cap,
    the region tests of a geometry, the kind of a geo predicate. *)
Inductive CRS : Type := UNSET | FLAT | SPHERE.

Global Instance CRS_eq_dec : EqDecision CRS.
Proof. solve_decision. Defined.

Record Point : Type := mkPoint { x : float; y : float }.
Record Circle : Type := mkCircle { radius : float; center : Point }.
Record CapWithCRS : Type := mkCap { circle : Circle; crs : CRS }.

(** What the planner reads of a [GeometryContainer]: the two region tests
    and the cap of a [$centerSphere]. *)
Record GeometryContainer : Type := mkGeometry {
  hasS2Region : bool;
  hasFlatRegion : bool;
  _cap : option CapWithCRS;
}.

Inductive Predicate : Type := WITHIN | INTERSECT.

Global Instance Predicate_eq_dec : EqDecision Predicate.
Proof. solve_decision. Defined.

Record GeoQuery : Type := mkGeoQuery {
  getPred : Predicate;
  getGeometry : GeometryContainer;
}.

Record NearQuery : Type := mkNear {
  centroid_crs : CRS;
  isNearSphere : bool;
}.

(** ** Predicate trees and tags *)

(** Modelled from the spec: the node kinds of expression.h: logical
    connectives, array operators, leaf predicates. *)
Inductive MatchType : Type :=
  | AND | OR
  | ELEM_MATCH_OBJECT | ELEM_MATCH_VALUE | ALL | SIZE
  | EQ | LTE | LT | GT | GTE | REGEX | MOD | EXISTS | MATCH_IN | NIN
  | NOT | NOR
  | TYPE_OPERATOR | GEO | WHERE
  | GEO_NEAR | TEXT.

Global Instance MatchType_eq_dec : EqDecision MatchType.
Proof. solve_decision. Defined.

(** Modelled from the spec: the tag of index_tag.h: the path it was
    computed for, the indexes usable through their first key element, the
    indexes usable through a later one. *)
Record RelevantTag : Type := mkTag {
  tag_path : string;
  first : list nat;
  notFirst : list nat;
}.

Global Instance RelevantTag_eq_dec : EqDecision RelevantTag.
Proof. solve_decision. Defined.

(** The payload a leaf class adds to [MatchExpression]. *)
Inductive Payload : Type :=
  | NoPayload
  | EqualityData (data : BSONElement)   (* EqualityMatchExpression::getData *)
  | GeoData (gq : GeoQuery)             (* GeoMatchExpression::getGeoQuery *)
  | GeoNearData (nq : NearQuery).       (* GeoNearMatchExpression::getData *)

(** A node owns its tag and its children. *)
Inductive MatchExpression : Type :=
  | Node (mt : MatchType) (p : string) (d : Payload)
         (t : option RelevantTag) (cs : list MatchExpression).

Definition matchType (n : MatchExpression) : MatchType :=
  let 'Node mt _ _ _ _ := n in mt.
Definition path (n : MatchExpression) : string :=
  let 'Node _ p _ _ _ := n in p.
Definition payload (n : MatchExpression) : Payload :=
  let 'Node _ _ d _ _ := n in d.
Definition getTag (n : MatchExpression) : option RelevantTag :=
  let 'Node _ _ _ t _ := n in t.
Definition children (n : MatchExpression) : list MatchExpression :=
  let 'Node _ _ _ _ cs := n in cs.
Definition getChild (n : MatchExpression) (i : nat) : option MatchExpression :=
  children n !! i.
Definition setTag (n : MatchExpression) (t : option RelevantTag) : MatchExpression :=
  let 'Node mt p d _ cs := n in Node mt p d t cs.
Definition setChildren (n : MatchExpression) (cs : list MatchExpression) : MatchExpression :=
  let 'Node mt p d t _ := n in Node mt p d t cs.

(** Modelled from the spec: [MatchExpression::isLogical] of expression.h,
    the logical connectives AND, OR, NOR and NOT. *)
Definition isLogical (n : MatchExpression) : bool :=
  match matchType n with
  | AND | OR | NOT | NOR => true
  | _ => false
  end.

(** The node with every tag of its subtree dropped. *)
Fixpoint untagged (n : MatchExpression) : MatchExpression :=
  let 'Node mt p d _ cs := n in Node mt p d None (map untagged cs).

(** ** What the planner takes from other modules *)

(** indexability.h, taken as a parameter: which nodes can use an index on
    their own field, which array operators pass their field down to their
    children, which nodes generate bounds (a leaf, or a NOT of one).
    Whether a node can use an index on its own field is read off the
    expression, never off its tags. *)
Class Indexability : Type := {
  nodeCanUseIndexOnOwnField : MatchExpression → bool;
  arrayUsesIndexOnChildren : MatchExpression → bool;
  isBoundsGenerating : MatchExpression → bool;
  nodeCanUseIndexOnOwnField_untagged n :
    nodeCanUseIndexOnOwnField (untagged n) = nodeCanUseIndexOnOwnField n;
}.

(** geo/core.h and geo/hash.h, taken as parameters: the parameters of a
    geohash converter and the conversions of the geometry library. *)
Record Parameters : Type := mkParameters {
  bits : N;
  min : float;
  max : float;
  scaling : float;
}.

Class GeoLibrary : Type := {
  rad2deg : float → float;
  computeXScanDistance : float → float → float;
  (** [GeoHashConverter(params).getErrorSphere()] *)
  getErrorSphere : Parameters → float;
  (** [static_cast<unsigned>(double)] *)
  toUnsigned : float → N;
}.

(** ** The planner *)

Section Planner.
Context `{!Indexability} `{!GeoLibrary}.

Definition fieldWithDefault (infoObj : BSONObj) (name : string) (def : float) : float :=
  let e := getField infoObj name in
  if isNumber e then numberDouble e else def.

(** 2d indices don't handle wrapping so we can't use them for queries
    that wrap. *)
Definition twoDParameters (index : IndexEntry) : Parameters :=
  let bits := toUnsigned (fieldWithDefault (infoObj index) "bits" 26) in
  let max := fieldWithDefault (infoObj index) "max" 180 in
  let min := fieldWithDefault (infoObj index) "min" (-180) in
  let numBuckets := (1024 * 1024 * 1024 * 4)%float in
  mkParameters bits min max (numBuckets / (max - min))%float.

Definition yscandist (circle : Circle) (index : IndexEntry) : float :=
  (rad2deg (radius circle) + getErrorSphere (twoDParameters index))%float.

Definition xscandist (circle : Circle) (index : IndexEntry) : float :=
  computeXScanDistance (y (center circle)) (yscandist circle index).

Definition twoDWontWrap (circle : Circle) (index : IndexEntry) : bool :=
  let yscandist := yscandist circle index in
  let xscandist := xscandist circle index in
  (x (center circle) + xscandist <? 180)%float
  && (-180 <? x (center circle) - xscandist)%float
  && (y (center circle) + yscandist <? 90)%float
  && (-90 <? y (center circle) - yscandist)%float.

(** [getFields]: the paths of the leaves that can use an index, the
    prefix growing under an array operator that passes its field down. *)
Fixpoint getFields (node : MatchExpression) (prefix : string) (out : gset string)
  : gset string :=
  if bool_decide (matchType node = NOR) then out
  else if nodeCanUseIndexOnOwnField node then {[ prefix +:+ path node ]} ∪ out
  else if arrayUsesIndexOnChildren node then
    let prefix := if String.eqb (path node) "" then prefix
                  else prefix +:+ path node +:+ "." in
    foldl (fun out c => getFields c prefix out) out (children node)
  else if isLogical node then
    foldl (fun out c => getFields c prefix out) out (children node)
  else out.

(** [findRelevantIndices]: the loop over the catalog; [out] is the vector
    of the caller, which is not cleared: each relevant index is pushed at
    its back. *)
Fixpoint findRelevantIndices (fields : gset string) (allIndices : list IndexEntry)
    (out : list IndexEntry) : Result (list IndexEntry) :=
  match allIndices with
  | [] => Ok out
  | index :: rest =>
      do _ <- verify 118 (more (keyPattern index));
      let elt := (next (keyPattern index)).1 in
      findRelevantIndices fields rest
        (if bool_decide (fieldName elt ∈ fields) then out ++ [index] else out)
  end.

(** The scan of a text index's key pattern for a leaf that is not an
    equality: the first string element ends the prefix. *)
Fixpoint specScan (node : MatchExpression) (specIt : BSONObj) : Result bool :=
  match specIt with
  | [] => Abort (invariant_failed 228)
  | elt :: specIt' =>
      if isString elt then Ok true
      else if String.eqb (path node) (fieldName elt) then Ok false
      else specScan node specIt'
  end.

(** The family the key element names, the empty string for an ordinary
    element: a string in the key pattern of a btree index is not a
    family name. *)
Definition indexedFieldType (elt : BSONElement) (index : IndexEntry) : string :=
  if negb (isString elt) || bool_decide (type index = INDEX_BTREE) then ""
  else stringValue elt.

Definition compatible (elt : BSONElement) (index : IndexEntry) (node : MatchExpression)
  : Result bool :=
  let indexedFieldType := indexedFieldType elt index in
  let exprtype := matchType node in
  if String.eqb indexedFieldType "" then
    (* Can't check for null w/a sparse index. *)
    do nullOnSparse <-
      (if bool_decide (exprtype = EQ) && sparse index then
         match payload node with
         | EqualityData data => Ok (isNull data)
         | _ => Abort undefined
         end
       else Ok false);
    if nullOnSparse then Ok false
    (* We can't use a btree-indexed field for geo expressions. *)
    else if bool_decide (exprtype = GEO) || bool_decide (exprtype = GEO_NEAR) then Ok false
    else
      do negationRefused <-
        (if bool_decide (exprtype = NOT) then
           if sparse index || multikey index then Ok true
           else
             match getChild node 0 with
             | Some child =>
                 let childtype := matchType child in
                 Ok (bool_decide (childtype = REGEX) || bool_decide (childtype = MOD))
             | None => Abort undefined
             end
         else Ok false);
      if negationRefused then Ok false
      else if bool_decide (type index ≠ INDEX_TEXT) then Ok true
      (* Equalities are OK anywhere in a text index. *)
      else if bool_decide (exprtype = EQ) then Ok true
      else specScan node (keyPattern index)
  else if String.eqb indexedFieldType IndexNames.HASHED then
    Ok (bool_decide (exprtype = MATCH_IN) || bool_decide (exprtype = EQ))
  else if String.eqb indexedFieldType IndexNames.GEO_2DSPHERE then
    if bool_decide (exprtype = GEO) then
      match payload node with
      | GeoData gq => Ok (hasS2Region (getGeometry gq))
      | _ => Abort undefined
      end
    else if bool_decide (exprtype = GEO_NEAR) then
      match payload node with
      | GeoNearData nq =>
          Ok (bool_decide (centroid_crs nq = SPHERE) || isNearSphere nq)
      | _ => Abort undefined
      end
    else Ok false
  else if String.eqb indexedFieldType IndexNames.GEO_2D then
    if bool_decide (exprtype = GEO_NEAR) then
      match payload node with
      | GeoNearData nq => Ok (bool_decide (centroid_crs nq = FLAT))
      | _ => Abort undefined
      end
    else if bool_decide (exprtype = GEO) then
      match payload node with
      | GeoData gq =>
          (* 2d only supports within. *)
          if bool_decide (getPred gq ≠ WITHIN) then Ok false
          else
            let gc := getGeometry gq in
            (* 2d indices answer flat queries. *)
            if hasFlatRegion gc then Ok true
            else
              (* 2d indices can answer centerSphere queries. *)
              match _cap gc with
              | None => Ok false
              | Some cap =>
                  do _ <- verify 276 (bool_decide (crs cap = SPHERE));
                  Ok (twoDWontWrap (circle cap) index)
              end
      | _ => Abort undefined
      end
    else Ok false
  else if String.eqb indexedFieldType IndexNames.TEXT then
    Ok (bool_decide (exprtype = TEXT))
  else if String.eqb indexedFieldType IndexNames.GEO_HAYSTACK then
    Ok false
  else Abort (verify_failed 293).

(** The inner loops of [rateIndices] over one key pattern and over the
    index list; [i] is the position of the index in the list. *)
Fixpoint rateRest (fullPath : string) (index : IndexEntry) (node : MatchExpression)
    (i : nat) (it : BSONObj) (rt : RelevantTag) : Result RelevantTag :=
  match it with
  | [] => Ok rt
  | elt :: it' =>
      do hit <- (if String.eqb (fieldName elt) fullPath then compatible elt index node
                 else Ok false);
      rateRest fullPath index node i it'
        (if hit then mkTag (tag_path rt) (first rt) (notFirst rt ++ [i]) else rt)
  end.

Definition rateIndex (fullPath : string) (node : MatchExpression)
    (i : nat) (index : IndexEntry) (rt : RelevantTag) : Result RelevantTag :=
  let '(elt, it) := next (keyPattern index) in
  do hit <- (if String.eqb (fieldName elt) fullPath then compatible elt index node
             else Ok false);
  rateRest fullPath index node i it
    (if hit then mkTag (tag_path rt) (first rt ++ [i]) (notFirst rt) else rt).

Fixpoint rateAll (fullPath : string) (node : MatchExpression)
    (i : nat) (indices : list IndexEntry) (rt : RelevantTag) : Result RelevantTag :=
  match indices with
  | [] => Ok rt
  | index :: rest =>
      do rt' <- rateIndex fullPath node i index rt;
      rateAll fullPath node (S i) rest rt'
  end.

(** Modelled from the spec: [RelevantTag::clone] of index_tag.h, a copy
    of the tag with its own lists, followed by the copy of the path. *)
Definition clone (rt : RelevantTag) : RelevantTag :=
  mkTag (tag_path rt) (first rt) (notFirst rt).

Fixpoint rateIndices (node : MatchExpression) (prefix : string)
    (indices : list IndexEntry) : Result MatchExpression :=
  (* Do not traverse tree beyond logical NOR node *)
  if bool_decide (matchType node = NOR) then Ok node
  else if isBoundsGenerating node then
    do fullPath <-
      (if bool_decide (matchType node = NOT) then
         match getChild node 0 with
         | Some child => Ok (prefix +:+ path child)
         | None => Abort undefined
         end
       else Ok (prefix +:+ path node));
    do _ <- verify 318 (bool_decide (getTag node = None));
    do rt <- rateAll fullPath node 0 indices (mkTag fullPath [] []);
    if bool_decide (matchType node = NOT) then
      match children node with
      | child :: others =>
          Ok (setChildren (setTag node (Some rt))
                (setTag child (Some (clone rt)) :: others))
      | [] => Abort undefined
      end
    else Ok (setTag node (Some rt))
  else if arrayUsesIndexOnChildren node then
    let prefix := if String.eqb (path node) "" then prefix
                  else prefix +:+ path node +:+ "." in
    do cs <- forEach (fun c => rateIndices c prefix indices) (children node);
    Ok (setChildren node cs)
  else if isLogical node then
    do cs <- forEach (fun c => rateIndices c prefix indices) (children node);
    Ok (setChildren node cs)
  else Ok node.

(** Remove [idx] from the RelevantTag lists for [node]: [std::find]
    followed by [erase] takes out the first occurrence. *)
Fixpoint eraseFirst (idx : nat) (l : list nat) : list nat :=
  match l with
  | [] => []
  | j :: l' => if bool_decide (j = idx) then l' else j :: eraseFirst idx l'
  end.

Definition removeIndexRelevantTag (node : MatchExpression) (idx : nat)
  : Result MatchExpression :=
  match getTag node with
  | None => Abort (verify_failed 367)
  | Some tag =>
      Ok (setTag node (Some (mkTag (tag_path tag)
                               (eraseFirst idx (first tag))
                               (eraseFirst idx (notFirst tag)))))
  end.

(** [inFirst || inNotFirst] *)
Definition assigned (idx : nat) (tag : RelevantTag) : bool :=
  bool_decide (idx ∈ first tag) || bool_decide (idx ∈ notFirst tag).

(** The first loop over the children of an AND: [strip] is the recursive
    call; the state is [hasText] and [childrenPrefixPaths]. *)
Definition andLoop (strip : MatchExpression → Result MatchExpression) (idx : nat)
  : list MatchExpression → bool → gset string →
    Result (list MatchExpression * bool * gset string) :=
  fix go cs hasText childrenPrefixPaths :=
    match cs with
    | [] => Ok ([], hasText, childrenPrefixPaths)
    | child :: cs' =>
        match getTag child with
        | None =>
            do child' <- strip child;
            do r <- go cs' hasText childrenPrefixPaths;
            Ok (child' :: r.1.1, r.1.2, r.2)
        | Some tag =>
            if assigned idx tag then
              do r <- (if bool_decide (matchType child = TEXT)
                       then go cs' true childrenPrefixPaths
                       else go cs' hasText (childrenPrefixPaths ∖ {[ path child ]}));
              Ok (child :: r.1.1, r.1.2, r.2)
            else
              do child' <- strip child;
              do r <- go cs' hasText childrenPrefixPaths;
              Ok (child' :: r.1.1, r.1.2, r.2)
        end
    end.

(** Traverse the subtree rooted at [node] to remove invalid assignments
    to text index [idx], which has prefix paths [prefixPaths].  The last
    loop of an AND runs over children the first loop has already
    rewritten, so the recursion is bounded by a depth. *)
Fixpoint stripBounded (depth : nat) (node : MatchExpression) (idx : nat)
    (prefixPaths : gset string) : Result MatchExpression :=
  match depth with
  | 0 => Abort depth_exceeded
  | S depth' =>
      let strip c := stripBounded depth' c idx prefixPaths in
      if nodeCanUseIndexOnOwnField node then removeIndexRelevantTag node idx
      (* Do not traverse tree beyond negation node. *)
      else if bool_decide (matchType node = NOT) || bool_decide (matchType node = NOR)
      then Ok node
      else if bool_decide (matchType node ≠ AND) then
        (* It's an OR or some kind of array operator. *)
        do cs <- forEach strip (children node);
        Ok (setChildren node cs)
      else
        do r <- andLoop strip idx (children node) false prefixPaths;
        let '(cs, hasText, childrenPrefixPaths) := r in
        if negb hasText || negb (bool_decide (childrenPrefixPaths = ∅)) then
          do cs' <- forEach strip cs;
          Ok (setChildren node cs')
        else Ok (setChildren node cs)
  end.

Fixpoint height (node : MatchExpression) : nat :=
  let 'Node _ _ _ _ cs := node in S (max_list (map height cs)).

Definition stripInvalidAssignmentsToTextIndex (node : MatchExpression) (idx : nat)
    (prefixPaths : gset string) : Result MatchExpression :=
  stripBounded (height node) node idx prefixPaths.

(** The gathering loop of the driver:
    [for (elt = it.next(); elt.type() != String; elt = it.next())]. *)
Fixpoint gatherPrefix (elt : BSONElement) (it : BSONObj) (paths : gset string)
  : Result (gset string) :=
  if isString elt then Ok paths
  else
    let paths := {[ fieldName elt ]} ∪ paths in
    match it with
    | [] => Abort (verify_failed 499)
    | elt' :: it' => gatherPrefix elt' it' paths
    end.

Definition textIndexPrefixPaths (index : IndexEntry) : Result (gset string) :=
  let '(elt, it) := next (keyPattern index) in gatherPrefix elt it ∅.

Fixpoint stripFrom (i : nat) (indices : list IndexEntry) (node : MatchExpression)
  : Result MatchExpression :=
  match indices with
  | [] => Ok node
  | index :: rest =>
      (* We only care about text indices. *)
      if bool_decide (type index ≠ INDEX_TEXT) then stripFrom (S i) rest node
      else
        do textIndexPrefixPaths <- textIndexPrefixPaths index;
        do node' <- (if bool_decide (textIndexPrefixPaths ≠ ∅)
                     then stripInvalidAssignmentsToTextIndex node i textIndexPrefixPaths
                     else Ok node);
        stripFrom (S i) rest node'
  end.

Definition stripInvalidAssignmentsToTextIndexes (node : MatchExpression)
    (indices : list IndexEntry) : Result MatchExpression :=
  stripFrom 0 indices node.

End Planner.


(** ** Tags as heap objects

    The planner above keeps the tag inside the node that owns it.  Here the
    tags are the objects [new RelevantTag()] allocates, a node holds the
    address of its tag, and the tagging pass and [removeIndexRelevantTag]
    write through that address: two nodes would share a tag if they held
    the same address. *)

Module TagHeap.

Abbreviation addr := nat (only parsing).

(** The tag objects allocated so far, by address. *)
Abbreviation Heap := (list RelevantTag) (only parsing).

(** [new RelevantTag(...)]: the next free address. *)
Definition alloc (h : Heap) (t : RelevantTag) : addr * Heap :=
  (length h, h ++ [t]).

Inductive Expression : Type :=
  | ENode (mt : MatchType) (p : string) (d : Payload)
          (t : option addr) (cs : list Expression).

Definition getTag (n : Expression) : option addr :=
  let 'ENode _ _ _ t _ := n in t.
Definition matchType (n : Expression) : MatchType :=
  let 'ENode mt _ _ _ _ := n in mt.
Definition path (n : Expression) : string :=
  let 'ENode _ p _ _ _ := n in p.
Definition children (n : Expression) : list Expression :=
  let 'ENode _ _ _ _ cs := n in cs.
Definition getChild (n : Expression) (i : nat) : option Expression :=
  children n !! i.
Definition setTag (n : Expression) (t : option addr) : Expression :=
  let 'ENode mt p d _ cs := n in ENode mt p d t cs.
Definition setChildren (n : Expression) (cs : list Expression) : Expression :=
  let 'ENode mt p d t _ := n in ENode mt p d t cs.

(** The tree as the planner above sees it: every address replaced by the
    object it points to. *)
Fixpoint view (h : Heap) (n : Expression) : MatchExpression :=
  let 'ENode mt p d t cs := n in
  Node mt p d (t ≫= λ a, h !! a) (map (view h) cs).

(** Modelled from the spec: [RelevantTag::clone] of index_tag.h, which is
    not part of planner_ixselect.cpp: a new tag object with the same path
    and its own copies of the two lists. *)
Definition clone (h : Heap) (a : addr) : Result (addr * Heap) :=
  match h !! a with
  | Some rt => Ok (alloc h (mkTag (tag_path rt) (first rt) (notFirst rt)))
  | None => Abort undefined
  end.

(** [to->path = from->path] *)
Definition copyPath (h : Heap) (from to : addr) : Result Heap :=
  match h !! from, h !! to with
  | Some rt, Some childRt =>
      Ok (<[to := mkTag (tag_path rt) (first childRt) (notFirst childRt)]> h)
  | _, _ => Abort undefined
  end.

Definition forEach (f : Expression → Heap → Result (Expression * Heap))
  : list Expression → Heap → Result (list Expression * Heap) :=
  fix go (l : list Expression) (h : Heap) :=
    match l with
    | [] => Ok ([], h)
    | c :: l' =>
        do r <- f c h;
        do rs <- go l' r.2;
        Ok (r.1 :: rs.1, rs.2)
    end.

Section Tagger.
Context `{!Indexability} `{!GeoLibrary}.

Fixpoint rateIndices (node : Expression) (prefix : string)
    (indices : list IndexEntry) (h : Heap) : Result (Expression * Heap) :=
  if bool_decide (matchType node = NOR) then Ok (node, h)
  else if isBoundsGenerating (view h node) then
    do fullPath <-
      (if bool_decide (matchType node = NOT) then
         match getChild node 0 with
         | Some child => Ok (prefix +:+ path child)
         | None => Abort undefined
         end
       else Ok (prefix +:+ path node));
    do _ <- verify 318 (bool_decide (getTag node = None));
    (* RelevantTag* rt = new RelevantTag(); node->setTag(rt);
       rt->path = fullPath; *)
    let '(rt, h) := alloc h (mkTag fullPath [] []) in
    let node := setTag node (Some rt) in
    (* the loop pushes the indexes into the lists of [rt] *)
    do tag <- rateAll fullPath (view h node) 0 indices (mkTag fullPath [] []);
    let h := <[rt := tag]> h in
    if bool_decide (matchType node = NOT) then
      match children node with
      | child :: others =>
          do r <- clone h rt;
          let '(childRt, h) := r in
          do h <- copyPath h rt childRt;
          Ok (setChildren node (setTag child (Some childRt) :: others), h)
      | [] => Abort undefined
      end
    else Ok (node, h)
  else if arrayUsesIndexOnChildren (view h node) then
    let prefix := if String.eqb (path node) "" then prefix
                  else prefix +:+ path node +:+ "." in
    do r <- forEach (fun c h => rateIndices c prefix indices h) (children node) h;
    Ok (setChildren node r.1, r.2)
  else if isLogical (view h node) then
    do r <- forEach (fun c h => rateIndices c prefix indices h) (children node) h;
    Ok (setChildren node r.1, r.2)
  else Ok (node, h).

(** Remove [idx] from the lists of the tag object of [node]. *)
Definition removeIndexRelevantTag (node : Expression) (idx : nat) (h : Heap)
  : Result Heap :=
  match getTag node with
  | None => Abort (verify_failed 367)
  | Some a =>
      match h !! a with
      | Some tag =>
          Ok (<[a := mkTag (tag_path tag) (eraseFirst idx (first tag))
                       (eraseFirst idx (notFirst tag))]> h)
      | None => Abort undefined
      end
  end.
End Tagger.

End TagHeap.
(** ** Sample collaborators

    The theorems below hold for every [Indexability] and every
    [GeoLibrary]; the examples are evaluated with these two. *)

(** Modelled from the spec: [Indexability] of indexability.h.  An indexable
    leaf is a leaf predicate (equality, comparison, IN, regex, mod, type,
    geo, geo-near, text) with a path; the array operator that passes its
    field to its children is the object elemMatch; a node generates bounds
    when it is such a leaf or the NOT of one. *)
Definition isIndexOnOwnFieldTypeNode (me : MatchExpression) : bool :=
  match matchType me with
  | LTE | LT | EQ | GT | GTE | REGEX | MOD | MATCH_IN | TYPE_OPERATOR
  | GEO | GEO_NEAR | TEXT => true
  | _ => false
  end.

Definition sample_nodeCanUseIndexOnOwnField (me : MatchExpression) : bool :=
  negb (String.eqb (path me) "") && isIndexOnOwnFieldTypeNode me.

Definition sample_isBoundsGenerating (me : MatchExpression) : bool :=
  (bool_decide (matchType me = NOT)
   && match getChild me 0 with
      | Some child => sample_nodeCanUseIndexOnOwnField child
      | None => false
      end)
  || sample_nodeCanUseIndexOnOwnField me.

#[export] Program Instance sample_indexability : Indexability := {|
  nodeCanUseIndexOnOwnField := sample_nodeCanUseIndexOnOwnField;
  arrayUsesIndexOnChildren me := bool_decide (matchType me = ELEM_MATCH_OBJECT);
  isBoundsGenerating := sample_isBoundsGenerating;
|}.
Next Obligation. by intros [mt p d t cs]. Qed.

(** A geometry library for the examples: degrees from radians, a scan
    distance that is not widened, and a fixed error of the geohash grid. *)
#[export] Instance sample_geo : GeoLibrary := {|
  rad2deg r := (r * 0x1.ca5dc1a63c1f8p+5)%float;
  computeXScanDistance _ maxDistDegrees := maxDistDegrees;
  getErrorSphere _ := 0x1p-10%float;
  toUnsigned _ := 26%N;
|}.

(** Builders for the examples. *)
Definition leaf (mt : MatchType) (p : string) : MatchExpression :=
  Node mt p NoPayload None [].
Definition eqLeaf (p : string) (v : BSONValue) : MatchExpression :=
  Node EQ p (EqualityData (mkElt "" v)) None [].
Definition textLeaf : MatchExpression := Node TEXT "_fts" NoPayload None [].
Definition tree (mt : MatchType) (cs : list MatchExpression) : MatchExpression :=
  Node mt "" NoPayload None cs.
Definition tagged (t : RelevantTag) (n : MatchExpression) : MatchExpression :=
  setTag n (Some t).
Definition asc (f : string) : BSONElement := mkElt f (BNumber 1).
Definition family (f s : string) : BSONElement := mkElt f (BString s).
Definition btree (kp : BSONObj) : IndexEntry := mkIndex kp false false INDEX_BTREE [].
Definition textIndex (kp : BSONObj) : IndexEntry := mkIndex kp false false INDEX_TEXT [].


(** Inputs of the examples. *)
Module Examples.
Definition ix_a : IndexEntry := btree [asc "a"].
Definition ix_a_sparse : IndexEntry := mkIndex [asc "a"] false true INDEX_BTREE [].
Definition ix_a_hashed_sparse : IndexEntry :=
  mkIndex [family "a" "hashed"] false true INDEX_HASHED [].
(** {p: 1, _fts: "text"} *)
Definition ix_text : IndexEntry := textIndex [asc "p"; family "_fts" "text"].
(** {a: {$ne: 5}} *)
Definition q_not : MatchExpression := tree NOT [leaf EQ "a"].
(** {a: 5, $nor: [{b: {$gt: 1}}, {c: 2}]} *)
Definition q_nor : MatchExpression :=
  tree AND [eqLeaf "a" (BNumber 5);
            tree NOR [leaf GT "b"; eqLeaf "c" (BNumber 2)]].
Definition q_nor_rated : MatchExpression :=
  tree AND [tagged (mkTag "a" [0] []) (eqLeaf "a" (BNumber 5));
            tree NOR [leaf GT "b"; eqLeaf "c" (BNumber 2)]].
End Examples.

Module Examples2.
(** {$nor: [{a: 5}]} *)
Definition q_nor_eq : MatchExpression := tree NOR [eqLeaf "a" (BNumber 5)].
(** {a: null} *)
Definition q_null : MatchExpression := eqLeaf "a" BNull.
(** {x: 1, a: 1, a: -1}: the key pattern names [a] twice after [x]. *)
Definition ix_repeat : IndexEntry :=
  btree [asc "x"; asc "a"; mkElt "a" (BNumber (-1))].
End Examples2.

Module Examples3.
(** {p: 1, _fts: "text", s: 1} *)
Definition ix_text_suffix : IndexEntry :=
  textIndex [asc "p"; family "_fts" "text"; asc "s"].
(** {loc: "2d"} *)
Definition ix_2d : IndexEntry := mkIndex [family "loc" "2d"] false false INDEX_2D [].
(** {loc: {$geoWithin: {$centerSphere: [[0, 0], 0.5]}}} *)
Definition capAt (cx cy r : float) : GeometryContainer :=
  mkGeometry true false (Some (mkCap (mkCircle r (mkPoint cx cy)) SPHERE)).
Definition withinCap (cx cy r : float) : MatchExpression :=
  Node GEO "loc" (GeoData (mkGeoQuery WITHIN (capAt cx cy r))) None [].
End Examples3.

Module Examples4.
(** {q: 1, $or: [{$text: ..., p: 1}, {r: 1}]}: the text predicate and
    the equality on the prefix [p] sit in an AND below an OR. *)
Definition q_nested : MatchExpression :=
  tree AND [eqLeaf "q" (BNumber 1);
            tree OR [tree AND [textLeaf; eqLeaf "p" (BNumber 1)];
                     eqLeaf "r" (BNumber 1)]].
Definition q_nested_rated : MatchExpression :=
  tree AND [tagged (mkTag "q" [] []) (eqLeaf "q" (BNumber 1));
            tree OR [tree AND [tagged (mkTag "_fts" [] [0]) textLeaf;
                               tagged (mkTag "p" [0] []) (eqLeaf "p" (BNumber 1))];
                     tagged (mkTag "r" [] []) (eqLeaf "r" (BNumber 1))]].
(** {$text: ..., p: {$gt: 1}} after tagging with a text index whose
    prefix [p] is not matched by an equality. *)
Definition q_tagged_twice : MatchExpression :=
  tagged (mkTag "a" [] []) (tree AND [leaf GT "a"]).
End Examples4.

Module Examples5.
(** {a: {$ne: 5}} with its tags on the heap. *)
Definition h_not : TagHeap.Expression :=
  TagHeap.ENode NOT "" NoPayload None [TagHeap.ENode EQ "a" NoPayload None []].
Definition h_not_rated : TagHeap.Expression :=
  TagHeap.ENode NOT "" NoPayload (Some 0)
    [TagHeap.ENode EQ "a" NoPayload (Some 1) []].
End Examples5.

(** A second geometry library for the examples, in which the options of
    the index and the two directions of the box can be told apart: the
    error of the grid is its span divided by 2^bits, the cast to unsigned
    truncates, and the scan distance along x is twice the one along y. *)
Fixpoint pow2 (n : nat) : float :=
  match n with
  | 0 => 1%float
  | S n' => (2 * pow2 n')%float
  end.

Definition truncate (d : float) : N :=
  match Prim2SF d with
  | S754_finite false m e => Z.to_N (Z.shiftl (Z.pos m) e)
  | _ => 0%N
  end.

Definition sample_grid : GeoLibrary := {|
  rad2deg r := (r * 0x1.ca5dc1a63c1f8p+5)%float;
  computeXScanDistance _ maxDistDegrees := (maxDistDegrees * 2)%float;
  getErrorSphere params := ((max params - min params) / pow2 (N.to_nat (bits params)))%float;
  toUnsigned := truncate;
|}.

Module Examples6.
(** {loc: "2d"} with the options {bits: 10, min: -90, max: 90}. *)
Definition ix_2d_options : IndexEntry :=
  mkIndex [family "loc" "2d"] false false INDEX_2D
    [mkElt "bits" (BNumber 10); mkElt "min" (BNumber (-90)); mkElt "max" (BNumber 90)].
Definition grid_options : Parameters :=
  mkParameters 10%N (-90) 90 (1024 * 1024 * 1024 * 4 / (90 - (-90)))%float.
End Examples6.
(** * Vocabulary of the statements *)

Definition beforePath (node : MatchExpression) (e : BSONElement) : Prop :=
  isString e = false ∧ fieldName e ≠ path node.


(** A leaf that the ordinary branch neither refuses nor special-cases. *)
Definition plainLeaf (node : MatchExpression) : Prop :=
  matchType node ≠ EQ ∧ matchType node ≠ GEO ∧ matchType node ≠ GEO_NEAR ∧
  matchType node ≠ NOT.



(** The family names the oracle knows. *)
Definition recognized (s : string) : Prop :=
  s = "" ∨ s = IndexNames.HASHED ∨ s = IndexNames.GEO_2DSPHERE ∨
  s = IndexNames.GEO_2D ∨ s = IndexNames.TEXT ∨ s = IndexNames.GEO_HAYSTACK.


(** The node at a position: the list of child numbers from the root. *)
Fixpoint subtree (pos : list nat) (root : MatchExpression) : option MatchExpression :=
  match pos with
  | [] => Some root
  | i :: pos' =>
      match children root !! i with
      | Some c => subtree pos' c
      | None => None
      end
  end.

(** Two nodes that differ at most in their tags and below. *)
Definition sameNode (n n' : MatchExpression) : Prop :=
  matchType n' = matchType n ∧ path n' = path n ∧ payload n' = payload n ∧
  length (children n') = length (children n).

(** The elements of a key pattern as [rateIndices] reads them: the first
    [next], then the rest. *)
Definition firstElement (index : IndexEntry) : BSONElement := (next (keyPattern index)).1.
Definition laterElements (index : IndexEntry) : BSONObj := (next (keyPattern index)).2.

Section TaggingVocabulary.
Context {IX : Indexability} {GL : GeoLibrary}.

(** [rateIndices] called on the node rates it, or goes on into its
    children. *)
Definition rates (n : MatchExpression) : Prop :=
  matchType n ≠ NOR ∧ isBoundsGenerating n = true.

Definition descends (n : MatchExpression) : Prop :=
  matchType n ≠ NOR ∧ isBoundsGenerating n = false ∧
  (arrayUsesIndexOnChildren n || isLogical n) = true.

(** [RatedAt root pos n]: the traversal of [root] rates the node [n] and
    puts the tag at [pos]: on [n] itself, or on the first child of [n]
    when [n] is a NOT. *)
Inductive RatedAt : MatchExpression → list nat → MatchExpression → Prop :=
  | rated_here root :
      rates root → RatedAt root [] root
  | rated_child_of_not root :
      rates root → matchType root = NOT → RatedAt root [0] root
  | rated_below root i c pos n :
      descends root → children root !! i = Some c →
      RatedAt c pos n → RatedAt root (i :: pos) n.

(** The index accepts the node through its first key element, or through
    a later one. *)
Definition acceptsFirst (fullPath : string) (node : MatchExpression)
    (index : IndexEntry) : Prop :=
  fieldName (firstElement index) = fullPath ∧
  compatible (firstElement index) index node = Ok true.

Definition acceptsLater (fullPath : string) (node : MatchExpression)
    (index : IndexEntry) : Prop :=
  ∃ elt, elt ∈ laterElements index ∧ fieldName elt = fullPath ∧
         compatible elt index node = Ok true.

(** The tag [rateIndices] computes for a node it rates. *)
Definition ratedTag (indices : list IndexEntry) (n : MatchExpression)
    (rt : RelevantTag) : Prop :=
  ∃ fullPath,
    tag_path rt = fullPath ∧
    (∀ i, i ∈ first rt ↔
          ∃ index, indices !! i = Some index ∧ acceptsFirst fullPath n index) ∧
    (∀ i, i ∈ notFirst rt ↔
          ∃ index, indices !! i = Some index ∧ acceptsLater fullPath n index).

End TaggingVocabulary.

Section CollectionVocabulary.
Context {IX : Indexability}.

(** The prefix [getFields] and [rateIndices] hand to the children of an
    array operator. *)
Definition childPrefix (node : MatchExpression) (prefix : string) : string :=
  if String.eqb (path node) "" then prefix else prefix +:+ path node +:+ ".".

(** [CollectedAt root prefix pos s]: [getFields] on [root] inserts the
    path [s] for the node at [pos]. *)
Inductive CollectedAt : MatchExpression → string → list nat → string → Prop :=
  | collected_here root prefix :
      matchType root ≠ NOR → nodeCanUseIndexOnOwnField root = true →
      CollectedAt root prefix [] (prefix +:+ path root)
  | collected_array root prefix i c pos s :
      matchType root ≠ NOR → nodeCanUseIndexOnOwnField root = false →
      arrayUsesIndexOnChildren root = true →
      children root !! i = Some c →
      CollectedAt c (childPrefix root prefix) pos s →
      CollectedAt root prefix (i :: pos) s
  | collected_logical root prefix i c pos s :
      matchType root ≠ NOR → nodeCanUseIndexOnOwnField root = false →
      arrayUsesIndexOnChildren root = false → isLogical root = true →
      children root !! i = Some c →
      CollectedAt c prefix pos s →
      CollectedAt root prefix (i :: pos) s.
End CollectionVocabulary.

(** [l'] is [l] without the first occurrence of [idx], if there is one. *)
Definition firstOccurrenceRemoved (idx : nat) (l l' : list nat) : Prop :=
  ((idx ∉ l) ∧ l' = l) ∨
  (∃ l1 l2, l = l1 ++ idx :: l2 ∧ (idx ∉ l1) ∧ l' = l1 ++ l2).

(** [a] is strictly below [b] in the order of IEEE doubles (false when
    either is not a number). *)
Definition below (a b : float) : Prop :=
  SFcompare (Prim2SF a) (Prim2SF b) = Some Lt.

(** The number an option of an index stands for: the number held by the
    first element of that name among the options of the index, and the
    default when no element has the name or the first that has it holds no
    number. *)
Inductive optionValue (name : string) (def : float) : BSONObj → float → Prop :=
  | option_missing :
      optionValue name def [] def
  | option_number e rest d :
      fieldName e = name → value e = BNumber d →
      optionValue name def (e :: rest) d
  | option_no_number e rest :
      fieldName e = name → isNumber e = false →
      optionValue name def (e :: rest) def
  | option_later e rest v :
      fieldName e ≠ name → optionValue name def rest v →
      optionValue name def (e :: rest) v.

Section GeometryVocabulary.
Context {GL : GeoLibrary}.

(** The geohash grid of a 2d index: as many bits as its option [bits]
    says (26 by default), the bounds of its options [min] and [max] (-180
    and 180 by default), and 2^32 buckets over the span between the
    bounds. *)
Definition gridOf (index : IndexEntry) (params : Parameters) : Prop :=
  (∃ b, optionValue "bits" 26 (infoObj index) b ∧ bits params = toUnsigned b) ∧
  optionValue "max" 180 (infoObj index) (max params) ∧
  optionValue "min" (-180) (infoObj index) (min params) ∧
  scaling params = (1024 * 1024 * 1024 * 4 / (max params - min params))%float.

(** The scan distances of a circle on a 2d index: along y the radius in
    degrees widened by the error of the grid of the index, along x what
    the geometry library makes of that distance at the latitude of the
    center. *)
Definition scanBox (circle : Circle) (index : IndexEntry) (xdist ydist : float) : Prop :=
  ∃ params,
    gridOf index params ∧
    ydist = (rad2deg (radius circle) + getErrorSphere params)%float ∧
    xdist = computeXScanDistance (y (center circle)) ydist.

(** The box of the circle, widened by the scan distances, lies strictly
    inside (-180,180)x(-90,90). *)
Definition strictlyInside (circle : Circle) (index : IndexEntry) : Prop :=
  ∃ xdist ydist,
    scanBox circle index xdist ydist ∧
    below (x (center circle) + xdist) 180 ∧
    below (-180) (x (center circle) - xdist) ∧
    below (y (center circle) + ydist) 90 ∧
    below (-90) (y (center circle) - ydist).

(** The box touches or crosses one of the four bounds. *)
Definition touchesOrCrosses (circle : Circle) (index : IndexEntry) : Prop :=
  ∃ xdist ydist,
    scanBox circle index xdist ydist ∧
    ((180 <=? x (center circle) + xdist)%float = true ∨
     (x (center circle) - xdist <=? -180)%float = true ∨
     (90 <=? y (center circle) + ydist)%float = true ∨
     (y (center circle) - ydist <=? -90)%float = true).
End GeometryVocabulary.

Section EnforcementVocabulary.
Context {IX : Indexability}.

(** The tag of the node lists the index, in either list. *)
Definition carries (idx : nat) (n : MatchExpression) : bool :=
  match getTag n with
  | Some tag => assigned idx tag
  | None => false
  end.

(** The nodes [stripInvalidAssignmentsToTextIndex] does not look below:
    own-field leaves and negations. *)
Definition opaque (n : MatchExpression) : bool :=
  nodeCanUseIndexOnOwnField n
  || bool_decide (matchType n = NOT) || bool_decide (matchType n = NOR).

(** The nodes whose children the enforcement inspects when it meets
    them: not opaque, and not themselves assigned to the index. *)
Definition entered (idx : nat) (n : MatchExpression) : bool :=
  negb (opaque n) && negb (carries idx n).

(** Every node from the root to the position, both included, is
    entered. *)
Fixpoint enteredAlong (idx : nat) (root : MatchExpression) (pos : list nat) : bool :=
  entered idx root &&
  match pos with
  | [] => true
  | i :: pos' =>
      match children root !! i with
      | Some c => enteredAlong idx c pos'
      | None => false
      end
  end.

(** The prerequisites of a text index in an AND: a direct TEXT child
    assigned to the index and, for each prefix path, a direct child other
    than the TEXT predicate, assigned to the index, with that path. *)
Definition hasTextChild (idx : nat) (node : MatchExpression) : Prop :=
  ∃ c, c ∈ children node ∧ matchType c = TEXT ∧ carries idx c = true.

Definition coversPrefix (idx : nat) (node : MatchExpression) (p : string) : Prop :=
  ∃ c, c ∈ children node ∧ matchType c ≠ TEXT ∧ carries idx c = true ∧ path c = p.

Definition satisfied (idx : nat) (prefixPaths : gset string)
    (node : MatchExpression) : Prop :=
  hasTextChild idx node ∧ ∀ p, p ∈ prefixPaths → coversPrefix idx node p.

(** No tag of the tree lists an index twice in one list. *)
Fixpoint tagsOnce (n : MatchExpression) : bool :=
  let 'Node _ _ _ t cs := n in
  match t with
  | Some tag => bool_decide (NoDup (first tag)) && bool_decide (NoDup (notFirst tag))
  | None => true
  end && forallb tagsOnce cs.

(** Two nodes alike for the index [idx]: the same expression, and both
    assigned to [idx] or neither. *)
Definition alike (idx : nat) (n n' : MatchExpression) : Prop :=
  untagged n' = untagged n ∧ carries idx n' = carries idx n.

(** The state of a subtree after the enforcement for [idx]: an own-field
    leaf directly below an inspected node keeps the index only in an AND
    that meets the prerequisites. *)
Inductive Enforced (idx : nat) (prefixPaths : gset string) : MatchExpression → Prop :=
  | enforced_opaque node :
      opaque node = true → Enforced idx prefixPaths node
  | enforced_inspected node :
      opaque node = false →
      Forall (λ c,
                (nodeCanUseIndexOnOwnField c = true → carries idx c = true →
                 matchType node = AND ∧ satisfied idx prefixPaths node) ∧
                (entered idx c = true → Enforced idx prefixPaths c))
             (children node) →
      Enforced idx prefixPaths node.
End EnforcementVocabulary.

(** The addresses a tree on the heap holds, and the trees all of whose
    addresses are allocated. *)
Fixpoint addresses (n : TagHeap.Expression) : list nat :=
  let 'TagHeap.ENode _ _ _ t cs := n in
  match t with Some a => [a] | None => [] end ++ concat (map addresses cs).

Definition allocated (h : list RelevantTag) (n : TagHeap.Expression) : Prop :=
  Forall (λ a, a < length h) (addresses n).


(** ** Vocabulary of the further properties *)

Section TagPathVocabulary.
Context {IX : Indexability}.

(** The prefix [rateIndices] hands to the children of a node it descends
    into. *)
Definition ratingPrefix (node : MatchExpression) (prefix : string) : string :=
  if arrayUsesIndexOnChildren node then childPrefix node prefix else prefix.

(** The path [rateIndices] rates a node for: after the prefix, the path of
    the node, or of its first child when the node is a NOT. *)
Definition fullPathOf (node : MatchExpression) (prefix : string) : option string :=
  if bool_decide (matchType node = NOT)
  then (λ child, prefix +:+ path child) <$> getChild node 0
  else Some (prefix +:+ path node).

(** [TagPathAt root prefix pos s]: the traversal of [root] started with
    [prefix] puts at [pos] a tag computed for the path [s]. *)
Inductive TagPathAt : MatchExpression → string → list nat → string → Prop :=
  | tag_path_here root prefix s :
      rates root → fullPathOf root prefix = Some s →
      TagPathAt root prefix [] s
  | tag_path_child_of_not root prefix s :
      rates root → matchType root = NOT → fullPathOf root prefix = Some s →
      TagPathAt root prefix [0] s
  | tag_path_below root prefix i c pos s :
      descends root → children root !! i = Some c →
      TagPathAt c (ratingPrefix root prefix) pos s →
      TagPathAt root prefix (i :: pos) s.

(** Modelled from the spec: how indexability.h relates its tests: a node
    generates bounds when it can use an index on its own field or is a NOT
    whose first child can; a logical connective neither can use an index
    on its own field nor is an array operator. *)
Definition ownFieldBounds : Prop :=
  (∀ n, isBoundsGenerating n =
        nodeCanUseIndexOnOwnField n
        || (bool_decide (matchType n = NOT)
            && from_option nodeCanUseIndexOnOwnField false (getChild n 0))) ∧
  (∀ n, nodeCanUseIndexOnOwnField n = true → isLogical n = false) ∧
  (∀ n, arrayUsesIndexOnChildren n = true → isLogical n = false).
End TagPathVocabulary.

(** A test of indexability.h that reads the expression and not its tags. *)
Definition tagBlind (test : MatchExpression → bool) : Prop :=
  ∀ n n', untagged n' = untagged n → test n' = test n.

(** The lists of a tag in the order of the catalog: the first without
    repetition, the second possibly with, both below [bound]. *)
Definition ordered (bound : nat) (rt : RelevantTag) : Prop :=
  StronglySorted lt (first rt) ∧ StronglySorted le (notFirst rt) ∧
  Forall (λ j, j < bound) (first rt) ∧ Forall (λ j, j < bound) (notFirst rt).

(** A node whose payload and children are those of its expression class:
    an equality holds the value it compares with, a geo predicate its
    query, a NOT its child. *)
Definition wellTyped (node : MatchExpression) : Prop :=
  (matchType node = EQ → ∃ data, payload node = EqualityData data) ∧
  (matchType node = GEO → ∃ gq, payload node = GeoData gq) ∧
  (matchType node = GEO_NEAR → ∃ nq, payload node = GeoNearData nq) ∧
  (matchType node = NOT → is_Some (getChild node 0)).

(** [tagShrunk removable t t']: the tag [t'] is the tag [t] with some
    occurrences of removable indexes taken out of its lists; the path, the
    order and every occurrence of the other indexes are kept. *)
Definition tagShrunk (removable : nat → bool) (t t' : RelevantTag) : Prop :=
  tag_path t' = tag_path t ∧
  first t' `sublist_of` first t ∧ notFirst t' `sublist_of` notFirst t ∧
  filter (λ i, removable i = false) (first t')
  = filter (λ i, removable i = false) (first t) ∧
  filter (λ i, removable i = false) (notFirst t')
  = filter (λ i, removable i = false) (notFirst t).

(** The position [i] of the catalog holds an index of type TEXT. *)
Definition isTextIndex (indices : list IndexEntry) (i : nat) : bool :=
  from_option (λ index, bool_decide (type index = INDEX_TEXT)) false (indices !! i).

Section FrameVocabulary.
Context {IX : Indexability}.

(** [Stripped removable node node']: [node'] is [node] after removals of
    removable indexes from tags of own-field nodes that are reached
    through nodes the enforcement looks below; everything else is as it
    was. *)
Inductive Stripped (removable : nat → bool) : MatchExpression → MatchExpression → Prop :=
  | stripped_leaf node t t' :
      nodeCanUseIndexOnOwnField node = true → getTag node = Some t →
      tagShrunk removable t t' →
      Stripped removable node (setTag node (Some t'))
  | stripped_same node :
      Stripped removable node node
  | stripped_inspected node cs :
      opaque node = false →
      Forall2 (Stripped removable) (children node) cs →
      Stripped removable node (setChildren node cs).
End FrameVocabulary.

Section ReadyVocabulary.
Context {IX : Indexability}.

(** A tree ready for the enforcement: every node that can use an index on
    its own field and is reached through nodes the enforcement looks below
    carries a tag. *)
Inductive Ready : MatchExpression → Prop :=
  | ready_leaf node :
      nodeCanUseIndexOnOwnField node = true → is_Some (getTag node) → Ready node
  | ready_negation node :
      nodeCanUseIndexOnOwnField node = false → opaque node = true → Ready node
  | ready_inspected node :
      opaque node = false → Forall Ready (children node) → Ready node.
End ReadyVocabulary.

(** No tag of the tree lists the index. *)
Definition unlisted (idx : nat) (root : MatchExpression) : Prop :=
  ∀ pos n t, subtree pos root = Some n → getTag n = Some t →
             (idx ∉ first t) ∧ (idx ∉ notFirst t).

(** A double that is not a finite number: a NaN or an infinity. *)
Definition nonFinite (f : float) : bool := is_nan f || is_infinity f.
(** * Properties *)

(** ** The result monad and the loops *)

Lemma bind_Ok {A B : Type} (m : Result A) (k : A → Result B) (b : B) :
  bind m k = Ok b ↔ ∃ a, m = Ok a ∧ k a = Ok b.
Proof.
  destruct m as [a|f]; simpl; split.
  - eauto.
  - by intros (a' & [= <-] & ?).
  - done.
  - by intros (a' & ? & _).
Qed.

Lemma forEach_Ok {A : Type} (f : A → Result A) (l l' : list A) :
  forEach f l = Ok l' ↔ Forall2 (λ a b, f a = Ok b) l l'.
Proof.
  revert l'. induction l as [|a l IH]; intros l'; simpl.
  - split; [intros [= <-]; constructor | by inversion 1].
  - rewrite bind_Ok. split.
    + intros (b & Hb & H). apply bind_Ok in H as (bs & Hbs & [= <-]).
      constructor; [done | by apply IH].
    + inversion 1 as [|? b ? bs Hb Hbs]; subst.
      exists b. split; [done|]. apply bind_Ok. exists bs. by rewrite IH.
Qed.

Ltac inv_bind H :=
  repeat match type of H with
    | bind _ _ = Ok _ =>
        let a := fresh "a" in
        let Ha := fresh "Ha" in
        apply bind_Ok in H as (a & Ha & H)
    end.

(** ** Strict comparison of doubles *)

Lemma SFcompare_Lt_swap (a b : spec_float) :
  SFcompare a b = Some Lt → SFcompare b a = Some Gt.
Proof.
  destruct a as [sa|sa| |sa ma ea], b as [sb|sb| |sb mb eb]; simpl;
    try done; try (by destruct sa); try (by destruct sb);
    try (by destruct sa, sb).
  destruct sa, sb; try done; rewrite (Z.compare_antisym ea eb);
    destruct (ea ?= eb)%Z; simpl; try done.
  - rewrite (Pos.compare_cont_antisym mb ma Eq). simpl.
    by destruct (Pos.compare_cont Eq ma mb).
  - rewrite (ZC4 mb ma).
    by destruct (Pos.compare_cont Eq ma mb).
Qed.

(** [a < b] is false as soon as [b <= a]: a bound that is touched or
    crossed is not strictly inside. *)
Lemma ltb_false_of_leb (a b : float) :
  (b <=? a)%float = true → (a <? b)%float = false.
Proof.
  rewrite leb_spec, ltb_spec. unfold SFleb, SFltb.
  destruct (SFcompare (Prim2SF a) (Prim2SF b)) as [[]|] eqn:Hab; try done.
  by rewrite (SFcompare_Lt_swap _ _ Hab).
Qed.

(** ** The compatibility oracle *)

Section Oracle.
Context {GL : GeoLibrary}.



Lemma specScan_abort node kp f :
  specScan node kp = Abort f ↔
  f = invariant_failed 228 ∧ Forall (beforePath node) kp.
Proof.
  induction kp as [|e kp IH]; simpl.
  - split; [by intros [= <-] | by intros [-> _]].
  - destruct (isString e) eqn:Hs.
    + split; [done|]. intros [_ Hall]. inversion Hall as [|?? [? _]]; congruence.
    + destruct (String.eqb_spec (path node) (fieldName e)) as [Heq|Hne].
      * split; [done|]. intros [_ Hall]. inversion Hall as [|?? [_ ?]]; congruence.
      * rewrite IH. split.
        -- intros [-> ?]. split; [done|]. constructor; [|done].
           split; [done | congruence].
        -- intros [-> Hall]. by inversion Hall.
Qed.

Lemma compatible_ordinary_eq elt index node data :
  indexedFieldType elt index = "" →
  matchType node = EQ → payload node = EqualityData data →
  compatible elt index node = Ok (negb (sparse index && isNull data)).
Proof.
  intros Hift Hmt Hd. unfold compatible. rewrite Hift, Hmt, Hd. simpl.
  destruct (sparse index); simpl.
  - destruct (isNull data); simpl; [done|]. by case_bool_decide.
  - by case_bool_decide.
Qed.

Lemma compatible_ordinary_geo elt index node :
  indexedFieldType elt index = "" →
  matchType node = GEO ∨ matchType node = GEO_NEAR →
  compatible elt index node = Ok false.
Proof.
  intros Hift [Hmt|Hmt]; unfold compatible; by rewrite Hift, Hmt.
Qed.

Lemma compatible_ordinary_not_sparse_multikey elt index node :
  indexedFieldType elt index = "" → matchType node = NOT →
  sparse index = true ∨ multikey index = true →
  compatible elt index node = Ok false.
Proof.
  intros Hift Hmt Hsm. unfold compatible. rewrite Hift, Hmt. simpl.
  by destruct Hsm as [->| ->], (sparse index), (multikey index).
Qed.

Lemma compatible_ordinary_not_regex_mod elt index node child :
  indexedFieldType elt index = "" → matchType node = NOT →
  getChild node 0 = Some child →
  matchType child = REGEX ∨ matchType child = MOD →
  compatible elt index node = Ok false.
Proof.
  intros Hift Hmt Hc Hrm. unfold compatible. rewrite Hift, Hmt, Hc. simpl.
  destruct (sparse index || multikey index); simpl; [done|].
  by destruct Hrm as [->| ->].
Qed.

Lemma compatible_ordinary_text_plain elt index node :
  indexedFieldType elt index = "" → type index = INDEX_TEXT →
  plainLeaf node →
  compatible elt index node = specScan node (keyPattern index).
Proof.
  intros Hift Hty (Heq & Hgeo & Hnear & Hnot). unfold compatible.
  rewrite Hift, Hty. simpl.
  repeat (case_bool_decide; try done; simpl).
Qed.







(** A NOT is accepted by no family element, and by an ordinary element
    only of an index that is neither sparse nor multikey. *)
Lemma compatible_not_true elt index node :
  matchType node = NOT → compatible elt index node = Ok true →
  sparse index = false ∧ multikey index = false.
Proof.
  intros Hmt. unfold compatible. rewrite Hmt. simpl.
  destruct (String.eqb (indexedFieldType elt index) ""); simpl.
  - destruct (sparse index), (multikey index); simpl; try done.
  - repeat (match goal with |- context [String.eqb ?a ?b] => destruct (String.eqb a b) end;
            simpl; try done).
Qed.

Lemma compatible_unrecognized elt index node :
  ¬ recognized (indexedFieldType elt index) →
  compatible elt index node = Abort (verify_failed 293).
Proof.
  intros Hnot. unfold compatible, recognized in *.
  repeat (match goal with
          | |- context [String.eqb ?a ?b] =>
              destruct (String.eqb_spec a b); [exfalso; apply Hnot; tauto|]
          end).
  done.
Qed.

End Oracle.

(** ** The tagging pass *)

Section Tagging.
Context {IX : Indexability} {GL : GeoLibrary}.

Lemma rateRest_Ok fullPath index node i it rt rt' :
  rateRest fullPath index node i it rt = Ok rt' →
  tag_path rt' = tag_path rt ∧ first rt' = first rt ∧
  (∀ j, j ∈ notFirst rt' ↔
        j ∈ notFirst rt ∨
        j = i ∧ ∃ elt, elt ∈ it ∧ fieldName elt = fullPath ∧
                       compatible elt index node = Ok true).
Proof.
  revert rt. induction it as [|elt it IH]; intros rt; simpl.
  - intros [= <-]. repeat split; [tauto|]. intros [?|(_ & ? & []%elem_of_nil & _)]; done.
  - intros H. inv_bind H. apply IH in H as (Hp & Hf & Hn).
    assert (a = true ↔ fieldName elt = fullPath ∧ compatible elt index node = Ok true)
      as Hhit.
    { destruct (String.eqb_spec (fieldName elt) fullPath).
      - rewrite Ha. split; [by intros -> | by intros [_ [= ->]]].
      - injection Ha as <-. split; [done | by intros []]. }
    split; [by destruct a|]. split; [by destruct a|]. intros j. rewrite Hn.
    assert (j ∈ notFirst (if a then mkTag (tag_path rt) (first rt) (notFirst rt ++ [i])
                          else rt) ↔ j ∈ notFirst rt ∨ j = i ∧ a = true) as ->.
    { destruct a; simpl; [|naive_solver].
      rewrite elem_of_app, list_elem_of_singleton. naive_solver. }
    rewrite Hhit. setoid_rewrite elem_of_cons. naive_solver.
Qed.
End Tagging.

Section TaggingLoops.
Context {IX : Indexability} {GL : GeoLibrary}.

Lemma rateIndex_Ok fullPath node i index rt rt' :
  rateIndex fullPath node i index rt = Ok rt' →
  tag_path rt' = tag_path rt ∧
  (∀ j, j ∈ first rt' ↔ j ∈ first rt ∨ j = i ∧ acceptsFirst fullPath node index) ∧
  (∀ j, j ∈ notFirst rt' ↔ j ∈ notFirst rt ∨ j = i ∧ acceptsLater fullPath node index).
Proof.
  unfold rateIndex, acceptsFirst, acceptsLater, firstElement, laterElements.
  destruct (next (keyPattern index)) as [elt it]. simpl.
  intros H. inv_bind H. apply rateRest_Ok in H as (Hp & Hf & Hn).
  assert (a = true ↔ fieldName elt = fullPath ∧ compatible elt index node = Ok true)
    as Hhit.
  { destruct (String.eqb_spec (fieldName elt) fullPath).
    - rewrite Ha. split; [by intros -> | by intros [_ [= ->]]].
    - injection Ha as <-. split; [done | by intros []]. }
  split; [by destruct a|]. split.
  - intros j. rewrite Hf, <- Hhit. destruct a; simpl; [|naive_solver].
    rewrite elem_of_app, list_elem_of_singleton. naive_solver.
  - intros j. rewrite Hn. by destruct a.
Qed.

Lemma rateAll_Ok fullPath node i0 indices rt rt' :
  rateAll fullPath node i0 indices rt = Ok rt' →
  tag_path rt' = tag_path rt ∧
  (∀ j, j ∈ first rt' ↔
        j ∈ first rt ∨
        ∃ k index, j = i0 + k ∧ indices !! k = Some index ∧
                   acceptsFirst fullPath node index) ∧
  (∀ j, j ∈ notFirst rt' ↔
        j ∈ notFirst rt ∨
        ∃ k index, j = i0 + k ∧ indices !! k = Some index ∧
                   acceptsLater fullPath node index).
Proof.
  revert i0 rt. induction indices as [|index rest IH]; intros i0 rt; simpl.
  - intros [= <-]. repeat split; try tauto; intros [?|(k & ? & _ & ? & _)]; done.
  - intros H. inv_bind H. apply rateIndex_Ok in Ha as (Hp1 & Hf1 & Hn1).
    apply IH in H as (Hp & Hf & Hn). split; [congruence|]. split.
    + intros j. rewrite Hf, Hf1. split.
      * intros [[?|[-> ?]]|(k & ix & -> & ? & ?)]; [tauto| |].
        -- right. exists 0, index. split; [lia|done].
        -- right. exists (S k), ix. split; [lia|done].
      * intros [?|([|k] & ix & -> & Hk & ?)]; [tauto| |].
        -- simplify_eq/=. left. right. split; [lia|done].
        -- right. exists k, ix. split; [lia|done].
    + intros j. rewrite Hn, Hn1. split.
      * intros [[?|[-> ?]]|(k & ix & -> & ? & ?)]; [tauto| |].
        -- right. exists 0, index. split; [lia|done].
        -- right. exists (S k), ix. split; [lia|done].
      * intros [?|([|k] & ix & -> & Hk & ?)]; [tauto| |].
        -- simplify_eq/=. left. right. split; [lia|done].
        -- right. exists k, ix. split; [lia|done].
Qed.

Lemma rateAll_ratedTag fullPath node indices rt :
  rateAll fullPath node 0 indices (mkTag fullPath [] []) = Ok rt →
  ratedTag indices node rt.
Proof.
  intros (Hp & Hf & Hn)%rateAll_Ok. exists fullPath. simpl in *.
  split; [done|]. split; intros j; [rewrite Hf | rewrite Hn];
    (split; [intros [[]%elem_of_nil|(k & ix & -> & ? & ?)]; eauto
            | intros (ix & ? & ?); right; exists j, ix; eauto]).
Qed.

Lemma clone_id rt : clone rt = rt.
Proof. by destruct rt. Qed.

(** One call of [rateIndices], without its recursive calls. *)
Lemma rateIndices_unfold node prefix indices :
  rateIndices node prefix indices =
  if bool_decide (matchType node = NOR) then Ok node
  else if isBoundsGenerating node then
    do fullPath <-
      (if bool_decide (matchType node = NOT) then
         match getChild node 0 with
         | Some child => Ok (prefix +:+ path child)
         | None => Abort undefined
         end
       else Ok (prefix +:+ path node));
    do _ <- verify 318 (bool_decide (getTag node = None));
    do rt <- rateAll fullPath node 0 indices (mkTag fullPath [] []);
    if bool_decide (matchType node = NOT) then
      match children node with
      | child :: others =>
          Ok (setChildren (setTag node (Some rt))
                (setTag child (Some (clone rt)) :: others))
      | [] => Abort undefined
      end
    else Ok (setTag node (Some rt))
  else if arrayUsesIndexOnChildren node then
    let prefix := if String.eqb (path node) "" then prefix
                  else prefix +:+ path node +:+ "." in
    do cs <- forEach (fun c => rateIndices c prefix indices) (children node);
    Ok (setChildren node cs)
  else if isLogical node then
    do cs <- forEach (fun c => rateIndices c prefix indices) (children node);
    Ok (setChildren node cs)
  else Ok node.
Proof. by destruct node. Qed.

Lemma verify_Ok line b u : verify line b = Ok u ↔ b = true.
Proof. destruct b, u; simpl; split; done. Qed.

(** The three outcomes of a call that returns. *)
Lemma rateIndices_Ok node prefix indices node' :
  rateIndices node prefix indices = Ok node' →
  (node' = node ∧ ¬ rates node ∧ ¬ descends node) ∨
  (rates node ∧ getTag node = None ∧
   ∃ rt, ratedTag indices node rt ∧
         if bool_decide (matchType node = NOT) then
           ∃ child others,
             children node = child :: others ∧
             node' = setChildren (setTag node (Some rt))
                       (setTag child (Some rt) :: others)
         else node' = setTag node (Some rt)) ∨
  (descends node ∧
   ∃ prefix' cs,
     Forall2 (λ c c', rateIndices c prefix' indices = Ok c') (children node) cs ∧
     node' = setChildren node cs).
Proof.
  rewrite rateIndices_unfold. unfold rates, descends.
  case_bool_decide as Hnor.
  { intros [= <-]. left. naive_solver. }
  destruct (isBoundsGenerating node) eqn:Hbg.
  { intros H. inv_bind H. apply verify_Ok, bool_decide_eq_true in Ha0.
    apply rateAll_ratedTag in Ha1. right. left.
    split; [done|]. split; [done|]. exists a1. split; [done|].
    case_bool_decide.
    - destruct (children node) as [|child others] eqn:Hcs; [done|].
      injection H as <-. rewrite clone_id. eauto.
    - by injection H as <-. }
  destruct (arrayUsesIndexOnChildren node) eqn:Harr.
  { intros H. simpl in H. inv_bind H. injection H as <-.
    apply forEach_Ok in Ha. right. right. split; [done|]. eauto. }
  destruct (isLogical node) eqn:Hlog.
  { intros H. inv_bind H. injection H as <-.
    apply forEach_Ok in Ha. right. right. split; [done|]. eauto. }
  intros [= <-]. left. split; [done|]. split; [naive_solver|].
  intros (_ & _ & ?). done.
Qed.
End TaggingLoops.

(** ** Accessors and positions *)

Lemma matchType_setTag n t : matchType (setTag n t) = matchType n.
Proof. by destruct n. Qed.
Lemma path_setTag n t : path (setTag n t) = path n.
Proof. by destruct n. Qed.
Lemma payload_setTag n t : payload (setTag n t) = payload n.
Proof. by destruct n. Qed.
Lemma children_setTag n t : children (setTag n t) = children n.
Proof. by destruct n. Qed.
Lemma getTag_setTag n t : getTag (setTag n t) = t.
Proof. by destruct n. Qed.
Lemma matchType_setChildren n cs : matchType (setChildren n cs) = matchType n.
Proof. by destruct n. Qed.
Lemma path_setChildren n cs : path (setChildren n cs) = path n.
Proof. by destruct n. Qed.
Lemma payload_setChildren n cs : payload (setChildren n cs) = payload n.
Proof. by destruct n. Qed.
Lemma children_setChildren n cs : children (setChildren n cs) = cs.
Proof. by destruct n. Qed.
Lemma getTag_setChildren n cs : getTag (setChildren n cs) = getTag n.
Proof. by destruct n. Qed.

Create Rewrite HintDb node_eq.
#[export] Hint Rewrite matchType_setTag path_setTag payload_setTag children_setTag
  getTag_setTag matchType_setChildren path_setChildren payload_setChildren
  children_setChildren getTag_setChildren : node_eq.

Ltac node_simpl := autorewrite with node_eq in *.

Lemma subtree_setTag pos n t i :
  subtree (i :: pos) (setTag n t) = subtree (i :: pos) n.
Proof. by destruct n. Qed.

Lemma subtree_cons pos root i c :
  children root !! i = Some c → subtree (i :: pos) root = subtree pos c.
Proof. simpl. by intros ->. Qed.

Lemma subtree_app pos1 pos2 root :
  subtree (pos1 ++ pos2) root = subtree pos1 root ≫= subtree pos2.
Proof.
  revert root. induction pos1 as [|i pos1 IH]; intros root; simpl; [done|].
  destruct (children root !! i); simpl; [apply IH | done].
Qed.

Lemma sameNode_refl n : sameNode n n.
Proof. by repeat split. Qed.
#[export] Hint Resolve sameNode_refl : core.

Section TaggingPositions.
Context {IX : Indexability} {GL : GeoLibrary}.

Lemma not_rates_descends n : rates n → descends n → False.
Proof. intros [_ ?] (_ & ? & _). congruence. Qed.

Ltac no_rating Hr :=
  inversion Hr; subst; try done; try (exfalso; eauto using not_rates_descends; fail).

(** What [rateIndices] leaves at each position of the tree. *)
Lemma rateIndices_subtree pos : ∀ root prefix indices root' n,
  rateIndices root prefix indices = Ok root' →
  subtree pos root = Some n →
  ∃ n', subtree pos root' = Some n' ∧ sameNode n n' ∧
        ((∃ r rt, RatedAt root pos r ∧ ratedTag indices r rt ∧ getTag n' = Some rt)
         ∨ ((∀ r, ¬ RatedAt root pos r) ∧ getTag n' = getTag n)).
Proof.
  induction pos as [|i pos IH]; intros root prefix indices root' n Hrate Hsub.
  - simpl in Hsub. injection Hsub as <-. exists root'. split; [done|].
    apply rateIndices_Ok in Hrate
      as [(-> & Hnr & Hnd)|[(Hr & Htag & rt & Hrt & Hroot')|(Hd & p' & cs & Hcs & ->)]].
    + split; [done|]. right. split; [|done]. intros r Hrated. no_rating Hrated.
    + assert (sameNode root root' ∧ getTag root' = Some rt) as [? ?].
      { case_bool_decide.
        - destruct Hroot' as (child & others & Hc & ->). unfold sameNode.
          node_simpl. rewrite Hc. done.
        - subst root'. unfold sameNode. by node_simpl. }
      split; [done|]. left. exists root, rt. split; [by constructor|done].
    + split.
      { unfold sameNode. node_simpl. by rewrite (Forall2_length _ _ _ Hcs). }
      right. node_simpl. split; [|done]. intros r Hrated. no_rating Hrated.
  - simpl in Hsub. destruct (children root !! i) as [c|] eqn:Hc; [|done].
    apply rateIndices_Ok in Hrate
      as [(-> & Hnr & Hnd)|[(Hr & Htag & rt & Hrt & Hroot')|(Hd & p' & cs & Hcs & ->)]].
    + exists n. simpl. rewrite Hc. split; [done|]. split; [done|].
      right. split; [|done]. intros r Hrated. no_rating Hrated.
    + case_bool_decide as Hnot.
      * destruct Hroot' as (child & others & Hcs & ->).
        rewrite Hcs in Hc. destruct i as [|i]; simpl in Hc.
        -- injection Hc as <-. destruct pos as [|j pos].
           ++ simpl in Hsub. injection Hsub as <-.
              exists (setTag child (Some rt)). simpl. node_simpl. simpl.
              split; [done|]. split; [unfold sameNode; by node_simpl|].
              left. exists root, rt. node_simpl.
              split; [by constructor|done].
           ++ exists n. split.
              { rewrite (subtree_cons _ _ _ (setTag child (Some rt)))
                  by by node_simpl.
                by rewrite subtree_setTag. }
              split; [done|]. right. split; [|done].
              intros r Hrated. no_rating Hrated.
        -- exists n. split.
           { simpl. node_simpl. simpl. by rewrite Hc. }
           split; [done|]. right. split; [|done].
           intros r Hrated. no_rating Hrated.
      * subst root'. exists n. split.
        { simpl. node_simpl. by rewrite Hc. }
        split; [done|]. right. split; [|done].
        intros r Hrated. no_rating Hrated.
    + destruct (Forall2_lookup_l _ _ _ _ _ Hcs Hc) as (c' & Hc' & Hrc).
      destruct (IH _ _ _ _ _ Hrc Hsub) as (n' & Hn' & Hsame & Htag).
      exists n'. split.
      { simpl. node_simpl. by rewrite Hc'. }
      split; [done|]. destruct Htag as [(r & rt & Hr & Hrt & Ht)|[Hno Ht]].
      * left. exists r, rt. split; [|done]. by apply rated_below with c.
      * right. split; [|done]. intros r Hrated. no_rating Hrated.
        apply (Hno r). congruence.
Qed.

Lemma rateIndices_subtree_inv pos : ∀ root prefix indices root' n',
  rateIndices root prefix indices = Ok root' →
  subtree pos root' = Some n' → is_Some (subtree pos root).
Proof.
  induction pos as [|i pos IH]; intros root prefix indices root' n' Hrate Hsub.
  - by eexists.
  - simpl in *. destruct (children root' !! i) as [c'|] eqn:Hc'; [|done].
    apply rateIndices_Ok in Hrate
      as [(-> & Hnr & Hnd)|[(Hr & Htag & rt & Hrt & Hroot')|(Hd & p' & cs & Hcs & ->)]].
    + rewrite Hc'. by eexists.
    + case_bool_decide as Hnot.
      * destruct Hroot' as (child & others & Hcs & ->). node_simpl. rewrite Hcs.
        destruct i as [|i]; simpl in *.
        -- injection Hc' as <-. destruct pos; [by eexists|].
           rewrite subtree_setTag in Hsub. by eexists.
        -- rewrite Hc'. by eexists.
      * subst root'. node_simpl. rewrite Hc'. by eexists.
    + node_simpl. destruct (Forall2_lookup_r _ _ _ _ _ Hcs Hc') as (c & Hc & Hrc).
      rewrite Hc. eauto.
Qed.
End TaggingPositions.

Lemma untagged_children n :
  untagged n = n → getTag n = None ∧ Forall (λ c, untagged c = c) (children n).
Proof.
  destruct n as [mt p d t cs]. simpl. intros [= <- Hcs]. split; [done|].
  apply Forall_forall. intros c Hc.
  apply list_elem_of_lookup in Hc as [i Hi].
  apply (f_equal (λ l, l !! i)) in Hcs. rewrite list_lookup_fmap, Hi in Hcs.
  by injection Hcs.
Qed.

Lemma untagged_subtree pos : ∀ root n,
  untagged root = root → subtree pos root = Some n → getTag n = None.
Proof.
  induction pos as [|i pos IH]; intros root n Hroot Hsub; simpl in Hsub.
  - injection Hsub as <-. by apply untagged_children.
  - destruct (children root !! i) as [c|] eqn:Hc; [|done].
    apply untagged_children in Hroot as [_ Hcs].
    eapply IH; [|done]. eapply Forall_lookup_1 in Hcs; done.
Qed.

Section TaggingFacts.
Context {IX : Indexability} {GL : GeoLibrary}.

Lemma RatedAt_unique root pos r1 r2 :
  RatedAt root pos r1 → RatedAt root pos r2 → r1 = r2.
Proof.
  intros H1. revert r2. induction H1 as [root Hr|root Hr Hnot|root i c pos n Hd Hc _ IH];
    intros r2 H2; inversion H2; subst; try done;
    try (exfalso; eauto using not_rates_descends; fail).
  apply IH. congruence.
Qed.

(** Nothing at or below a NOR is rated, and neither is a node strictly
    below a rated node other than the first child of a NOT. *)
Lemma RatedAt_nor_above q : ∀ root nor pos r,
  subtree q root = Some nor → matchType nor = NOR →
  ¬ RatedAt root (q ++ pos) r ∨ (pos = [] ∧ ∃ q', q = q' ++ [0]).
Proof.
  induction q as [|j q IH]; intros root nor pos r Hsub Hnor; simpl in *.
  - injection Hsub as ->. left. intros Hr.
    inversion Hr as [? [? _]|? [? _]|????? [? _]]; by subst.
  - destruct (children root !! j) as [c|] eqn:Hc; [|done].
    destruct (IH c nor pos r Hsub Hnor) as [Hno|[-> [q' ->]]].
    + destruct (decide (q ++ pos = [] ∧ j = 0)) as [[Hnil ->]|Hne].
      * apply app_eq_nil in Hnil as [-> ->]. right. split; [done|]. by exists [].
      * left. intros Hr. inversion Hr; subst.
        -- apply Hne. done.
        -- apply Hno. congruence.
    + right. split; [done|]. by exists (j :: q').
Qed.

Lemma RatedAt_below_nor q root nor i pos r :
  subtree q root = Some nor → matchType nor = NOR →
  ¬ RatedAt root (q ++ i :: pos) r.
Proof.
  intros Hsub Hnor.
  by destruct (RatedAt_nor_above q root nor (i :: pos) r Hsub Hnor) as [?|[? _]].
Qed.

(** The node that is rated is in the tree, above or at the position of
    the tag, and it is a NOT when the tag sits on its child. *)
Lemma RatedAt_rater root pos r :
  RatedAt root pos r →
  rates r ∧
  (subtree pos root = Some r ∨
   ∃ q, pos = q ++ [0] ∧ subtree q root = Some r ∧ matchType r = NOT).
Proof.
  induction 1 as [root Hr|root Hr Hnot|root i c pos n Hd Hc _ [IHr IH]].
  - split; [done|]. by left.
  - split; [done|]. right. by exists [].
  - split; [done|]. destruct IH as [IH|(q & -> & Hq & Hnot)].
    + left. simpl. by rewrite Hc.
    + right. exists (i :: q). simpl. by rewrite Hc.
Qed.
End TaggingFacts.

(** ** Induction on predicate trees *)

Lemma MatchExpression_tree_ind (P : MatchExpression → Prop) :
  (∀ mt p d t cs, Forall P cs → P (Node mt p d t cs)) → ∀ n, P n.
Proof.
  intros Hnode. fix IH 1. intros [mt p d t cs]. apply Hnode.
  induction cs as [|c cs IHcs]; constructor; [apply IH | apply IHcs].
Qed.

(** ** The collection of fields *)

Section Collection.
Context {IX : Indexability}.

Lemma getFields_unfold node prefix out :
  getFields node prefix out =
  if bool_decide (matchType node = NOR) then out
  else if nodeCanUseIndexOnOwnField node then {[ prefix +:+ path node ]} ∪ out
  else if arrayUsesIndexOnChildren node then
    foldl (fun out c => getFields c (childPrefix node prefix) out) out (children node)
  else if isLogical node then
    foldl (fun out c => getFields c prefix out) out (children node)
  else out.
Proof. by destruct node. Qed.

Lemma getFields_children prefix s cs :
  Forall (λ c, ∀ prefix out,
            s ∈ getFields c prefix out ↔ s ∈ out ∨ ∃ pos, CollectedAt c prefix pos s) cs →
  ∀ out,
    s ∈ foldl (fun out c => getFields c prefix out) out cs ↔
    s ∈ out ∨ ∃ i c pos, cs !! i = Some c ∧ CollectedAt c prefix pos s.
Proof.
  induction 1 as [|c cs Hc _ IH]; intros out; simpl.
  - split; [tauto|]. intros [?|(i & c & pos & ? & _)]; done.
  - rewrite IH, Hc. split.
    + intros [[?|[pos ?]]|(i & c' & pos & ? & ?)]; [tauto| |].
      * right. by exists 0, c, pos.
      * right. by exists (S i), c', pos.
    + intros [?|([|i] & c' & pos & Hi & ?)]; [tauto| |].
      * simplify_eq/=. eauto.
      * right. by exists i, c', pos.
Qed.

(** The set [getFields] returns: what it was given, and one path for
    each node it collects. *)
Lemma getFields_spec s node : ∀ prefix out,
  s ∈ getFields node prefix out ↔ s ∈ out ∨ ∃ pos, CollectedAt node prefix pos s.
Proof.
  induction node as [mt p d t cs IH] using MatchExpression_tree_ind.
  intros prefix out. rewrite getFields_unfold.
  change (children (Node mt p d t cs)) with cs.
  set (node := Node mt p d t cs).
  case_bool_decide as Hnor.
  { split; [tauto|]. intros [?|[pos Hc]]; [done|]. by inversion Hc. }
  destruct (nodeCanUseIndexOnOwnField node) eqn:Hown.
  { rewrite elem_of_union, elem_of_singleton. split.
    - intros [->|?]; [|tauto]. right. exists []. by constructor.
    - intros [?|[pos Hc]]; [tauto|]. inversion Hc; subst; [tauto|congruence..]. }
  destruct (arrayUsesIndexOnChildren node) eqn:Harr.
  { rewrite (getFields_children _ _ _ IH). split.
    - intros [?|(i & c & pos & Hi & Hc)]; [tauto|]. right. exists (i :: pos).
      by apply collected_array with c.
    - intros [?|[pos Hc]]; [tauto|]. inversion Hc; subst; [congruence| |congruence].
      right. eauto. }
  destruct (isLogical node) eqn:Hlog.
  { rewrite (getFields_children _ _ _ IH). split.
    - intros [?|(i & c & pos & Hi & Hc)]; [tauto|]. right. exists (i :: pos).
      by apply collected_logical with c.
    - intros [?|[pos Hc]]; [tauto|]. inversion Hc; subst; [congruence..|].
      right. eauto. }
  split; [tauto|]. intros [?|[pos Hc]]; [done|]. inversion Hc; subst; congruence.
Qed.

(** No node on the way to a collected node, that node included, is a
    NOR. *)
Lemma CollectedAt_no_nor root prefix pos s :
  CollectedAt root prefix pos s →
  ∀ q rest nor, pos = q ++ rest → subtree q root = Some nor → matchType nor ≠ NOR.
Proof.
  induction 1 as [root prefix Hnor Hown
                 |root prefix i c pos s Hnor Hown Harr Hc _ IH
                 |root prefix i c pos s Hnor Hown Harr Hlog Hc _ IH];
    intros q rest nor Hpos Hsub.
  - symmetry in Hpos. apply app_eq_nil in Hpos as [-> ->]. by simplify_eq/=.
  - destruct q as [|j q]; simpl in *; [by simplify_eq|].
    injection Hpos as <- ->. rewrite Hc in Hsub. eauto.
  - destruct q as [|j q]; simpl in *; [by simplify_eq|].
    injection Hpos as <- ->. rewrite Hc in Hsub. eauto.
Qed.
End Collection.

(** ** The removal of an index from a tag *)

Lemma eraseFirst_spec idx l : firstOccurrenceRemoved idx l (eraseFirst idx l).
Proof.
  induction l as [|j l IH]; simpl.
  - left. split; [apply not_elem_of_nil | done].
  - case_bool_decide as Hj.
    + subst j. right. exists [], l. split; [done|]. split; [apply not_elem_of_nil|done].
    + destruct IH as [[Hnot ->]|(l1 & l2 & -> & Hnot & ->)].
      * left. split; [|done]. rewrite not_elem_of_cons. split; [congruence|done].
      * right. exists (j :: l1), l2. split; [done|]. split; [|done].
        rewrite not_elem_of_cons. split; [congruence|done].
Qed.

Lemma firstOccurrenceRemoved_twice idx l l' l1 l2 l3 :
  firstOccurrenceRemoved idx l l' → l = l1 ++ idx :: l2 ++ idx :: l3 → idx ∈ l'.
Proof.
  intros [[Hnot _]|(k1 & k2 & Hl & Hnot & ->)] ->.
  - exfalso. apply Hnot. set_solver.
  - assert (idx ∈ k2); [|set_solver].
    revert l1 Hl Hnot. induction k1 as [|a k1 IH]; intros l1 Hl Hnot.
    + destruct l1 as [|b l1]; simplify_eq/=; set_solver.
    + destruct l1 as [|b l1]; simplify_eq/=.
      * exfalso. apply Hnot. set_solver.
      * apply (IH l1); [done|]. set_solver.
Qed.

(** ** The wrap test of 2d indexes *)

Lemma ltb_below (a b : float) : (a <? b)%float = true ↔ below a b.
Proof.
  rewrite ltb_spec. unfold SFltb, below.
  destruct (SFcompare (Prim2SF a) (Prim2SF b)) as [[]|]; naive_solver.
Qed.

Section Wrap.
Context {GL : GeoLibrary}.

Lemma optionValue_fieldWithDefault name def obj v :
  optionValue name def obj v ↔ v = fieldWithDefault obj name def.
Proof.
  unfold fieldWithDefault. split.
  - induction 1 as [|e rest d Hname Hval|e rest Hname Hnum|e rest v Hname _ IH]; simpl.
    + done.
    + rewrite (proj2 (String.eqb_eq _ _) Hname).
      unfold isNumber, numberDouble. by rewrite Hval.
    + rewrite (proj2 (String.eqb_eq _ _) Hname). by rewrite Hnum.
    + by rewrite (proj2 (String.eqb_neq _ _) Hname).
  - intros ->. induction obj as [|e rest IH]; simpl.
    + apply option_missing.
    + destruct (String.eqb_spec (fieldName e) name) as [Hname|Hname].
      * destruct (isNumber e) eqn:Hnum.
        -- apply option_number; [done|].
           unfold isNumber, numberDouble in *. by destruct (value e).
        -- by apply option_no_number.
      * by apply option_later.
Qed.

Lemma gridOf_twoDParameters index params :
  gridOf index params ↔ params = twoDParameters index.
Proof.
  unfold gridOf. split.
  - destruct params as [b mn mx sc]. simpl.
    intros ((d & Hd & ->) & Hmx & Hmn & ->).
    apply optionValue_fieldWithDefault in Hd, Hmx, Hmn. by subst.
  - intros ->. simpl. split; [|split; [|split]].
    + eexists. split; [by apply optionValue_fieldWithDefault|done].
    + by apply optionValue_fieldWithDefault.
    + by apply optionValue_fieldWithDefault.
    + done.
Qed.

Lemma scanBox_scandist circle index xdist ydist :
  scanBox circle index xdist ydist ↔
  xdist = xscandist circle index ∧ ydist = yscandist circle index.
Proof.
  unfold scanBox, xscandist, yscandist. split.
  - intros (params & Hgrid & -> & ->).
    apply gridOf_twoDParameters in Hgrid. by subst.
  - intros [-> ->]. exists (twoDParameters index).
    split; [by apply gridOf_twoDParameters | done].
Qed.

Lemma twoDWontWrap_strictlyInside circle index :
  twoDWontWrap circle index = true ↔ strictlyInside circle index.
Proof.
  unfold twoDWontWrap, strictlyInside.
  rewrite !andb_true_iff, !ltb_below.
  fold (yscandist circle index). fold (xscandist circle index). split.
  - intros Hin. exists (xscandist circle index), (yscandist circle index).
    split; [by apply scanBox_scandist | tauto].
  - intros (xdist & ydist & [-> ->]%scanBox_scandist & Hin). tauto.
Qed.

Lemma twoDWontWrap_touchesOrCrosses circle index :
  touchesOrCrosses circle index → twoDWontWrap circle index = false.
Proof.
  unfold touchesOrCrosses, twoDWontWrap.
  fold (yscandist circle index). fold (xscandist circle index).
  intros (xdist & ydist & [-> ->]%scanBox_scandist & [H|[H|[H|H]]]);
    apply ltb_false_of_leb in H; rewrite H; by rewrite ?andb_false_r.
Qed.

Lemma compatible_2d_near elt index node nq :
  indexedFieldType elt index = IndexNames.GEO_2D →
  matchType node = GEO_NEAR → payload node = GeoNearData nq →
  compatible elt index node = Ok (bool_decide (centroid_crs nq = FLAT)).
Proof. intros Hift Hmt Hd. unfold compatible. by rewrite Hift, Hmt, Hd. Qed.

Lemma compatible_2d_geo elt index node gq :
  indexedFieldType elt index = IndexNames.GEO_2D →
  matchType node = GEO → payload node = GeoData gq →
  compatible elt index node =
  if bool_decide (getPred gq ≠ WITHIN) then Ok false
  else if hasFlatRegion (getGeometry gq) then Ok true
  else match _cap (getGeometry gq) with
       | None => Ok false
       | Some cap =>
           do _ <- verify 276 (bool_decide (crs cap = SPHERE));
           Ok (twoDWontWrap (circle cap) index)
       end.
Proof. intros Hift Hmt Hd. unfold compatible. by rewrite Hift, Hmt, Hd. Qed.
End Wrap.

(** ** The enforcement of the text-index prefix rule *)

Lemma untagged_setTag n t : untagged (setTag n t) = untagged n.
Proof. by destruct n. Qed.

Lemma untagged_setChildren n cs cs' :
  map untagged cs' = map untagged cs →
  untagged (setChildren n cs') = untagged (setChildren n cs).
Proof. destruct n. simpl. by intros ->. Qed.

Lemma setChildren_children n : setChildren n (children n) = n.
Proof. by destruct n. Qed.

Lemma untagged_matchType n n' : untagged n' = untagged n → matchType n' = matchType n.
Proof. destruct n, n'. simpl. by intros [= ? _ _ _]. Qed.

Lemma untagged_path n n' : untagged n' = untagged n → path n' = path n.
Proof. destruct n, n'. simpl. by intros [= _ ? _ _]. Qed.

Lemma untagged_children_eq n n' :
  untagged n' = untagged n → map untagged (children n') = map untagged (children n).
Proof. destruct n, n'. simpl. by intros [= _ _ _ ?]. Qed.

Lemma elem_of_eraseFirst_ne i idx l : i ≠ idx → i ∈ eraseFirst idx l ↔ i ∈ l.
Proof.
  intros Hne. induction l as [|j l IH]; simpl; [done|].
  case_bool_decide; set_solver.
Qed.

Lemma elem_of_eraseFirst i idx l : i ∈ eraseFirst idx l → i ∈ l.
Proof.
  induction l as [|j l IH]; simpl; [done|]. case_bool_decide; set_solver.
Qed.

Lemma eraseFirst_NoDup idx l : NoDup l → NoDup (eraseFirst idx l) ∧ idx ∉ eraseFirst idx l.
Proof.
  induction 1 as [|j l Hj Hl [IH1 IH2]]; simpl.
  - split; [constructor | apply not_elem_of_nil].
  - case_bool_decide as Hji.
    + subst j. done.
    + split.
      * constructor; [|done]. intros Hin. by apply Hj, (elem_of_eraseFirst _ idx).
      * rewrite not_elem_of_cons. split; [congruence|done].
Qed.

Section Enforcement.
Context {IX : Indexability}.

Lemma nodeCanUse_untagged_eq n n' :
  untagged n' = untagged n →
  nodeCanUseIndexOnOwnField n' = nodeCanUseIndexOnOwnField n.
Proof.
  intros Heq. rewrite <- (nodeCanUseIndexOnOwnField_untagged n'),
    <- (nodeCanUseIndexOnOwnField_untagged n). by rewrite Heq.
Qed.

Lemma opaque_untagged_eq n n' : untagged n' = untagged n → opaque n' = opaque n.
Proof.
  intros Heq. unfold opaque.
  by rewrite (nodeCanUse_untagged_eq _ _ Heq), (untagged_matchType _ _ Heq).
Qed.

(** The first loop over the children of an AND. *)
Lemma andLoop_cons strip idx c cs hasText paths :
  andLoop strip idx (c :: cs) hasText paths =
  if carries idx c then
    do r <- (if bool_decide (matchType c = TEXT)
             then andLoop strip idx cs true paths
             else andLoop strip idx cs hasText (paths ∖ {[ path c ]}));
    Ok (c :: r.1.1, r.1.2, r.2)
  else
    do c' <- strip c;
    do r <- andLoop strip idx cs hasText paths;
    Ok (c' :: r.1.1, r.1.2, r.2).
Proof.
  simpl. unfold carries.
  destruct (getTag c) as [tag|]; [destruct (assigned idx tag)|]; done.
Qed.

Lemma andLoop_Ok strip idx cs : ∀ hasText paths cs' hasText' paths',
  andLoop strip idx cs hasText paths = Ok (cs', hasText', paths') →
  Forall2 (λ c c', if carries idx c then c' = c else strip c = Ok c') cs cs' ∧
  (hasText' = true ↔
   hasText = true ∨ ∃ c, c ∈ cs ∧ matchType c = TEXT ∧ carries idx c = true) ∧
  (∀ p, p ∈ paths' ↔
        p ∈ paths ∧
        ¬ ∃ c, c ∈ cs ∧ matchType c ≠ TEXT ∧ carries idx c = true ∧ path c = p).
Proof.
  induction cs as [|c cs IH]; intros hasText paths cs' hasText' paths'.
  - intros [= <- <- <-]. split; [constructor|]. set_solver.
  - rewrite andLoop_cons. destruct (carries idx c) eqn:Hc.
    + intros H. inv_bind H. destruct a as [[cs1 h1] p1]. simpl in H.
      injection H as <- <- <-. case_bool_decide as Htext.
      * apply IH in Ha as (Hcs & Hh & Hp).
        split; [constructor; [by rewrite Hc|done]|]. split.
        -- rewrite Hh. split; [|set_solver]. intros _. right. exists c.
           set_solver.
        -- intros p. rewrite Hp. set_solver.
      * apply IH in Ha as (Hcs & Hh & Hp).
        split; [constructor; [by rewrite Hc|done]|]. split.
        -- rewrite Hh. set_solver.
        -- intros p. rewrite Hp, elem_of_difference, elem_of_singleton.
           split.
           ++ intros [[? Hne] Hno]. split; [done|].
              intros (c' & [->|?]%elem_of_cons & ? & ? & ?); [congruence|].
              apply Hno. by exists c'.
           ++ intros [? Hno]. split; [split; [done|]|].
              ** intros ->. apply Hno. exists c. set_solver.
              ** intros (c' & ? & ?). apply Hno. exists c'. set_solver.
    + intros H. inv_bind H. destruct a0 as [[cs1 h1] p1]. simpl in H.
      injection H as <- <- <-. apply IH in Ha0 as (Hcs & Hh & Hp).
      split; [constructor; [by rewrite Hc|done]|]. split.
      * rewrite Hh. split; [set_solver|].
        intros [?|(c' & [->|?]%elem_of_cons & ? & ?)]; [tauto|congruence|].
        right. by exists c'.
      * intros p. rewrite Hp. split; intros [? Hno]; (split; [done|]).
        -- intros (c' & [->|?]%elem_of_cons & ? & ? & ?); [congruence|].
           apply Hno. by exists c'.
        -- intros (c' & ? & ?). apply Hno. exists c'. set_solver.
Qed.
End Enforcement.

Section EnforcementSteps.
Context {IX : Indexability}.

Lemma coversPrefix_dec idx node p :
  coversPrefix idx node p ∨ ¬ coversPrefix idx node p.
Proof.
  unfold coversPrefix.
  destruct (decide (Exists (λ c, matchType c ≠ TEXT ∧ carries idx c = true ∧ path c = p)
                      (children node))) as [Hex|Hno].
  - left. by apply Exists_exists in Hex.
  - right. intros Hex. apply Hno. by apply Exists_exists.
Qed.

(** The outcome of the first loop, started as the AND starts it, against
    the prerequisites of the index. *)
Lemma andLoop_satisfied strip idx prefixPaths node cs hasText paths :
  andLoop strip idx (children node) false prefixPaths = Ok (cs, hasText, paths) →
  negb hasText || negb (bool_decide (paths = ∅)) = false ↔
  satisfied idx prefixPaths node.
Proof.
  intros (_ & Hh & Hp)%andLoop_Ok. unfold satisfied, hasTextChild.
  rewrite orb_false_iff, !negb_false_iff, bool_decide_eq_true, Hh.
  split.
  - intros [[?|?] ->]; [done|]. split; [done|]. intros p Hin.
    destruct (coversPrefix_dec idx node p) as [?|Hno]; [done|].
    exfalso. apply (not_elem_of_empty (C:=gset string) p), Hp. done.
  - intros [? Hcov]. split; [by right|]. apply set_eq. intros p.
    rewrite Hp. split; [|set_solver]. intros [Hin Hno]. destruct Hno.
    by apply Hcov.
Qed.

(** One call of [stripBounded] that returns. *)
Lemma stripBounded_Ok d node idx prefixPaths node' :
  stripBounded (S d) node idx prefixPaths = Ok node' →
  (nodeCanUseIndexOnOwnField node = true ∧
   removeIndexRelevantTag node idx = Ok node') ∨
  (nodeCanUseIndexOnOwnField node = false ∧ opaque node = true ∧ node' = node) ∨
  (opaque node = false ∧ matchType node ≠ AND ∧
   ∃ cs,
     Forall2 (λ c c', stripBounded d c idx prefixPaths = Ok c') (children node) cs ∧
     node' = setChildren node cs) ∨
  (opaque node = false ∧ matchType node = AND ∧
   ∃ cs1,
     Forall2 (λ c c', if carries idx c then c' = c
                      else stripBounded d c idx prefixPaths = Ok c')
             (children node) cs1 ∧
     ((satisfied idx prefixPaths node ∧ node' = setChildren node cs1) ∨
      (¬ satisfied idx prefixPaths node ∧
       ∃ cs2,
         Forall2 (λ c c', stripBounded d c idx prefixPaths = Ok c') cs1 cs2 ∧
         node' = setChildren node cs2))).
Proof.
  simpl. unfold opaque. intros H.
  destruct (nodeCanUseIndexOnOwnField node) eqn:Hown; [by left|].
  right. simpl in *. destruct (bool_decide (matchType node = NOT)
                               || bool_decide (matchType node = NOR)) eqn:Hneg.
  { injection H as <-. by left. }
  right. case_bool_decide as Hand.
  { inv_bind H. injection H as <-. apply forEach_Ok in Ha.
    left. split; [done|]. split; [done|]. by exists a. }
  right. split; [done|]. split; [done|].
  inv_bind H. destruct a as [[cs1 hasText] paths].
  pose proof (andLoop_satisfied _ _ _ _ _ _ _ Ha) as Hsat.
  apply andLoop_Ok in Ha as (Hcs & _). exists cs1. split; [done|].
  destruct (negb hasText || negb (bool_decide (paths = ∅))).
  - right. inv_bind H. injection H as <-. apply forEach_Ok in Ha.
    split; [|by exists a]. intros ?%Hsat. done.
  - left. injection H as <-. split; [|done]. by apply Hsat.
Qed.
End EnforcementSteps.

Lemma Forall2_map_eq {A B : Type} (f : A → B) (l k : list A) :
  Forall2 (λ x y, f y = f x) l k → map f k = map f l.
Proof. induction 1; simpl; congruence. Qed.

Lemma Forall2_compose {A : Type} (R1 R2 R : A → A → Prop) (l k m : list A) :
  (∀ x y z, R1 x y → R2 y z → R x z) →
  Forall2 R1 l k → Forall2 R2 k m → Forall2 R l m.
Proof.
  intros Hcomp H1. revert m. induction H1; intros m H2; inversion H2; subst;
    constructor; eauto.
Qed.

Lemma Forall2_transfer {A : Type} (R : A → A → Prop) (P Q : A → Prop) (l k : list A) :
  Forall2 R l k → Forall P l → (∀ x y, R x y → P x → Q y) → Forall Q k.
Proof.
  intros HR HP Himp. induction HR; inversion HP; subst; constructor; eauto.
Qed.

Lemma tagsOnce_children n : tagsOnce n = true → Forall (λ c, tagsOnce c = true) (children n).
Proof.
  destruct n as [mt p d t cs]. simpl. intros [_ Hcs]%andb_true_iff.
  apply Forall_forall. intros c Hc. rewrite forallb_forall in Hcs.
  by apply Hcs, list_elem_of_In.
Qed.

Lemma tagsOnce_setChildren n cs :
  tagsOnce n = true → Forall (λ c, tagsOnce c = true) cs →
  tagsOnce (setChildren n cs) = true.
Proof.
  destruct n as [mt p d t cs0]. simpl. intros [-> _]%andb_true_iff Hcs. simpl.
  apply forallb_forall. intros c Hc. rewrite Forall_forall in Hcs.
  by apply Hcs, list_elem_of_In.
Qed.

Section EnforcementInvariant.
Context {IX : Indexability}.

Lemma removeIndexRelevantTag_Ok node idx node' :
  removeIndexRelevantTag node idx = Ok node' →
  ∃ tag, getTag node = Some tag ∧
         node' = setTag node (Some (mkTag (tag_path tag)
                                       (eraseFirst idx (first tag))
                                       (eraseFirst idx (notFirst tag)))).
Proof.
  unfold removeIndexRelevantTag. destruct (getTag node) as [tag|]; [|done].
  intros [= <-]. by exists tag.
Qed.

(** The pass rewrites tags only. *)
Lemma stripBounded_untagged idx prefixPaths d : ∀ node node',
  stripBounded d node idx prefixPaths = Ok node' → untagged node' = untagged node.
Proof.
  induction d as [|d IH]; intros node node' H; [done|].
  assert (∀ cs cs',
            Forall2 (λ c c', stripBounded d c idx prefixPaths = Ok c') cs cs' →
            Forall2 (λ c c', untagged c' = untagged c) cs cs') as Hall.
  { intros cs cs' Hcs. eapply Forall2_impl; [exact Hcs|]. simpl. eauto. }
  apply stripBounded_Ok in H
    as [[_ H]|[(_ & _ & ->)|[(_ & _ & cs & Hcs & ->)|(_ & _ & cs1 & Hcs1 & H)]]].
  - apply removeIndexRelevantTag_Ok in H as (tag & _ & ->). apply untagged_setTag.
  - done.
  - transitivity (untagged (setChildren node (children node)));
      [|by rewrite setChildren_children].
    apply untagged_setChildren, Forall2_map_eq. eauto.
  - assert (Forall2 (λ c c', untagged c' = untagged c) (children node) cs1) as Hcs1'.
    { eapply Forall2_impl; [done|]. intros c c' Hc. simpl in Hc.
      destruct (carries idx c); [by subst|eauto]. }
    transitivity (untagged (setChildren node (children node)));
      [|by rewrite setChildren_children].
    destruct H as [[_ ->]|(_ & cs2 & Hcs2 & ->)].
    + by apply untagged_setChildren, Forall2_map_eq.
    + apply untagged_setChildren, Forall2_map_eq.
      eapply Forall2_compose; [|exact Hcs1'|apply Hall, Hcs2].
      simpl. congruence.
Qed.

(** What the pass for [idx] does to the tag of the node it is called
    on: nothing, or the removal of [idx]. *)
Lemma stripBounded_getTag idx prefixPaths d node node' :
  stripBounded d node idx prefixPaths = Ok node' →
  getTag node' = getTag node ∨
  ∃ tag, getTag node = Some tag ∧
         getTag node' = Some (mkTag (tag_path tag) (eraseFirst idx (first tag))
                                (eraseFirst idx (notFirst tag))).
Proof.
  destruct d as [|d]; [done|]. intros H.
  apply stripBounded_Ok in H
    as [[_ H]|[(_ & _ & ->)|[(_ & _ & cs & Hcs & ->)|(_ & _ & cs1 & Hcs1 & H)]]].
  - apply removeIndexRelevantTag_Ok in H as (tag & ? & ->). right. exists tag.
    by node_simpl.
  - by left.
  - left. by node_simpl.
  - left. destruct H as [[_ ->]|(_ & cs2 & Hcs2 & ->)]; by node_simpl.
Qed.

Lemma stripBounded_carries idx prefixPaths d node node' :
  stripBounded d node idx prefixPaths = Ok node' →
  carries idx node = false → carries idx node' = false.
Proof.
  intros [Heq|(tag & Ht & Ht')]%stripBounded_getTag; unfold carries.
  - by rewrite Heq.
  - rewrite Ht, Ht'. unfold assigned. simpl.
    rewrite !orb_false_iff, !bool_decide_eq_false.
    intros [? ?]. split; intros ?%elem_of_eraseFirst; done.
Qed.

Lemma stripBounded_carries_other idx i prefixPaths d node node' :
  i ≠ idx → stripBounded d node idx prefixPaths = Ok node' →
  carries i node' = carries i node.
Proof.
  intros Hne [Heq|(tag & Ht & Ht')]%stripBounded_getTag; unfold carries.
  - by rewrite Heq.
  - rewrite Ht, Ht'. unfold assigned. simpl.
    f_equal; apply bool_decide_ext, elem_of_eraseFirst_ne; done.
Qed.

Lemma stripBounded_tagsOnce idx prefixPaths d : ∀ node node',
  stripBounded d node idx prefixPaths = Ok node' →
  tagsOnce node = true → tagsOnce node' = true.
Proof.
  induction d as [|d IH]; intros node node' H Honce; [done|].
  pose proof (tagsOnce_children _ Honce) as Hchildren.
  apply stripBounded_Ok in H
    as [[_ H]|[(_ & _ & ->)|[(_ & _ & cs & Hcs & ->)|(_ & _ & cs1 & Hcs1 & H)]]].
  - apply removeIndexRelevantTag_Ok in H as (tag & Ht & ->).
    destruct node as [mt p dd t cs]. simpl in *. subst t.
    apply andb_true_iff in Honce as [[H1 H2]%andb_true_iff ->].
    apply bool_decide_eq_true in H1, H2.
    rewrite !bool_decide_eq_true_2; [done|by apply eraseFirst_NoDup..].
  - done.
  - apply tagsOnce_setChildren; [done|].
    eapply Forall2_transfer; [exact Hcs|exact Hchildren|]. simpl. eauto.
  - assert (Forall (λ c, tagsOnce c = true) cs1) as Hcs1'.
    { eapply Forall2_transfer; [exact Hcs1|exact Hchildren|]. simpl.
      intros c c' Hc ?. destruct (carries idx c); [by subst|eauto]. }
    destruct H as [[_ ->]|(_ & cs2 & Hcs2 & ->)].
    + by apply tagsOnce_setChildren.
    + apply tagsOnce_setChildren; [done|].
      eapply Forall2_transfer; [exact Hcs2|exact Hcs1'|]. simpl. eauto.
Qed.
End EnforcementInvariant.

Section EnforcementResult.
Context {IX : Indexability}.

Lemma alike_refl idx n : alike idx n n.
Proof. done. Qed.

Lemma alike_trans idx n1 n2 n3 : alike idx n1 n2 → alike idx n2 n3 → alike idx n1 n3.
Proof. intros [? ?] [? ?]. split; congruence. Qed.

Lemma alike_entered idx n n' : alike idx n n' → entered idx n' = entered idx n.
Proof.
  intros [Hun Hc]. unfold entered. by rewrite (opaque_untagged_eq _ _ Hun), Hc.
Qed.

Lemma satisfied_alike idx prefixPaths node node' :
  matchType node' = matchType node →
  Forall2 (alike idx) (children node) (children node') →
  satisfied idx prefixPaths node → satisfied idx prefixPaths node'.
Proof.
  intros _ Hcs [(c & Hc & Hmt & Hcar) Hcov].
  assert (∀ c, c ∈ children node →
               ∃ c', c' ∈ children node' ∧ matchType c' = matchType c ∧
                     path c' = path c ∧ carries idx c' = carries idx c) as Hlook.
  { intros c0 [i Hi]%list_elem_of_lookup.
    destruct (Forall2_lookup_l _ _ _ _ _ Hcs Hi) as (c' & Hi' & Hun & ?).
    exists c'. split; [by eapply list_elem_of_lookup_2|].
    split; [by apply untagged_matchType|]. split; [by apply untagged_path|done]. }
  split.
  - destruct (Hlook c Hc) as (c' & ? & ? & ? & ?). exists c'.
    split; [done|]. split; congruence.
  - intros p Hp. destruct (Hcov p Hp) as (c0 & Hc0 & ? & ? & ?).
    destruct (Hlook c0 Hc0) as (c' & ? & ? & ? & ?). exists c'.
    split; [done|]. repeat split; congruence.
Qed.

(** The state the pass for [idx] leaves behind. *)
Lemma stripBounded_Enforced idx prefixPaths d : ∀ node node',
  stripBounded d node idx prefixPaths = Ok node' → tagsOnce node = true →
  Enforced idx prefixPaths node' ∧
  (nodeCanUseIndexOnOwnField node' = true → carries idx node' = false).
Proof.
  induction d as [|d IH]; intros node node' H Honce; [done|].
  pose proof (stripBounded_untagged _ _ _ _ _ H) as Hun.
  pose proof (tagsOnce_children _ Honce) as Hchildren.
  assert (∀ cs cs',
            Forall2 (λ c c', stripBounded d c idx prefixPaths = Ok c') cs cs' →
            Forall (λ c, tagsOnce c = true) cs →
            Forall (λ c', Enforced idx prefixPaths c' ∧
                          (nodeCanUseIndexOnOwnField c' = true →
                           carries idx c' = false)) cs') as Hall.
  { intros cs cs' Hcs Hon. eapply Forall2_transfer; [exact Hcs|exact Hon|].
    simpl. eauto. }
  apply stripBounded_Ok in H
    as [[Hown H]|[(Hown & Hop & ->)|[(Hop & Hmt & cs & Hcs & ->)
                                     |(Hop & Hmt & cs1 & Hcs1 & H)]]].
  - apply removeIndexRelevantTag_Ok in H as (tag & Ht & ->). split.
    + apply enforced_opaque. rewrite (opaque_untagged_eq node); [|done].
      unfold opaque. by rewrite Hown.
    + intros _. unfold carries, assigned. node_simpl. simpl.
      destruct node as [mt p dd t cs]. simpl in *. subst t.
      apply andb_true_iff in Honce as [[H1 H2]%andb_true_iff _].
      apply bool_decide_eq_true in H1, H2.
      apply eraseFirst_NoDup with (idx:=idx) in H1 as [_ H1], H2 as [_ H2].
      by rewrite !bool_decide_eq_false_2.
  - split; [by apply enforced_opaque|congruence].
  - split.
    + apply enforced_inspected; [by rewrite (opaque_untagged_eq _ _ Hun)|].
      node_simpl. eapply Forall_impl; [by apply (Hall (children node))|].
      simpl. intros c' [? Hclean]. split; [|done]. intros ?%Hclean. congruence.
    + rewrite (nodeCanUse_untagged_eq _ _ Hun). unfold opaque in Hop.
      destruct (nodeCanUseIndexOnOwnField node); done.
  - assert (Forall (λ c, tagsOnce c = true) cs1) as Hcs1once.
    { eapply Forall2_transfer; [exact Hcs1|exact Hchildren|]. simpl.
      intros c c' Hc ?. destruct (carries idx c); [by subst|].
      by eapply stripBounded_tagsOnce. }
    assert (nodeCanUseIndexOnOwnField node' = true → carries idx node' = false)
      as Hroot.
    { rewrite (nodeCanUse_untagged_eq _ _ Hun). unfold opaque in Hop.
      destruct (nodeCanUseIndexOnOwnField node); done. }
    split; [|done].
    apply enforced_inspected; [by rewrite (opaque_untagged_eq _ _ Hun)|].
    destruct H as [[Hsat ->]|(_ & cs2 & Hcs2 & ->)]; node_simpl.
    + assert (satisfied idx prefixPaths (setChildren node cs1)) as Hsat'.
      { apply (satisfied_alike _ _ node); [by node_simpl| |done]. node_simpl.
        eapply Forall2_impl; [exact Hcs1|]. simpl. intros c c' Hc.
        destruct (carries idx c) eqn:Hcar; [by subst|].
        split; [by eapply stripBounded_untagged|].
        rewrite Hcar. by eapply stripBounded_carries. }
      apply Forall_forall. intros c' [i Hi]%list_elem_of_lookup.
      destruct (Forall2_lookup_r _ _ _ _ _ Hcs1 Hi) as (c & Hc & Hrel).
      assert (tagsOnce c = true) as Hconce.
      { rewrite Forall_forall in Hchildren. apply Hchildren.
        by eapply list_elem_of_lookup_2. }
      destruct (carries idx c) eqn:Hcar.
      * subst c'. split; [by node_simpl|].
        unfold entered. rewrite Hcar. by rewrite andb_false_r.
      * destruct (IH _ _ Hrel Hconce) as [? Hclean]. split; [|done].
        intros ?%Hclean. congruence.
    + eapply Forall_impl; [by apply (Hall cs1)|].
      simpl. intros c' [? Hclean]. split; [|done]. intros ?%Hclean. congruence.
Qed.

(** [Enforced], read position by position. *)
Lemma Enforced_at idx prefixPaths pos : ∀ root node l,
  Enforced idx prefixPaths root →
  enteredAlong idx root pos = true → subtree pos root = Some node →
  l ∈ children node →
  nodeCanUseIndexOnOwnField l = true → carries idx l = true →
  matchType node = AND ∧ satisfied idx prefixPaths node.
Proof.
  induction pos as [|i pos IH]; intros root node l Henf Halong Hsub Hl Hown Hcar;
    simpl in *; apply andb_true_iff in Halong as [Hent Halong].
  - injection Hsub as <-. inversion Henf as [? Hop|? Hop Hcs]; subst.
    + unfold entered in Hent. by rewrite Hop in Hent.
    + rewrite Forall_forall in Hcs. by apply (Hcs l Hl).
  - destruct (children root !! i) as [c|] eqn:Hc; [|done].
    inversion Henf as [? Hop|? Hop Hcs]; subst.
    + unfold entered in Hent. by rewrite Hop in Hent.
    + rewrite Forall_forall in Hcs.
      destruct (Hcs c (list_elem_of_lookup_2 _ _ _ Hc)) as [_ Hsubenf].
      apply (IH c node l); try done. apply Hsubenf.
      destruct pos; simpl in Halong; by apply andb_true_iff in Halong as [? _].
Qed.
End EnforcementResult.

Section EnforcementOfOtherIndexes.
Context {IX : Indexability}.

Lemma Enforced_alike idx prefixPaths node node' :
  untagged node' = untagged node →
  Forall2 (λ c c', alike idx c c' ∧
                   (Enforced idx prefixPaths c → Enforced idx prefixPaths c'))
          (children node) (children node') →
  Enforced idx prefixPaths node → Enforced idx prefixPaths node'.
Proof.
  intros Hun Hcs Henf. inversion Henf as [? Hop|? Hop Hall]; subst.
  { apply enforced_opaque. by rewrite (opaque_untagged_eq _ _ Hun). }
  apply enforced_inspected; [by rewrite (opaque_untagged_eq _ _ Hun)|].
  assert (satisfied idx prefixPaths node → satisfied idx prefixPaths node') as Hsat.
  { apply satisfied_alike; [by apply untagged_matchType|].
    eapply Forall2_impl; [exact Hcs|]. by intros c c' [? _]. }
  eapply Forall2_transfer; [exact Hcs|exact Hall|]. simpl.
  intros c c' [[Hcun Hcar] Hcenf] [Hleaf Hsub]. split.
  - rewrite (nodeCanUse_untagged_eq _ _ Hcun), Hcar. intros Hown Hcarries.
    destruct (Hleaf Hown Hcarries) as [Hand ?]. split; [|by apply Hsat].
    by rewrite (untagged_matchType _ _ Hun).
  - rewrite (alike_entered idx c c'); [|done]. eauto.
Qed.

(** The pass for another index leaves the state for [idx] as it is. *)
Lemma stripBounded_other idx prefixPaths i paths d : ∀ node node',
  i ≠ idx → stripBounded d node i paths = Ok node' →
  alike idx node node' ∧
  (Enforced idx prefixPaths node → Enforced idx prefixPaths node').
Proof.
  induction d as [|d IH]; intros node node' Hne H; [done|].
  pose proof (stripBounded_untagged _ _ _ _ _ H) as Hun.
  split; [split; [done|by eapply stripBounded_carries_other]|].
  apply Enforced_alike; [done|].
  apply stripBounded_Ok in H
    as [[_ H]|[(_ & _ & ->)|[(_ & _ & cs & Hcs & ->)|(_ & _ & cs1 & Hcs1 & H)]]].
  - apply removeIndexRelevantTag_Ok in H as (tag & _ & ->). node_simpl.
    apply Forall2_same_length_lookup_2; [done|]. intros j c c' Hc Hc'.
    by assert (c' = c) as -> by congruence.
  - apply Forall2_same_length_lookup_2; [done|]. intros j c c' Hc Hc'.
    by assert (c' = c) as -> by congruence.
  - node_simpl. eapply Forall2_impl; [exact Hcs|]. simpl. eauto.
  - assert (Forall2 (λ c c', alike idx c c' ∧
                             (Enforced idx prefixPaths c → Enforced idx prefixPaths c'))
              (children node) cs1) as Hcs1'.
    { eapply Forall2_impl; [exact Hcs1|]. simpl. intros c c' Hc.
      destruct (carries i c); [by subst|eauto]. }
    destruct H as [[_ ->]|(_ & cs2 & Hcs2 & ->)]; node_simpl; [done|].
    eapply Forall2_compose; [|exact Hcs1'|].
    2: { eapply Forall2_impl; [exact Hcs2|]. simpl. intros c c' Hc.
         exact (IH _ _ Hne Hc). }
    simpl. intros c1 c2 c3 [? ?] [? ?]. split; [by eapply alike_trans|eauto].
Qed.

Lemma stripInvalidAssignmentsToTextIndex_other idx prefixPaths i paths node node' :
  i ≠ idx → stripInvalidAssignmentsToTextIndex node i paths = Ok node' →
  alike idx node node' ∧
  (Enforced idx prefixPaths node → Enforced idx prefixPaths node').
Proof. apply stripBounded_other. Qed.

(** The driver from index [i] on: the indexes before [i] keep their
    state. *)
Lemma stripFrom_other idx prefixPaths indices : ∀ i node node',
  idx < i → stripFrom i indices node = Ok node' →
  tagsOnce node = true →
  tagsOnce node' = true ∧ alike idx node node' ∧
  (Enforced idx prefixPaths node → Enforced idx prefixPaths node').
Proof.
  induction indices as [|index rest IH]; intros i node node' Hlt H Honce; simpl in H.
  - injection H as <-. done.
  - case_bool_decide as Htext; [apply (IH (S i)); [lia|done..]|].
    inv_bind H. case_bool_decide as Hpaths.
    + destruct (stripInvalidAssignmentsToTextIndex_other idx prefixPaths i a node a0)
        as [Halike Henf]; [lia|done|].
      assert (tagsOnce a0 = true) as Honce' by by eapply stripBounded_tagsOnce.
      destruct (IH (S i) a0 node') as (? & ? & ?); [lia|done..|].
      split; [done|]. split; [by eapply alike_trans|eauto].
    + injection Ha0 as <-. apply (IH (S i)); [lia|done..].
Qed.

Lemma stripFrom_Enforced indices : ∀ i node node' k index prefixPaths,
  stripFrom i indices node = Ok node' → tagsOnce node = true →
  indices !! k = Some index → type index = INDEX_TEXT →
  textIndexPrefixPaths index = Ok prefixPaths → prefixPaths ≠ ∅ →
  Enforced (i + k) prefixPaths node' ∧
  (nodeCanUseIndexOnOwnField node' = true → carries (i + k) node' = false).
Proof.
  induction indices as [|index0 rest IH];
    intros i node node' k index prefixPaths H Honce Hk Htext Hpaths Hne; [done|].
  simpl in H. destruct k as [|k]; simpl in Hk.
  - injection Hk as ->. rewrite bool_decide_eq_false_2 in H by by intros [].
    rewrite Hpaths in H. simpl in H. rewrite bool_decide_eq_true_2 in H by done.
    inv_bind H. replace (i + 0) with i by lia.
    destruct (stripBounded_Enforced _ _ _ _ _ Ha Honce) as [Henf Hclean].
    assert (tagsOnce a = true) as Honce' by by eapply stripBounded_tagsOnce.
    destruct (stripFrom_other i prefixPaths rest (S i) a node')
      as (_ & [Hun Hcar] & Hkeep); [lia|done..|].
    split; [by apply Hkeep|].
    rewrite (nodeCanUse_untagged_eq _ _ Hun), Hcar. done.
  - replace (i + S k) with (S i + k) by lia.
    case_bool_decide as Htext0; [by apply (IH (S i) node node' k index)|].
    inv_bind H. apply (IH (S i) a0 node' k index); try done.
    case_bool_decide; [by eapply stripBounded_tagsOnce|by injection Ha0 as <-].
Qed.
End EnforcementOfOtherIndexes.

(** ** The assertions of the enforcement *)

Lemma bind_Abort {A B : Type} (m : Result A) (k : A → Result B) (f : Fatal) :
  bind m k = Abort f ↔ m = Abort f ∨ ∃ a, m = Ok a ∧ k a = Abort f.
Proof. destruct m as [a|f']; simpl; naive_solver. Qed.

Lemma forEach_Abort {A : Type} (f : A → Result A) (l : list A) (e : Fatal) :
  forEach f l = Abort e → ∃ a, a ∈ l ∧ f a = Abort e.
Proof.
  induction l as [|a l IH]; simpl; [done|].
  intros [Ha|(b & Hb & [Hl|(bs & _ & ?)]%bind_Abort)]%bind_Abort; [| |done].
  - exists a. split; [left|done].
  - destruct (IH Hl) as (a' & ? & ?). exists a'. split; [by right|done].
Qed.

Lemma height_children n c : c ∈ children n → (height c < height n)%nat.
Proof.
  destruct n as [mt p d t cs]. simpl. intros Hc.
  assert (height c ≤ max_list (map height cs))%nat; [|lia].
  apply max_list_elem_of_le, list_elem_of_In, in_map, list_elem_of_In, Hc.
Qed.

Lemma height_untagged n : height (untagged n) = height n.
Proof.
  induction n as [mt p d t cs IH] using MatchExpression_tree_ind. simpl.
  f_equal. f_equal. rewrite map_map. induction IH; simpl; congruence.
Qed.

Section EnforcementAssertions.
Context {IX : Indexability}.

Lemma andLoop_Abort strip idx cs : ∀ hasText paths e,
  andLoop strip idx cs hasText paths = Abort e → ∃ c, c ∈ cs ∧ strip c = Abort e.
Proof.
  induction cs as [|c cs IH]; intros hasText paths e; [done|].
  rewrite andLoop_cons. destruct (carries idx c).
  - intros [H|(r & _ & ?)]%bind_Abort; [|done].
    case_bool_decide; apply IH in H as (c' & ? & ?); exists c'; set_solver.
  - intros [H|(c1 & _ & [H|(r & _ & ?)]%bind_Abort)]%bind_Abort; [| |done].
    + exists c. set_solver.
    + apply IH in H as (c' & ? & ?). exists c'. set_solver.
Qed.

(** The bound on the depth is never what stops the pass: with the height
    of the tree as the bound, the only assertion that can fail is the
    one of [removeIndexRelevantTag]. *)
Lemma strip_depth_suffices idx prefixPaths d : ∀ node e,
  (height node ≤ d)%nat → stripBounded d node idx prefixPaths = Abort e →
  e = verify_failed 367.
Proof.
  induction d as [|d IH]; intros node e Hh.
  { destruct node. simpl in Hh. lia. }
  assert (∀ c, c ∈ children node → (height c ≤ d)%nat) as Hc.
  { intros c ?%height_children. lia. }
  simpl. destruct (nodeCanUseIndexOnOwnField node).
  { unfold removeIndexRelevantTag. destruct (getTag node); [done|]. by intros [= <-]. }
  destruct (bool_decide (matchType node = NOT) || bool_decide (matchType node = NOR));
    [done|]. simpl.
  case_bool_decide as Hand.
  { intros [H|(cs & _ & ?)]%bind_Abort; [|done].
    apply forEach_Abort in H as (c & ? & ?). eauto. }
  intros [H|([[cs1 hasText] paths] & Hloop & H)]%bind_Abort.
  { apply andLoop_Abort in H as (c & ? & ?). eauto. }
  destruct (negb hasText || negb (bool_decide (paths = ∅))); [|done].
  apply bind_Abort in H as [H|(cs & _ & ?)]; [|done].
  apply forEach_Abort in H as (c1 & [j Hj]%list_elem_of_lookup & Habort).
  apply andLoop_Ok in Hloop as (Hcs1 & _).
  destruct (Forall2_lookup_r _ _ _ _ _ Hcs1 Hj) as (c & Hcj & Hrel).
  apply (IH c1); [|done].
  assert (height c1 = height c) as ->; [|by eapply Hc, list_elem_of_lookup_2].
  destruct (carries idx c); [by subst|].
  apply stripBounded_untagged in Hrel.
  by rewrite <- (height_untagged c1), Hrel, height_untagged.
Qed.

Lemma gatherPrefix_Abort it : ∀ elt paths e,
  gatherPrefix elt it paths = Abort e → e = verify_failed 499.
Proof.
  induction it as [|elt' it IH]; intros elt paths e; simpl;
    destruct (isString elt); try done; [by intros [= <-]|eauto].
Qed.



End EnforcementAssertions.

Section PrefixPaths.
Context {IX : Indexability}.

(** The prefix paths of a text index: the names of the key elements
    before the first string element. *)
Lemma gatherPrefix_Ok it : ∀ elt paths result,
  gatherPrefix elt it paths = Ok result →
  ∃ before sentinel after,
    elt :: it = before ++ sentinel :: after ∧ isString sentinel = true ∧
    Forall (λ e, isString e = false) before ∧
    ∀ p, p ∈ result ↔ p ∈ paths ∨ ∃ e, e ∈ before ∧ fieldName e = p.
Proof.
  induction it as [|elt' it IH]; intros elt paths result; simpl;
    destruct (isString elt) eqn:Hs; try done.
  - intros [= <-]. exists [], elt, []. set_solver.
  - intros [= <-]. exists [], elt, (elt' :: it). set_solver.
  - intros (before & s & after & Heq & Hstr & Hall & Hres)%IH.
    exists (elt :: before), s, after. rewrite Heq. split; [done|].
    split; [done|]. split; [by constructor|].
    intros p. rewrite Hres. set_solver.
Qed.

Lemma textIndexPrefixPaths_Ok index prefixPaths :
  textIndexPrefixPaths index = Ok prefixPaths →
  ∃ before sentinel after,
    keyPattern index = before ++ sentinel :: after ∧ isString sentinel = true ∧
    Forall (λ e, isString e = false) before ∧
    ∀ p, p ∈ prefixPaths ↔ ∃ e, e ∈ before ∧ fieldName e = p.
Proof.
  unfold textIndexPrefixPaths. destruct (keyPattern index) as [|elt it]; [done|].
  intros (before & s & after & ? & ? & ? & Hres)%gatherPrefix_Ok.
  exists before, s, after. repeat split; try done; rewrite Hres; set_solver.
Qed.
End PrefixPaths.

(** ** Tags as heap objects *)

Section HeapTagging.
Context {IX : Indexability} {GL : GeoLibrary}.

Lemma heap_rateIndices_unfold node prefix indices h :
  TagHeap.rateIndices node prefix indices h =
  if bool_decide (TagHeap.matchType node = NOR) then Ok (node, h)
  else if isBoundsGenerating (TagHeap.view h node) then
    do fullPath <-
      (if bool_decide (TagHeap.matchType node = NOT) then
         match TagHeap.getChild node 0 with
         | Some child => Ok (prefix +:+ TagHeap.path child)
         | None => Abort undefined
         end
       else Ok (prefix +:+ TagHeap.path node));
    do _ <- verify 318 (bool_decide (TagHeap.getTag node = None));
    let '(rt, h) := TagHeap.alloc h (mkTag fullPath [] []) in
    let node := TagHeap.setTag node (Some rt) in
    do tag <- rateAll fullPath (TagHeap.view h node) 0 indices (mkTag fullPath [] []);
    let h := <[rt := tag]> h in
    if bool_decide (TagHeap.matchType node = NOT) then
      match TagHeap.children node with
      | child :: others =>
          do r <- TagHeap.clone h rt;
          let '(childRt, h) := r in
          do h <- TagHeap.copyPath h rt childRt;
          Ok (TagHeap.setChildren node (TagHeap.setTag child (Some childRt) :: others), h)
      | [] => Abort undefined
      end
    else Ok (node, h)
  else if arrayUsesIndexOnChildren (TagHeap.view h node) then
    let prefix := if String.eqb (TagHeap.path node) "" then prefix
                  else prefix +:+ TagHeap.path node +:+ "." in
    do r <- TagHeap.forEach (fun c h => TagHeap.rateIndices c prefix indices h)
              (TagHeap.children node) h;
    Ok (TagHeap.setChildren node r.1, r.2)
  else if isLogical (TagHeap.view h node) then
    do r <- TagHeap.forEach (fun c h => TagHeap.rateIndices c prefix indices h)
              (TagHeap.children node) h;
    Ok (TagHeap.setChildren node r.1, r.2)
  else Ok (node, h).
Proof. by destruct node. Qed.

(** The objects a rated node leaves on the heap: its tag, and the copy
    for the child of a NOT. *)
Lemma heap_rateIndices_rated node prefix indices (h : list RelevantTag) node' h' :
  TagHeap.matchType node ≠ NOR → isBoundsGenerating (TagHeap.view h node) = true →
  TagHeap.rateIndices node prefix indices h = Ok (node', h') →
  ∃ fullPath tag,
    (if bool_decide (TagHeap.matchType node = NOT) then
       match TagHeap.getChild node 0 with
       | Some child => Ok (prefix +:+ TagHeap.path child)
       | None => Abort undefined
       end
     else Ok (prefix +:+ TagHeap.path node)) = Ok fullPath ∧
    TagHeap.getTag node = None ∧
    rateAll fullPath
      (TagHeap.view (h ++ [mkTag fullPath [] []])
         (TagHeap.setTag node (Some (length h))))
      0 indices (mkTag fullPath [] []) = Ok tag ∧
    if bool_decide (TagHeap.matchType node = NOT) then
      ∃ child others,
        TagHeap.children node = child :: others ∧
        node' = TagHeap.setChildren (TagHeap.setTag node (Some (length h)))
                  (TagHeap.setTag child (Some (S (length h))) :: others) ∧
        h' = h ++ [tag; tag]
    else node' = TagHeap.setTag node (Some (length h)) ∧ h' = h ++ [tag].
Proof.
  intros Hnor Hbg. rewrite heap_rateIndices_unfold, Hbg.
  rewrite bool_decide_eq_false_2 by done.
  intros H. inv_bind H. unfold TagHeap.alloc in H.
  inv_bind H. exists a, a1. split; [done|].
  apply verify_Ok, bool_decide_eq_true in Ha0. split; [done|]. split; [done|].
  assert (TagHeap.matchType (TagHeap.setTag node (Some (length h)))
          = TagHeap.matchType node) as Hmt by by destruct node.
  rewrite Hmt in H.
  assert (<[length h:=a1]> (h ++ [mkTag a [] []]) = h ++ [a1]) as Hh.
  { rewrite insert_app_r_alt, Nat.sub_diag by done. done. }
  rewrite Hh in H.
  case_bool_decide as Hnot; [|by injection H as <- <-].
  assert (TagHeap.children (TagHeap.setTag node (Some (length h)))
          = TagHeap.children node) as Hcs by by destruct node.
  rewrite Hcs in H.
  destruct (TagHeap.children node) as [|child others]; [done|].
  unfold TagHeap.clone, TagHeap.copyPath, TagHeap.alloc in H.
  assert ((h ++ [a1]) !! length h = Some a1) as Hrt.
  { rewrite lookup_app_r, Nat.sub_diag by done. done. }
  rewrite Hrt in H. simpl in H. rewrite length_app in H. simpl in H.
  replace (length h + 1) with (S (length h)) in H by lia.
  assert (((h ++ [a1]) ++ [mkTag (tag_path a1) (first a1) (notFirst a1)])
          = h ++ [a1; a1]) as Hh2.
  { rewrite <- app_assoc. simpl. by destruct a1. }
  rewrite Hh2 in H.
  assert ((h ++ [a1; a1]) !! length h = Some a1) as Hrt2.
  { rewrite lookup_app_r, Nat.sub_diag by done. done. }
  assert ((h ++ [a1; a1]) !! S (length h) = Some a1) as Hchild.
  { rewrite lookup_app_r by lia. by replace (S (length h) - length h) with 1 by lia. }
  rewrite Hrt2, Hchild in H. simpl in H. injection H as <- <-.
  exists child, others. split; [done|]. split; [done|].
  rewrite insert_app_r_alt by lia.
  replace (S (length h) - length h) with 1 by lia. simpl. by destruct a1.
Qed.

(** The two tag objects of a rated NOT and of its child. *)
Lemma heap_rateIndices_not node prefix indices (h : list RelevantTag) node' h' :
  TagHeap.matchType node = NOT → isBoundsGenerating (TagHeap.view h node) = true →
  TagHeap.rateIndices node prefix indices h = Ok (node', h') →
  ∃ child others tag,
    TagHeap.children node = child :: others ∧
    node' = TagHeap.setChildren (TagHeap.setTag node (Some (length h)))
              (TagHeap.setTag child (Some (S (length h))) :: others) ∧
    h' = h ++ [tag; tag].
Proof.
  intros Hnot Hbg Hrate.
  destruct (heap_rateIndices_rated _ _ _ _ _ _ ltac:(by rewrite Hnot) Hbg Hrate)
    as (fullPath & tag & _ & _ & _ & H).
  rewrite bool_decide_eq_true_2 in H by done.
  destruct H as (child & others & ? & ? & ?). by exists child, others, tag.
Qed.
End HeapTagging.

(** ** The planner on the heap and the planner on owned tags *)

Lemma Expression_tree_ind (P : TagHeap.Expression → Prop) :
  (∀ mt p d t cs, Forall P cs → P (TagHeap.ENode mt p d t cs)) → ∀ n, P n.
Proof.
  intros Hnode. fix IH 1. intros [mt p d t cs]. apply Hnode.
  induction cs as [|c cs IHcs]; constructor; [apply IH | apply IHcs].
Qed.

Lemma allocated_children h n :
  allocated h n → Forall (allocated h) (TagHeap.children n).
Proof.
  destruct n as [mt p d t cs]. unfold allocated. simpl.
  intros [_ Hcs]%Forall_app. induction cs as [|c cs IH]; simpl in *; [done|].
  apply Forall_app in Hcs as [? ?]. constructor; eauto.
Qed.

Lemma allocated_app h k n : allocated h n → allocated (h ++ k) n.
Proof.
  unfold allocated. intros H. eapply Forall_impl; [exact H|].
  simpl. intros a ?. rewrite length_app. lia.
Qed.

Lemma allocated_node h mt p d t cs :
  allocated h (TagHeap.ENode mt p d t cs) ↔
  (∀ a, t = Some a → a < length h) ∧ Forall (allocated h) cs.
Proof.
  unfold allocated. simpl. rewrite Forall_app. split.
  - intros [Ht Hcs]. split.
    + intros a ->. by inversion Ht.
    + induction cs as [|c cs IH]; simpl in *; [done|].
      apply Forall_app in Hcs as [? ?]. constructor; eauto.
  - intros [Ht Hcs]. split.
    + destruct t; [|done]. constructor; [eauto|done].
    + induction Hcs as [|c cs Hc _ IH]; simpl; [done|]. by apply Forall_app.
Qed.

Lemma view_app h k n : allocated h n → TagHeap.view (h ++ k) n = TagHeap.view h n.
Proof.
  induction n as [mt p d t cs IH] using Expression_tree_ind.
  intros [Ht Hcs]%allocated_node. simpl. f_equal.
  - destruct t as [a|]; [|done]. simpl. apply lookup_app_l. eauto.
  - induction IH as [|c cs Hc _ IHcs]; simpl; [done|].
    inversion Hcs; subst. f_equal; eauto.
Qed.

Lemma view_setTag h n t :
  TagHeap.view h (TagHeap.setTag n t) = setTag (TagHeap.view h n) (t ≫= λ a, h !! a).
Proof. by destruct n. Qed.

Lemma view_setChildren h n cs :
  TagHeap.view h (TagHeap.setChildren n cs)
  = setChildren (TagHeap.view h n) (map (TagHeap.view h) cs).
Proof. by destruct n. Qed.

Lemma view_matchType h n : matchType (TagHeap.view h n) = TagHeap.matchType n.
Proof. by destruct n. Qed.

Lemma view_path h n : path (TagHeap.view h n) = TagHeap.path n.
Proof. by destruct n. Qed.

Lemma view_children h n :
  children (TagHeap.view h n) = map (TagHeap.view h) (TagHeap.children n).
Proof. by destruct n. Qed.

Section TagIrrelevance.
Context {GL : GeoLibrary}.

Lemma specScan_setTag n t kp : specScan (setTag n t) kp = specScan n kp.
Proof. induction kp as [|e kp IH]; simpl; [done|]. by rewrite path_setTag, IH. Qed.

(** The oracle does not read the tag of the node. *)
Lemma compatible_setTag elt index n t :
  compatible elt index (setTag n t) = compatible elt index n.
Proof.
  unfold compatible, getChild.
  by rewrite matchType_setTag, payload_setTag, children_setTag, specScan_setTag.
Qed.

Lemma rateRest_setTag fullPath index n t i it : ∀ rt,
  rateRest fullPath index (setTag n t) i it rt = rateRest fullPath index n i it rt.
Proof.
  induction it as [|elt it IH]; intros rt; simpl; [done|].
  rewrite compatible_setTag. destruct (if _ : bool then _ else _); simpl; [|done].
  apply IH.
Qed.

Lemma rateAll_setTag fullPath n t indices : ∀ i rt,
  rateAll fullPath (setTag n t) i indices rt = rateAll fullPath n i indices rt.
Proof.
  induction indices as [|index rest IH]; intros i rt; simpl; [done|].
  unfold rateIndex. destruct (next (keyPattern index)) as [elt it].
  rewrite compatible_setTag.
  destruct (if _ : bool then _ else _); simpl; [|done].
  rewrite rateRest_setTag.
  destruct (rateRest _ _ _ _ _ _); simpl; [|done]. apply IH.
Qed.
End TagIrrelevance.

Section HeapRefinement.
Context {IX : Indexability} {GL : GeoLibrary}.

(** The loop over the children, with the heap handed from one child to
    the next. *)
Lemma heap_forEach_view prefix indices cs :
  Forall (λ c, ∀ prefix (h : list RelevantTag) c' h',
            allocated h c →
            TagHeap.rateIndices c prefix indices h = Ok (c', h') →
            (∃ k, h' = h ++ k) ∧ allocated h' c' ∧
            rateIndices (TagHeap.view h c) prefix indices = Ok (TagHeap.view h' c'))
         cs →
  ∀ (h : list RelevantTag) cs' h',
    Forall (allocated h) cs →
    TagHeap.forEach (fun c h => TagHeap.rateIndices c prefix indices h) cs h
      = Ok (cs', h') →
    (∃ k, h' = h ++ k) ∧ Forall (allocated h') cs' ∧
    forEach (fun c => rateIndices c prefix indices) (map (TagHeap.view h) cs)
      = Ok (map (TagHeap.view h') cs').
Proof.
  induction 1 as [|c cs Hc _ IH]; intros h cs' h' Hall; simpl.
  - intros [= <- <-]. split; [exists []; by rewrite app_nil_r|]. done.
  - inversion Hall as [|?? Hca Hcsa]; subst.
    intros H. inv_bind H. destruct a as [c1 h1], a0 as [cs1 h2]. simpl in *.
    injection H as <- <-.
    destruct (Hc _ _ _ _ Hca Ha) as ([k1 ->] & Hc1 & Hpure).
    destruct (IH (h ++ k1) cs1 h2) as ([k2 ->] & Hcs1 & Hrest).
    { eapply Forall_impl; [exact Hcsa|]. intros ?. apply allocated_app. }
    { done. }
    split; [exists (k1 ++ k2); by rewrite app_assoc|].
    split; [constructor; [by apply allocated_app|done]|].
    rewrite Hpure. simpl.
    assert (map (TagHeap.view (h ++ k1)) cs = map (TagHeap.view h) cs) as Hviews.
    { apply map_ext_Forall. eapply Forall_impl; [exact Hcsa|].
      intros ??. by apply view_app. }
    rewrite <- Hviews, Hrest. simpl. by rewrite (view_app _ k2).
Qed.

(** The tagging pass on the heap computes, read through the addresses,
    what the tagging pass on owned tags computes; it allocates and never
    writes to an object that was there before. *)
Lemma heap_rateIndices_view indices node : ∀ prefix (h : list RelevantTag) node' h',
  allocated h node →
  TagHeap.rateIndices node prefix indices h = Ok (node', h') →
  (∃ k, h' = h ++ k) ∧ allocated h' node' ∧
  rateIndices (TagHeap.view h node) prefix indices = Ok (TagHeap.view h' node').
Proof.
  induction node as [mt p d t cs IH] using Expression_tree_ind.
  intros prefix h node' h' Halloc Hrate.
  set (node := TagHeap.ENode mt p d t cs) in *.
  assert (Forall (allocated h) cs) as Hcs by by apply (allocated_children h node).
  rewrite rateIndices_unfold, view_matchType.
  destruct (decide (TagHeap.matchType node = NOR)) as [Hnor|Hnor].
  { rewrite heap_rateIndices_unfold, bool_decide_eq_true_2 in Hrate by done.
    injection Hrate as <- <-. rewrite bool_decide_eq_true_2 by done.
    split; [exists []; by rewrite app_nil_r|]. done. }
  rewrite bool_decide_eq_false_2 by done.
  destruct (isBoundsGenerating (TagHeap.view h node)) eqn:Hbg.
  { destruct (heap_rateIndices_rated _ _ _ _ _ _ Hnor Hbg Hrate)
      as (fullPath & tag & Hpath & Htag & Hall & Hres).
    assert (getTag (TagHeap.view h node) = None) as Hnone.
    { unfold node in *. simpl in *. by subst t. }
    rewrite view_setTag, rateAll_setTag, view_app in Hall by done.
    unfold getChild. rewrite view_children. unfold TagHeap.getChild in Hpath.
    rewrite list_lookup_fmap.
    assert ((if bool_decide (TagHeap.matchType node = NOT)
             then match TagHeap.view h <$> TagHeap.children node !! 0 with
                  | Some child => Ok (prefix +:+ path child)
                  | None => Abort undefined
                  end
             else Ok (prefix +:+ path (TagHeap.view h node))) = Ok fullPath) as ->.
    { case_bool_decide; [|by rewrite view_path].
      destruct (TagHeap.children node !! 0) as [child|]; [|done]. simpl.
      by rewrite view_path. }
    cbn [bind]. rewrite Hnone. cbn [verify bind bool_decide decide_rel]. 
    rewrite bool_decide_eq_true_2 by done. cbn [bind]. rewrite Hall. cbn [bind].
    change (verify 318 true) with (Ok ()). cbn [bind].
    case_bool_decide as Hnot.
    - destruct Hres as (child & others & Hchildren & -> & ->).
      change (TagHeap.children node) with cs in Hchildren. subst cs.
      inversion Hcs as [|?? Hchild Hothers]; subst.
      split; [by eexists|]. split.
      { apply allocated_node. split.
        - intros a [= <-]. rewrite length_app. simpl. lia.
        - constructor.
          + destruct child. apply allocated_node.
            apply allocated_node in Hchild as [_ ?]. split.
            * intros a [= <-]. rewrite length_app. simpl. lia.
            * eapply Forall_impl; [done|]. intros ?. apply allocated_app.
          + eapply Forall_impl; [exact Hothers|]. intros ?. apply allocated_app. }
      simpl. rewrite clone_id. f_equal. f_equal.
      { rewrite lookup_app_r, Nat.sub_diag by done. done. }
      f_equal.
      { destruct child as [mt' p' d' t' cs']. simpl. f_equal.
        - rewrite lookup_app_r by lia.
          by replace (S (length h) - length h) with 1 by lia.
        - apply allocated_node in Hchild as [_ Hcs'].
          apply map_ext_Forall. eapply Forall_impl; [exact Hcs'|].
          intros ??. by rewrite view_app. }
      apply map_ext_Forall. eapply Forall_impl; [exact Hothers|].
      intros ??. by rewrite view_app.
    - destruct Hres as [-> ->]. split; [by eexists|]. split.
      { apply allocated_node. split.
        - intros a [= <-]. rewrite length_app. simpl. lia.
        - eapply Forall_impl; [exact Hcs|]. intros ?. apply allocated_app. }
      simpl. f_equal. f_equal.
      { rewrite lookup_app_r, Nat.sub_diag by done. done. }
      apply map_ext_Forall. eapply Forall_impl; [exact Hcs|].
      intros ??. by rewrite view_app. }
  rewrite heap_rateIndices_unfold, bool_decide_eq_false_2, Hbg in Hrate by done.
  assert (∀ prefix0,
            (do r <- TagHeap.forEach
                       (fun c h => TagHeap.rateIndices c prefix0 indices h)
                       (TagHeap.children node) h;
             Ok (TagHeap.setChildren node r.1, r.2)) = Ok (node', h') →
            (∃ k, h' = h ++ k) ∧ allocated h' node' ∧
            (do cs0 <- forEach (fun c => rateIndices c prefix0 indices)
                         (children (TagHeap.view h node));
             Ok (setChildren (TagHeap.view h node) cs0))
            = Ok (TagHeap.view h' node')) as Hloop.
  { intros prefix0 H. inv_bind H. destruct a as [cs1 h1]. simpl in H.
    injection H as <- <-.
    destruct (heap_forEach_view prefix0 indices cs IH h cs1 h1 Hcs Ha)
      as ([k ->] & Hcs1 & Hpure).
    split; [by eexists|]. split.
    - apply allocated_node. apply allocated_node in Halloc as [Ht _].
      split; [|done]. intros a Ha'. rewrite length_app. specialize (Ht a Ha'). lia.
    - simpl. rewrite Hpure. simpl. f_equal. f_equal.
      destruct t as [a|]; [|done]. simpl. symmetry. apply lookup_app_l.
      apply allocated_node in Halloc as [Ht _]. by apply Ht. }
  rewrite view_path.
  destruct (arrayUsesIndexOnChildren (TagHeap.view h node)); [by apply Hloop|].
  destruct (isLogical (TagHeap.view h node)); [by apply Hloop|].
  injection Hrate as <- <-. split; [exists []; by rewrite app_nil_r|]. done.
Qed.
End HeapRefinement.

Section HeapOwnership.
Context {IX : Indexability} {GL : GeoLibrary}.

Lemma addresses_setTag n t :
  addresses (TagHeap.setTag n t)
  = match t with Some a => [a] | None => [] end
    ++ concat (map addresses (TagHeap.children n)).
Proof. by destruct n. Qed.

Lemma addresses_setChildren n cs :
  addresses (TagHeap.setChildren n cs)
  = match TagHeap.getTag n with Some a => [a] | None => [] end
    ++ concat (map addresses cs).
Proof. by destruct n. Qed.

Lemma addresses_node n :
  addresses n
  = match TagHeap.getTag n with Some a => [a] | None => [] end
    ++ concat (map addresses (TagHeap.children n)).
Proof. by destruct n. Qed.

Lemma elem_of_addresses_children a cs :
  a ∈ concat (map addresses cs) ↔ ∃ c, c ∈ cs ∧ a ∈ addresses c.
Proof. induction cs as [|c cs IH]; simpl; set_solver. Qed.

(** The addresses a tree holds after the loop over its children: those
    it held, and new ones. *)
Lemma heap_forEach_fresh prefix indices cs :
  Forall (λ c, ∀ prefix (h : list RelevantTag) c' h',
            allocated h c → NoDup (addresses c) →
            TagHeap.rateIndices c prefix indices h = Ok (c', h') →
            NoDup (addresses c') ∧
            Forall (λ a, a ∈ addresses c ∨ (length h ≤ a)%nat) (addresses c')) cs →
  ∀ (h : list RelevantTag) cs' h',
    Forall (allocated h) cs → NoDup (concat (map addresses cs)) →
    TagHeap.forEach (fun c h => TagHeap.rateIndices c prefix indices h) cs h
      = Ok (cs', h') →
    NoDup (concat (map addresses cs')) ∧
    Forall (λ a, a ∈ concat (map addresses cs) ∨ (length h ≤ a)%nat)
           (concat (map addresses cs')).
Proof.
  induction 1 as [|c cs Hc _ IH]; intros h cs' h' Hall Hnd; simpl.
  - intros [= <- <-]. done.
  - inversion Hall as [|?? Hca Hcsa]; subst. simpl in Hnd.
    apply NoDup_app in Hnd as (Hndc & Hdisj & Hndcs).
    intros H. inv_bind H. destruct a as [c1 h1], a0 as [cs1 h2]. simpl in *.
    injection H as <- <-.
    destruct (Hc _ _ _ _ Hca Hndc Ha) as [Hnd1 Hfresh1].
    destruct (heap_rateIndices_view _ _ _ _ _ _ Hca Ha) as ([k1 ->] & Hc1 & _).
    destruct (IH (h ++ k1) cs1 h2) as [Hnd2 Hfresh2]; [|done..|].
    { eapply Forall_impl; [exact Hcsa|]. intros ?. apply allocated_app. }
    assert (∀ a, a ∈ concat (map addresses cs) → a < length h) as Hold.
    { intros a (c0 & Hc0 & Hl)%elem_of_addresses_children.
      rewrite Forall_forall in Hcsa. specialize (Hcsa c0 Hc0).
      unfold allocated in Hcsa. rewrite Forall_forall in Hcsa. eauto. }
    rewrite Forall_forall in Hfresh1, Hfresh2. unfold allocated in Hc1.
    rewrite Forall_forall in Hc1. rewrite length_app in Hfresh2.
    split.
    + apply NoDup_app. split; [done|]. split; [|done].
      intros a Ha1 Ha2. destruct (Hfresh1 a Ha1) as [Hin|Hge],
        (Hfresh2 a Ha2) as [Hin2|Hge2].
      * by apply (Hdisj a).
      * specialize (Hc1 a Ha1). rewrite length_app in Hc1. lia.
      * specialize (Hold a Hin2). lia.
      * specialize (Hc1 a Ha1). rewrite length_app in Hc1. lia.
    + apply Forall_app. split; apply Forall_forall; intros a Hin.
      * destruct (Hfresh1 a Hin); [left; set_solver|by right].
      * destruct (Hfresh2 a Hin); [left; set_solver|right; lia].
Qed.

(** After the tagging pass no two nodes hold the same tag object, if
    none did before: every node owns its tag. *)
Lemma heap_rateIndices_NoDup indices node : ∀ prefix (h : list RelevantTag) node' h',
  allocated h node → NoDup (addresses node) →
  TagHeap.rateIndices node prefix indices h = Ok (node', h') →
  NoDup (addresses node') ∧
  Forall (λ a, a ∈ addresses node ∨ (length h ≤ a)%nat) (addresses node').
Proof.
  induction node as [mt p d t cs IH] using Expression_tree_ind.
  intros prefix h node' h' Halloc Hnd Hrate.
  set (node := TagHeap.ENode mt p d t cs) in *.
  assert (Forall (allocated h) cs) as Hcs by by apply (allocated_children h node).
  assert (∀ a, a ∈ addresses node → a < length h) as Hold.
  { intros a. unfold allocated in Halloc. rewrite Forall_forall in Halloc. eauto. }
  destruct (decide (TagHeap.matchType node = NOR)) as [Hnor|Hnor].
  { rewrite heap_rateIndices_unfold, bool_decide_eq_true_2 in Hrate by done.
    injection Hrate as <- <-. split; [done|]. apply Forall_forall. eauto. }
  destruct (isBoundsGenerating (TagHeap.view h node)) eqn:Hbg.
  { destruct (heap_rateIndices_rated _ _ _ _ _ _ Hnor Hbg Hrate)
      as (fullPath & tag & _ & Htag & _ & Hres).
    unfold node in *. simpl in Htag. subst t. simpl in Hnd, Hold.
    case_bool_decide as Hnot.
    - destruct Hres as (child & others & Hchildren & -> & ->).
      simpl in Hchildren. subst cs. simpl in *.
      rewrite addresses_setTag.
      rewrite (addresses_node child) in Hnd, Hold.
      apply NoDup_app in Hnd as (Hndc & Hdisj & Hndo).
      apply NoDup_app in Hndc as (_ & _ & Hndcc).
      split.
      + apply NoDup_cons. split.
        { intros [Heq|Hin]%elem_of_cons; [lia|].
          assert (length h < length h); [|lia]. apply Hold. set_solver. }
        simpl. apply NoDup_cons. split.
        { intros Hin. assert (S (length h) < length h); [|lia].
          apply Hold. set_solver. }
        apply NoDup_app. split; [done|]. split; [|done].
        intros a Ha. apply Hdisj. set_solver.
      + apply Forall_forall. intros a [->|Hin]%elem_of_cons; [by right|].
        simpl in Hin. apply elem_of_cons in Hin as [->|Hin]; [right; lia|].
        left. rewrite (addresses_node child). set_solver.
    - destruct Hres as [-> ->]. simpl. split.
      + apply NoDup_cons. split; [|done].
        intros Hin. assert (length h < length h); [|lia]. by apply Hold.
      + apply Forall_forall. intros a [->|Hin]%elem_of_cons; [by right|by left]. }
  rewrite heap_rateIndices_unfold, bool_decide_eq_false_2, Hbg in Hrate by done.
  assert (∀ prefix0,
            (do r <- TagHeap.forEach
                       (fun c h => TagHeap.rateIndices c prefix0 indices h)
                       (TagHeap.children node) h;
             Ok (TagHeap.setChildren node r.1, r.2)) = Ok (node', h') →
            NoDup (addresses node') ∧
            Forall (λ a, a ∈ addresses node ∨ (length h ≤ a)%nat) (addresses node'))
    as Hloop.
  { intros prefix0 H. inv_bind H. destruct a as [cs1 h1]. simpl in H.
    injection H as <- <-. unfold node in Hnd, Hold. simpl in Hnd, Hold, Ha.
    apply NoDup_app in Hnd as (Hndt & Hdisj & Hndcs).
    destruct (heap_forEach_fresh prefix0 indices cs IH h cs1 h1 Hcs Hndcs Ha)
      as [Hnd1 Hfresh]. rewrite Forall_forall in Hfresh.
    unfold node. simpl. split.
    - apply NoDup_app. split; [done|]. split; [|done].
      intros a Ha1 Ha2. destruct (Hfresh a Ha2) as [?|?]; [by apply (Hdisj a)|].
      assert (a < length h); [|lia]. apply Hold. set_solver.
    - apply Forall_app. split; apply Forall_forall; intros a Hin.
      + left. set_solver.
      + destruct (Hfresh a Hin); [left; set_solver|by right]. }
  destruct (arrayUsesIndexOnChildren (TagHeap.view h node));
    [exact (Hloop _ Hrate)|].
  destruct (isLogical (TagHeap.view h node)); [exact (Hloop _ Hrate)|].
  injection Hrate as <- <-. split; [done|]. apply Forall_forall. eauto.
Qed.
End HeapOwnership.

(** ** The bound of the recursion *)

Lemma forEach_ext {A : Type} (f g : A → Result A) (l : list A) :
  (∀ a, a ∈ l → f a = g a) → forEach f l = forEach g l.
Proof.
  induction l as [|a l IH]; intros Hfg; simpl; [done|].
  rewrite (Hfg a) by left. rewrite IH; [done|]. intros b ?. apply Hfg. by right.
Qed.

Section Bound.
Context {IX : Indexability}.

Lemma andLoop_ext strip strip' idx cs :
  (∀ c, c ∈ cs → strip c = strip' c) →
  ∀ hasText paths,
    andLoop strip idx cs hasText paths = andLoop strip' idx cs hasText paths.
Proof.
  induction cs as [|c cs IH]; intros Hext hasText paths; [done|].
  rewrite !andLoop_cons, (Hext c) by left.
  rewrite !IH by (intros c' ?; apply Hext; by right). done.
Qed.

Lemma stripBounded_height idx prefixPaths d node node' :
  stripBounded d node idx prefixPaths = Ok node' → height node' = height node.
Proof.
  intros Hun%stripBounded_untagged.
  by rewrite <- (height_untagged node'), Hun, height_untagged.
Qed.

(** Any bound from the height of the tree on gives the same result:
    the pass is the recursion of the source, cut nowhere. *)
Lemma stripBounded_enough idx prefixPaths d1 : ∀ d2 node,
  (height node ≤ d1)%nat → (height node ≤ d2)%nat →
  stripBounded d1 node idx prefixPaths = stripBounded d2 node idx prefixPaths.
Proof.
  induction d1 as [|d1 IH]; intros d2 node H1 H2.
  { destruct node. simpl in H1. lia. }
  destruct d2 as [|d2]; [destruct node; simpl in H2; lia|].
  assert (∀ c, c ∈ children node →
               stripBounded d1 c idx prefixPaths = stripBounded d2 c idx prefixPaths)
    as Hchildren.
  { intros c ?%height_children. apply IH; lia. }
  simpl. destruct (nodeCanUseIndexOnOwnField node); [done|].
  destruct (_ || _); [done|]. simpl.
  case_bool_decide; [by rewrite (forEach_ext _ _ _ Hchildren)|].
  rewrite (andLoop_ext _ _ _ _ Hchildren).
  destruct (andLoop _ idx (children node) false prefixPaths)
    as [[[cs1 hasText] paths]|e] eqn:Hloop; simpl; [|done].
  destruct (_ || _); [|done].
  rewrite (forEach_ext _ (λ c, stripBounded d2 c idx prefixPaths)); [done|].
  intros c1 [j Hj]%list_elem_of_lookup.
  apply andLoop_Ok in Hloop as (Hcs1 & _).
  destruct (Forall2_lookup_r _ _ _ _ _ Hcs1 Hj) as (c & Hcj & Hrel).
  assert (height c1 = height c) as Hh.
  { destruct (carries idx c); [by subst|]. by eapply stripBounded_height. }
  apply list_elem_of_lookup_2, height_children in Hcj. apply IH; lia.
Qed.
End Bound.

(** ** Tags without repetitions

    The enforcement takes one occurrence of an index out of a list; the
    tagging pass lists an index once in each list when no key pattern
    names a field twice after its first element. *)

Lemma tagsOnce_node mt p d t cs :
  tagsOnce (Node mt p d t cs) = true ↔
  (∀ tag, t = Some tag → NoDup (first tag) ∧ NoDup (notFirst tag)) ∧
  Forall (λ c, tagsOnce c = true) cs.
Proof.
  simpl. rewrite andb_true_iff, forallb_forall, Forall_forall.
  setoid_rewrite <- list_elem_of_In. split.
  - intros [Ht Hcs]. split; [|done]. intros tag ->.
    by apply andb_true_iff in Ht as [?%bool_decide_eq_true ?%bool_decide_eq_true].
  - intros [Ht Hcs]. split; [|done]. destruct t as [tag|]; [|done].
    destruct (Ht tag eq_refl). by rewrite !bool_decide_eq_true_2.
Qed.

Section TaggingOnce.
Context {IX : Indexability} {GL : GeoLibrary}.

Lemma rateRest_no_name fullPath index node i it : ∀ rt,
  fullPath ∉ map fieldName it → rateRest fullPath index node i it rt = Ok rt.
Proof.
  induction it as [|elt it IH]; intros rt Hno; simpl in *; [done|].
  apply not_elem_of_cons in Hno as [Hne Hno].
  destruct (String.eqb_spec (fieldName elt) fullPath); [congruence|]. simpl.
  by apply IH.
Qed.

Lemma rateRest_once fullPath index node i it : ∀ rt rt',
  NoDup (map fieldName it) →
  rateRest fullPath index node i it rt = Ok rt' →
  first rt' = first rt ∧
  (notFirst rt' = notFirst rt ∨ notFirst rt' = notFirst rt ++ [i]).
Proof.
  induction it as [|elt it IH]; intros rt rt' Hnd; simpl.
  - intros [= <-]. by split; [|left].
  - apply NoDup_cons in Hnd as [Hnotin Hnd]. intros H. inv_bind H.
    destruct a.
    + destruct (String.eqb_spec (fieldName elt) fullPath) as [Heq|]; [|done].
      rewrite rateRest_no_name in H by by rewrite <- Heq.
      injection H as <-. by split; [|right].
    + by apply IH.
Qed.

Lemma rateAll_once fullPath node indices : ∀ i0 rt rt',
  Forall (λ index, NoDup (map fieldName (laterElements index))) indices →
  rateAll fullPath node i0 indices rt = Ok rt' →
  NoDup (first rt) → NoDup (notFirst rt) →
  Forall (λ j, j < i0) (first rt) → Forall (λ j, j < i0) (notFirst rt) →
  NoDup (first rt') ∧ NoDup (notFirst rt').
Proof.
  induction indices as [|index rest IH]; intros i0 rt rt' Hkp; simpl.
  - by intros [= <-].
  - inversion Hkp as [|?? Hlater Hrest]; subst. intros H Hf Hn Hfb Hnb.
    inv_bind H. unfold rateIndex, laterElements in *.
    destruct (next (keyPattern index)) as [elt it]. simpl in *. inv_bind Ha.
    apply rateRest_once in Ha as [Hf1 Hn1]; [|done].
    assert (NoDup (first a) ∧ Forall (λ j, j < S i0) (first a)) as [? ?].
    { rewrite Hf1. destruct a0; simpl.
      - split.
        + apply NoDup_app. split; [done|]. split; [|apply NoDup_singleton].
          intros j Hj ->%list_elem_of_singleton. rewrite Forall_forall in Hfb.
          specialize (Hfb _ Hj). lia.
        + apply Forall_app. split; [|by repeat constructor].
          eapply Forall_impl; [done|]. simpl. lia.
      - split; [done|]. eapply Forall_impl; [done|]. simpl. lia. }
    assert (NoDup (notFirst a) ∧ Forall (λ j, j < S i0) (notFirst a)) as [? ?].
    { assert (notFirst (if a0 then mkTag (tag_path rt) (first rt ++ [i0]) (notFirst rt)
                        else rt) = notFirst rt) as Heq by by destruct a0.
      rewrite Heq in Hn1. destruct Hn1 as [->| ->].
      - split; [done|]. eapply Forall_impl; [done|]. simpl. lia.
      - split.
        + apply NoDup_app. split; [done|]. split; [|apply NoDup_singleton].
          intros j Hj ->%list_elem_of_singleton. rewrite Forall_forall in Hnb.
          specialize (Hnb _ Hj). lia.
        + apply Forall_app. split; [|by repeat constructor].
          eapply Forall_impl; [done|]. simpl. lia. }
    by apply (IH (S i0) a rt').
Qed.

(** The tagging pass keeps the tags free of repetitions. *)
Lemma rateIndices_tagsOnce indices root : ∀ prefix root',
  Forall (λ index, NoDup (map fieldName (laterElements index))) indices →
  rateIndices root prefix indices = Ok root' →
  tagsOnce root = true → tagsOnce root' = true.
Proof.
  induction root as [mt p d t cs IH] using MatchExpression_tree_ind.
  intros prefix root' Hkp Hrate Honce.
  rewrite rateIndices_unfold in Hrate. simpl in Hrate.
  apply tagsOnce_node in Honce as [Ht Hcs].
  case_bool_decide; [injection Hrate as <-; by apply tagsOnce_node|].
  destruct (isBoundsGenerating _).
  { inv_bind Hrate.
    apply rateAll_once in Ha1 as [? ?]; [|done|by constructor..].
    case_bool_decide.
    - destruct cs as [|[mt' p' d' t' cs'] others]; [done|].
      injection Hrate as <-. apply tagsOnce_node. split.
      + by intros tag [= <-].
      + inversion Hcs as [|?? Hchild Hothers]; subst. constructor; [|done].
        cbn [setTag]. apply tagsOnce_node. apply tagsOnce_node in Hchild as [_ ?].
        split; [|done]. intros tag [= <-]. by rewrite clone_id.
    - injection Hrate as <-. apply tagsOnce_node. split; [|done].
      by intros tag [= <-]. }
  assert (∀ prefix0 cs1,
            forEach (fun c => rateIndices c prefix0 indices) cs = Ok cs1 →
            tagsOnce (Node mt p d t cs1) = true) as Hloop.
  { intros prefix0 cs1 Hcs1%forEach_Ok. apply tagsOnce_node. split; [done|].
    clear Hrate. induction Hcs1 as [|c c1 cs cs1 Hc _ IHcs]; [done|].
    inversion IH; inversion Hcs; subst. constructor; eauto. }
  destruct (arrayUsesIndexOnChildren _).
  { inv_bind Hrate. injection Hrate as <-. by eapply Hloop. }
  destruct (isLogical _).
  { inv_bind Hrate. injection Hrate as <-. by eapply Hloop. }
  injection Hrate as <-. by apply tagsOnce_node.
Qed.
End TaggingOnce.


(** ** The collection of fields, continued *)

Lemma append_assoc (a b c : string) : (a +:+ b) +:+ c = a +:+ (b +:+ c).
Proof.
  induction a as [|ch a IH]; [done|].
  change (String ch ((a +:+ b) +:+ c) = String ch (a +:+ (b +:+ c))). by f_equal.
Qed.

Section CollectionLaws.
Context {IX : Indexability}.

Lemma getFields_foldl_union prefix cs :
  Forall (λ c, ∀ prefix out, getFields c prefix out = getFields c prefix ∅ ∪ out) cs →
  ∀ out,
    foldl (fun out c => getFields c prefix out) out cs
    = foldl (fun out c => getFields c prefix out) ∅ cs ∪ out.
Proof.
  induction 1 as [|c cs Hc _ IH]; intros out; simpl.
  - set_solver.
  - rewrite IH, (IH (getFields c prefix ∅)), (Hc prefix out). set_solver.
Qed.

Lemma getFields_union node : ∀ prefix out,
  getFields node prefix out = getFields node prefix ∅ ∪ out.
Proof.
  induction node as [mt p d t cs IH] using MatchExpression_tree_ind.
  intros prefix out. rewrite !(getFields_unfold (Node mt p d t cs)).
  case_bool_decide; [set_solver|].
  destruct (nodeCanUseIndexOnOwnField _); [set_solver|].
  destruct (arrayUsesIndexOnChildren _); [by apply getFields_foldl_union|].
  destruct (isLogical _); [by apply getFields_foldl_union | set_solver].
Qed.

Lemma childPrefix_append node a b :
  childPrefix node (a +:+ b) = a +:+ childPrefix node b.
Proof.
  unfold childPrefix. destruct (String.eqb (path node) ""); [done|].
  by rewrite !append_assoc.
Qed.

Lemma CollectedAt_prefix a root b pos s :
  CollectedAt root b pos s → CollectedAt root (a +:+ b) pos (a +:+ s).
Proof.
  induction 1 as [root b Hnor Hown|root b i c pos s Hnor Hown Harr Hc _ IH
                 |root b i c pos s Hnor Hown Harr Hlog Hc _ IH].
  - rewrite <- append_assoc. by constructor.
  - apply collected_array with c; try done. by rewrite childPrefix_append.
  - by apply collected_logical with c.
Qed.

Lemma CollectedAt_prefix_inv a root pos : ∀ b s,
  CollectedAt root (a +:+ b) pos s → ∃ s', s = a +:+ s' ∧ CollectedAt root b pos s'.
Proof.
  intros b s H. remember (a +:+ b) as ab eqn:Hab. revert b Hab.
  induction H as [root ab Hnor Hown|root ab i c pos s Hnor Hown Harr Hc _ IH
                 |root ab i c pos s Hnor Hown Harr Hlog Hc _ IH]; intros b ->.
  - exists (b +:+ path root). split; [by rewrite append_assoc | by constructor].
  - destruct (IH (childPrefix root b)) as (s' & -> & Hs').
    { by rewrite childPrefix_append. }
    exists s'. split; [done|]. by apply collected_array with c.
  - destruct (IH b eq_refl) as (s' & -> & Hs').
    exists s'. split; [done|]. by apply collected_logical with c.
Qed.

Lemma append_empty_r (a : string) : a +:+ "" = a.
Proof.
  induction a as [|ch a IH]; [done|].
  change (String ch (a +:+ "") = String ch a). by f_equal.
Qed.
End CollectionLaws.

(** ** The prefilter of the catalog *)

Lemma findRelevantIndices_Ok fields allIndices out :
  Forall (λ index, keyPattern index ≠ []) allIndices →
  findRelevantIndices fields allIndices out
  = Ok (out ++ filter (λ index, fieldName (firstElement index) ∈ fields) allIndices).
Proof.
  intros Hall. revert out.
  induction Hall as [|index rest Hne _ IH]; intros out; simpl.
  { by rewrite app_nil_r. }
  rewrite IH, filter_cons.
  assert (fieldName (firstElement index) = fieldName (next (keyPattern index)).1)
    as -> by done.
  destruct (keyPattern index) as [|elt kp] eqn:Hkp; [done|]. simpl.
  case_bool_decide; case_decide; try done.
  by rewrite <- app_assoc.
Qed.

Lemma findRelevantIndices_Abort fields allIndices out :
  ¬ Forall (λ index, keyPattern index ≠ []) allIndices →
  findRelevantIndices fields allIndices out = Abort (verify_failed 118).
Proof.
  revert out. induction allIndices as [|index rest IH]; intros out Hno; simpl.
  - destruct Hno. constructor.
  - destruct (keyPattern index) as [|elt kp] eqn:Hkp; [done|]. simpl.
    rewrite IH; [done|]. intros Hall. apply Hno. constructor; [|done].
    by rewrite Hkp.
Qed.

(** ** The tagging pass, continued *)

Lemma Forall2_with {A : Type} (R Q : A → A → Prop) (P : A → Prop) (l k : list A) :
  Forall2 R l k → Forall P l → (∀ x y, R x y → P x → Q x y) → Forall2 Q l k.
Proof.
  intros HR HP Himp. induction HR as [|x y l k Hxy _ IH]; [constructor|].
  inversion HP; subst. constructor; eauto.
Qed.

Section TaggingCases.
Context {IX : Indexability} {GL : GeoLibrary}.

(** The three outcomes of a call that returns, with the path and the
    prefix it works with. *)
Lemma rateIndices_cases node prefix indices node' :
  rateIndices node prefix indices = Ok node' →
  (node' = node ∧ ¬ rates node ∧ ¬ descends node) ∨
  (rates node ∧ getTag node = None ∧
   ∃ s rt, fullPathOf node prefix = Some s ∧
           rateAll s node 0 indices (mkTag s [] []) = Ok rt ∧
           if bool_decide (matchType node = NOT) then
             ∃ child others,
               children node = child :: others ∧
               node' = setChildren (setTag node (Some rt))
                         (setTag child (Some rt) :: others)
           else node' = setTag node (Some rt)) ∨
  (descends node ∧
   ∃ cs,
     Forall2 (λ c c', rateIndices c (ratingPrefix node prefix) indices = Ok c')
             (children node) cs ∧
     node' = setChildren node cs).
Proof.
  rewrite rateIndices_unfold. unfold rates, descends, fullPathOf, ratingPrefix.
  case_bool_decide as Hnor.
  { intros [= <-]. left. naive_solver. }
  destruct (isBoundsGenerating node) eqn:Hbg.
  { intros H. inv_bind H. apply verify_Ok, bool_decide_eq_true in Ha0.
    right. left. split; [done|]. split; [done|]. exists a, a1.
    split.
    { clear H. destruct (bool_decide (matchType node = NOT)); [|by simplify_eq/=].
      destruct (getChild node 0); by simplify_eq/=. }
    split; [done|]. case_bool_decide.
    - destruct (children node) as [|child others] eqn:Hcs; [done|].
      injection H as <-. rewrite clone_id. eauto.
    - by injection H as <-. }
  destruct (arrayUsesIndexOnChildren node) eqn:Harr.
  { intros H. simpl in H. inv_bind H. injection H as <-.
    apply forEach_Ok in Ha. right. right. split; [done|]. eauto. }
  destruct (isLogical node) eqn:Hlog.
  { intros H. inv_bind H. injection H as <-.
    apply forEach_Ok in Ha. right. right. split; [done|]. eauto. }
  intros [= <-]. left. split; [done|]. split; [naive_solver|].
  intros (_ & _ & ?). done.
Qed.

(** Every tag of the result was computed by the loop over the indexes, or
    was on the tree before. *)
Lemma rateIndices_tag_origin pos : ∀ root prefix indices root' n' rt,
  rateIndices root prefix indices = Ok root' →
  subtree pos root' = Some n' → getTag n' = Some rt →
  (∃ s node, rateAll s node 0 indices (mkTag s [] []) = Ok rt) ∨
  (∃ n, subtree pos root = Some n ∧ getTag n = Some rt).
Proof.
  induction pos as [|i pos IH]; intros root prefix indices root' n' rt Hrate Hsub Htag.
  - simpl in Hsub. injection Hsub as <-.
    apply rateIndices_cases in Hrate
      as [(-> & _)|[(_ & _ & s & rt' & _ & Hall & Hroot')|(_ & cs & _ & ->)]].
    + right. by exists root.
    + left. exists s, root. case_bool_decide.
      * destruct Hroot' as (child & others & _ & ->). node_simpl. congruence.
      * subst root'. node_simpl. congruence.
    + right. exists root. by node_simpl.
  - simpl in Hsub. destruct (children root' !! i) as [c'|] eqn:Hc'; [|done].
    apply rateIndices_cases in Hrate
      as [(-> & _)|[(_ & _ & s & rt' & _ & Hall & Hroot')|(_ & cs & Hcs & ->)]].
    + right. exists n'. simpl. by rewrite Hc'.
    + case_bool_decide.
      * destruct Hroot' as (child & others & Hcs & ->). node_simpl.
        destruct i as [|i]; simpl in Hc'.
        -- injection Hc' as <-. destruct pos as [|j pos].
           ++ simpl in Hsub. injection Hsub as <-. left. exists s, root.
              node_simpl. congruence.
           ++ rewrite subtree_setTag in Hsub. right. exists n'.
              simpl. rewrite Hcs. simpl. done.
        -- right. exists n'. simpl. rewrite Hcs. simpl. by rewrite Hc'.
      * subst root'. node_simpl. right. exists n'. simpl. by rewrite Hc'.
    + node_simpl. destruct (Forall2_lookup_r _ _ _ _ _ Hcs Hc') as (c & Hc & Hrc).
      destruct (IH _ _ _ _ _ _ Hrc Hsub Htag) as [?|(n & Hn & Hnt)]; [by left|].
      right. exists n. simpl. by rewrite Hc.
Qed.

Lemma rateIndices_untagged indices root : ∀ prefix root',
  rateIndices root prefix indices = Ok root' → untagged root' = untagged root.
Proof.
  induction root as [mt p d t cs IH] using MatchExpression_tree_ind.
  intros prefix root' Hrate.
  apply rateIndices_cases in Hrate
    as [(-> & _)|[(_ & _ & s & rt' & _ & _ & Hroot')|(_ & cs' & Hcs & ->)]]; [done| |].
  - case_bool_decide.
    + destruct Hroot' as (child & others & Hcs & ->). simpl in *. subst cs.
      simpl. by rewrite untagged_setTag.
    + by subst root'.
  - simpl in *. f_equal. apply Forall2_map_eq.
    eapply Forall2_with; [exact Hcs|exact IH|]. intros c c' Hr Hc. exact (Hc _ _ Hr).
Qed.

Lemma TagPathAt_tag root prefix pos s :
  TagPathAt root prefix pos s → ∀ indices root',
  rateIndices root prefix indices = Ok root' →
  ∃ n' rt node,
    subtree pos root' = Some n' ∧ getTag n' = Some rt ∧
    rateAll s node 0 indices (mkTag s [] []) = Ok rt.
Proof.
  induction 1 as [root prefix s Hr Hs|root prefix s Hr Hnot Hs
                 |root prefix i c pos s Hd Hc _ IH]; intros indices root' Hrate.
  - apply rateIndices_cases in Hrate
      as [(_ & ? & _)|[(_ & _ & s' & rt & Hs' & Hall & Hroot')|(Hd & _)]];
      [done| |by destruct (not_rates_descends root)].
    assert (s' = s) as -> by congruence.
    exists root', rt, root. split; [done|]. split; [|done].
    case_bool_decide.
    + destruct Hroot' as (child & others & _ & ->). by node_simpl.
    + subst root'. by node_simpl.
  - apply rateIndices_cases in Hrate
      as [(_ & ? & _)|[(_ & _ & s' & rt & Hs' & Hall & Hroot')|(Hd & _)]];
      [done| |by destruct (not_rates_descends root)].
    assert (s' = s) as -> by congruence.
    rewrite bool_decide_eq_true_2 in Hroot' by done.
    destruct Hroot' as (child & others & _ & ->).
    exists (setTag child (Some rt)), rt, root. simpl. node_simpl. simpl.
    by node_simpl.
  - apply rateIndices_cases in Hrate
      as [(_ & _ & ?)|[(Hr & _)|(_ & cs & Hcs & ->)]];
      [done|by destruct (not_rates_descends root)|].
    destruct (Forall2_lookup_l _ _ _ _ _ Hcs Hc) as (c' & Hc' & Hrc).
    destruct (IH _ _ Hrc) as (n' & rt & node & Hn' & Htag & Hall).
    exists n', rt, node. simpl. node_simpl. by rewrite Hc'.
Qed.

Lemma RatedAt_TagPathAt root pos r :
  RatedAt root pos r → ∀ prefix indices root',
  rateIndices root prefix indices = Ok root' →
  ∃ s, TagPathAt root prefix pos s.
Proof.
  induction 1 as [root Hr|root Hr Hnot|root i c pos n Hd Hc _ IH];
    intros prefix indices root' Hrate;
    apply rateIndices_cases in Hrate
      as [(_ & Hnr & Hnd)|[(Hr' & _ & s & rt & Hs & _)|(Hd' & cs & Hcs & _)]].
  - done.
  - exists s. by constructor.
  - by destruct (not_rates_descends root).
  - done.
  - exists s. by constructor.
  - by destruct (not_rates_descends root).
  - done.
  - by destruct (not_rates_descends root).
  - destruct (Forall2_lookup_l _ _ _ _ _ Hcs Hc) as (c' & _ & Hrc).
    destruct (IH _ _ _ Hrc) as [s Hs]. exists s. by apply tag_path_below with c.
Qed.

Lemma TagPathAt_CollectedAt root prefix pos s :
  ownFieldBounds → TagPathAt root prefix pos s →
  ∃ pos', CollectedAt root prefix pos' s.
Proof.
  intros (Hbg & Hown & Harr).
  assert (∀ n prefix s, rates n → fullPathOf n prefix = Some s →
                        ∃ pos', CollectedAt n prefix pos' s) as Hrated.
  { intros n p s' [Hnor Hb] Hs. unfold fullPathOf in Hs. rewrite Hbg in Hb.
    destruct (nodeCanUseIndexOnOwnField n) eqn:Hn.
    - case_bool_decide as Hnot.
      { apply Hown in Hn. unfold isLogical in Hn. by rewrite Hnot in Hn. }
      injection Hs as <-. exists []. by constructor.
    - simpl in Hb. apply andb_true_iff in Hb as [Hnot%bool_decide_eq_true Hc].
      rewrite bool_decide_eq_true_2 in Hs by done.
      destruct (getChild n 0) as [child|] eqn:Hchild; [|done].
      simpl in Hs, Hc. injection Hs as <-. exists [0].
      apply collected_logical with child; try done.
      + destruct (arrayUsesIndexOnChildren n) eqn:Ha; [|done].
        apply Harr in Ha. unfold isLogical in Ha. by rewrite Hnot in Ha.
      + unfold isLogical. by rewrite Hnot.
      + constructor; [|done]. intros Hcn. apply Hown in Hc.
        unfold isLogical in Hc. by rewrite Hcn in Hc. }
  induction 1 as [root prefix s Hr Hs|root prefix s Hr Hnot Hs
                 |root prefix i c pos s Hd Hc _ IH]; [by eapply Hrated..|].
  destruct IH as [pos' Hpos']. destruct Hd as (Hnor & Hb & Hal).
  rewrite Hbg in Hb. apply orb_false_iff in Hb as [Hn _].
  exists (i :: pos'). unfold ratingPrefix in Hpos'.
  destruct (arrayUsesIndexOnChildren root) eqn:Ha.
  - by apply collected_array with c.
  - by apply collected_logical with c.
Qed.
End TaggingCases.

Lemma findRelevantIndices_elem fields allIndices out relevant :
  findRelevantIndices fields allIndices out = Ok relevant →
  ∀ index, index ∈ relevant ↔
           index ∈ out ∨ (index ∈ allIndices ∧ fieldName (firstElement index) ∈ fields).
Proof.
  revert out. induction allIndices as [|ix rest IH]; intros out; simpl.
  - intros [= <-] index. set_solver.
  - intros H. inv_bind H. intros index.
    specialize (IH _ H index). unfold firstElement in *.
    case_bool_decide; set_solver.
Qed.

(** ** The order of the lists of a tag *)

Section TaggingOrder.
Context {IX : Indexability} {GL : GeoLibrary}.

Lemma StronglySorted_snoc (R : relation nat) l x :
  StronglySorted R l → Forall (λ y, R y x) l → StronglySorted R (l ++ [x]).
Proof.
  intros Hl Hx. apply StronglySorted_app_2; [|done|repeat constructor].
  intros x1 x2 H1 ->%list_elem_of_singleton.
  by eapply Forall_forall in Hx.
Qed.

Lemma rateRest_ordered fullPath index node i it : ∀ rt rt',
  rateRest fullPath index node i it rt = Ok rt' →
  StronglySorted le (notFirst rt) → Forall (λ j, (j ≤ i)%nat) (notFirst rt) →
  first rt' = first rt ∧
  StronglySorted le (notFirst rt') ∧ Forall (λ j, (j ≤ i)%nat) (notFirst rt').
Proof.
  induction it as [|elt it IH]; intros rt rt'; simpl.
  - by intros [= <-].
  - intros H Hs Hb. inv_bind H. destruct a.
    + apply IH in H as (Hf & ? & ?); [done| |]; simpl.
      * by apply StronglySorted_snoc.
      * apply Forall_app. split; [done|]. by repeat constructor.
    + by apply IH in H.
Qed.

Lemma rateAll_ordered fullPath node indices : ∀ i0 rt rt',
  rateAll fullPath node i0 indices rt = Ok rt' →
  ordered i0 rt → ordered (i0 + length indices) rt'.
Proof.
  induction indices as [|index rest IH]; intros i0 rt rt'; simpl.
  - intros [= <-]. by rewrite Nat.add_0_r.
  - intros H (Hf & Hn & Hfb & Hnb). inv_bind H.
    replace (i0 + S (length rest)) with (S i0 + length rest) by lia.
    apply (IH _ _ _ H). clear H IH. unfold rateIndex in Ha.
    destruct (next (keyPattern index)) as [elt it]. inv_bind Ha.
    assert (Forall (λ j, (j ≤ i0)%nat) (notFirst rt)) as Hle.
    { eapply Forall_impl; [exact Hnb|]. simpl. lia. }
    destruct a0.
    + apply rateRest_ordered in Ha as (Hf' & Hn' & Hb'); [|done..]. simpl in *.
      split; [|split; [done|split]].
      * rewrite Hf'. by apply StronglySorted_snoc.
      * rewrite Hf'. apply Forall_app. split; [|repeat constructor].
        eapply Forall_impl; [exact Hfb|]. simpl. lia.
      * eapply Forall_impl; [exact Hb'|]. simpl. lia.
    + apply rateRest_ordered in Ha as (Hf' & Hn' & Hb'); [|done..].
      split; [by rewrite Hf'|]. split; [done|]. split.
      * rewrite Hf'. eapply Forall_impl; [exact Hfb|]. simpl. lia.
      * eapply Forall_impl; [exact Hb'|]. simpl. lia.
Qed.
End TaggingOrder.

(** ** A second tagging pass *)

Lemma forEach_fixed {A : Type} (f : A → Result A) (e : Fatal) (l : list A) :
  Forall (λ a, f a = Ok a ∨ f a = Abort e) l →
  (Forall (λ a, f a = Ok a) l ∧ forEach f l = Ok l) ∨
  (Exists (λ a, f a = Abort e) l ∧ forEach f l = Abort e).
Proof.
  induction 1 as [|a l [Ha|Ha] _ [[Hall IH]|[Hex IH]]]; simpl.
  - left. by split.
  - left. rewrite Ha, IH. by split; [constructor|].
  - right. rewrite Ha, IH. by split; [apply Exists_cons_tl|].
  - right. rewrite Ha. by split; [apply Exists_cons_hd|].
  - right. rewrite Ha. by split; [apply Exists_cons_hd|].
Qed.

Section TaggingTwice.
Context {IX : Indexability} {GL : GeoLibrary}.

Lemma rateIndices_again indices root : ∀ prefix root',
  tagBlind isBoundsGenerating → tagBlind arrayUsesIndexOnChildren →
  rateIndices root prefix indices = Ok root' →
  ∀ prefix2 indices2,
    ((∃ pos r, RatedAt root pos r) ∧
     rateIndices root' prefix2 indices2 = Abort (verify_failed 318)) ∨
    ((∀ pos r, ¬ RatedAt root pos r) ∧
     rateIndices root' prefix2 indices2 = Ok root').
Proof.
  induction root as [mt p d t cs IH] using MatchExpression_tree_ind.
  intros prefix root' Hbg Harr Hrate prefix2 indices2.
  pose proof (rateIndices_untagged _ _ _ _ Hrate) as Hun.
  apply rateIndices_cases in Hrate
    as [(-> & Hnr & Hnd)|[(Hr & Htag & s & rt & Hs & _ & Hroot')|(Hd & cs' & Hcs & ->)]].
  - right. split.
    { intros pos r Hrated. inversion Hrated; subst; done. }
    rewrite rateIndices_unfold. unfold rates, descends in *.
    case_bool_decide; [done|].
    destruct (isBoundsGenerating _); [naive_solver|].
    destruct (arrayUsesIndexOnChildren _); [naive_solver|].
    destruct (isLogical _); [naive_solver|done].
  - left. split; [exists [], (Node mt p d t cs); by constructor|].
    destruct Hr as [Hnor Hb]. rewrite rateIndices_unfold.
    rewrite (untagged_matchType _ _ Hun), (Hbg _ _ Hun), Hb.
    rewrite bool_decide_eq_false_2 by done.
    assert (is_Some (getTag root')) as [tag Htag'].
    { case_bool_decide.
      - destruct Hroot' as (child & others & _ & ->). node_simpl. by eexists.
      - subst root'. node_simpl. by eexists. }
    rewrite Htag'. case_bool_decide as Hnot; [|done].
    destruct Hroot' as (child & others & _ & ->).
    unfold getChild. by node_simpl.
  - simpl in Hcs.
    assert (Forall (λ c', ∀ prefix2,
              rateIndices c' prefix2 indices2 = Ok c' ∨
              rateIndices c' prefix2 indices2 = Abort (verify_failed 318)) cs') as Hfix.
    { eapply Forall2_transfer; [exact Hcs|exact IH|].
      intros c c' Hrc Hc prefix3.
      destruct (Hc _ _ Hbg Harr Hrc prefix3 indices2) as [[_ ?]|[_ ?]]; eauto. }
    destruct Hd as (Hnor & Hb & Hal).
    assert (isLogical (setChildren (Node mt p d t cs) cs') = isLogical (Node mt p d t cs))
      as Hlog by done.
    set (prefix3 := if arrayUsesIndexOnChildren (Node mt p d t cs)
                    then (if String.eqb p "" then prefix2 else prefix2 +:+ p +:+ ".")
                    else prefix2).
    assert (rateIndices (setChildren (Node mt p d t cs) cs') prefix2 indices2 =
            do cs'' <- forEach (λ c, rateIndices c prefix3 indices2) cs';
            Ok (setChildren (Node mt p d t cs) cs'')) as ->.
    { rewrite rateIndices_unfold.
      rewrite (untagged_matchType _ _ Hun), (Hbg _ _ Hun), Hb, (Harr _ _ Hun), Hlog.
      rewrite bool_decide_eq_false_2 by done. subst prefix3. simpl.
      destruct (arrayUsesIndexOnChildren _); [done|].
      simpl in Hal. by rewrite Hal. }
    destruct (forEach_fixed (λ c, rateIndices c prefix3 indices2)
                (verify_failed 318) cs') as [[Hall ->]|[Hex ->]].
    { eapply Forall_impl; [exact Hfix|]. intros c' Hc'. apply Hc'. }
    + right. split; [|done]. intros pos r Hrated.
      inversion Hrated as [? Hr|? Hr|? i c pos' ? _ Hc Hrc]; subst;
        try (by destruct (not_rates_descends (Node mt p d t cs))).
      simpl in Hc. destruct (Forall2_lookup_l _ _ _ _ _ Hcs Hc) as (c' & Hc' & Hrate).
      eapply Forall_lookup_1 in IH; [|exact Hc].
      eapply Forall_lookup_1 in Hall; [|exact Hc'].
      destruct (IH _ _ Hbg Harr Hrate prefix3 indices2) as [[_ Hab]|[Hno _]].
      * simpl in Hall. congruence.
      * by apply (Hno pos' r).
    + left. split; [|done].
      apply Exists_exists in Hex as (c' & Hin & Hab).
      apply list_elem_of_lookup in Hin as [i Hc'].
      destruct (Forall2_lookup_r _ _ _ _ _ Hcs Hc') as (c & Hc & Hrate).
      eapply Forall_lookup_1 in IH; [|exact Hc].
      destruct (IH _ _ Hbg Harr Hrate prefix3 indices2) as [[(pos & r & Hr) _]|[_ Hok]].
      * exists (i :: pos), r. by apply rated_below with c.
      * congruence.
Qed.
End TaggingTwice.

(** ** The sample tests of indexability *)

Lemma sample_ownFieldBounds : @ownFieldBounds sample_indexability.
Proof.
  split; [|split].
  - intros n. simpl. unfold sample_isBoundsGenerating.
    rewrite orb_comm. by destruct (getChild n 0).
  - intros [mt p d t cs]. simpl. unfold sample_nodeCanUseIndexOnOwnField.
    intros [_ H]%andb_true_iff. by destruct mt.
  - intros [mt p d t cs]. simpl. intros H%bool_decide_eq_true. simpl in H. by subst mt.
Qed.

Lemma sample_nodeCanUse_tagBlind : tagBlind sample_nodeCanUseIndexOnOwnField.
Proof. intros [mt p d t cs] [mt' p' d' t' cs']. simpl. by intros [= -> -> -> _]. Qed.

Lemma sample_bounds_tagBlind : tagBlind (@isBoundsGenerating sample_indexability).
Proof.
  intros [mt p d t cs] [mt' p' d' t' cs']. simpl. intros [= -> -> -> Hcs].
  unfold sample_isBoundsGenerating, getChild. simpl. f_equal. f_equal.
  destruct cs as [|c cs], cs' as [|c' cs']; try done. simpl in *.
  injection Hcs as Hc _. by apply sample_nodeCanUse_tagBlind.
Qed.

Lemma sample_array_tagBlind : tagBlind (@arrayUsesIndexOnChildren sample_indexability).
Proof. intros [mt p d t cs] [mt' p' d' t' cs']. simpl. by intros [= -> _]. Qed.

Lemma untagged_tagsOnce n : untagged n = n → tagsOnce n = true.
Proof.
  induction n as [mt p d t cs IH] using MatchExpression_tree_ind.
  intros Hun. apply untagged_children in Hun as [Ht Hcs]. simpl in Ht, Hcs. subst t.
  apply tagsOnce_node. split; [done|].
  apply Forall_forall. intros c Hc.
  rewrite Forall_forall in IH. rewrite Forall_forall in Hcs. by apply IH, Hcs.
Qed.

(** ** The compatibility oracle, continued *)

Section OracleBranches.
Context {GL : GeoLibrary}.

Lemma indexedFieldType_btree elt index :
  type index = INDEX_BTREE → indexedFieldType elt index = "".
Proof.
  intros Hty. unfold indexedFieldType. rewrite Hty.
  by rewrite orb_true_r.
Qed.

(** The ordinary branch on an index that is not of type TEXT. *)
Lemma compatible_ordinary elt index node :
  indexedFieldType elt index = "" → type index ≠ INDEX_TEXT →
  compatible elt index node =
  do nullOnSparse <-
    (if bool_decide (matchType node = EQ) && sparse index then
       match payload node with
       | EqualityData data => Ok (isNull data)
       | _ => Abort undefined
       end
     else Ok false);
  if nullOnSparse then Ok false
  else if bool_decide (matchType node = GEO) || bool_decide (matchType node = GEO_NEAR)
  then Ok false
  else
    do negationRefused <-
      (if bool_decide (matchType node = NOT) then
         if sparse index || multikey index then Ok true
         else
           match getChild node 0 with
           | Some child =>
               Ok (bool_decide (matchType child = REGEX)
                   || bool_decide (matchType child = MOD))
           | None => Abort undefined
           end
       else Ok false);
    Ok (negb negationRefused).
Proof.
  intros Hift Hty. unfold compatible. rewrite Hift. simpl.
  rewrite (bool_decide_eq_true_2 (type index ≠ INDEX_TEXT)) by done.
  destruct (if bool_decide (matchType node = EQ) && sparse index then _ else _)
    as [[]|]; simpl; try done.
  destruct (bool_decide (matchType node = GEO) || bool_decide (matchType node = GEO_NEAR));
    [done|].
  destruct (if bool_decide (matchType node = NOT) then _ else _) as [[]|]; done.
Qed.

Lemma compatible_ordinary_plain elt index node :
  indexedFieldType elt index = "" → type index ≠ INDEX_TEXT → plainLeaf node →
  compatible elt index node = Ok true.
Proof.
  intros Hift Hty (Heq & Hgeo & Hnear & Hnot).
  rewrite compatible_ordinary by done.
  by rewrite !bool_decide_eq_false_2 by done.
Qed.

Lemma compatible_ordinary_not elt index node child :
  indexedFieldType elt index = "" → type index ≠ INDEX_TEXT →
  matchType node = NOT → getChild node 0 = Some child →
  compatible elt index node =
  Ok (negb (sparse index || multikey index
            || bool_decide (matchType child = REGEX)
            || bool_decide (matchType child = MOD))).
Proof.
  intros Hift Hty Hnot Hchild. rewrite compatible_ordinary by done.
  rewrite Hnot, Hchild. simpl.
  by destruct (sparse index || multikey index).
Qed.

Lemma compatible_hashed elt index node :
  indexedFieldType elt index = IndexNames.HASHED →
  compatible elt index node =
  Ok (bool_decide (matchType node = MATCH_IN) || bool_decide (matchType node = EQ)).
Proof. intros Hift. unfold compatible. by rewrite Hift. Qed.

Lemma compatible_text elt index node :
  indexedFieldType elt index = IndexNames.TEXT →
  compatible elt index node = Ok (bool_decide (matchType node = TEXT)).
Proof. intros Hift. unfold compatible. by rewrite Hift. Qed.

Lemma compatible_haystack elt index node :
  indexedFieldType elt index = IndexNames.GEO_HAYSTACK →
  compatible elt index node = Ok false.
Proof. intros Hift. unfold compatible. by rewrite Hift. Qed.

Lemma compatible_2dsphere elt index node :
  indexedFieldType elt index = IndexNames.GEO_2DSPHERE →
  compatible elt index node =
  if bool_decide (matchType node = GEO) then
    match payload node with
    | GeoData gq => Ok (hasS2Region (getGeometry gq))
    | _ => Abort undefined
    end
  else if bool_decide (matchType node = GEO_NEAR) then
    match payload node with
    | GeoNearData nq => Ok (bool_decide (centroid_crs nq = SPHERE) || isNearSphere nq)
    | _ => Abort undefined
    end
  else Ok false.
Proof. intros Hift. unfold compatible. by rewrite Hift. Qed.

Lemma compatible_2d elt index node :
  indexedFieldType elt index = IndexNames.GEO_2D →
  compatible elt index node =
  if bool_decide (matchType node = GEO_NEAR) then
    match payload node with
    | GeoNearData nq => Ok (bool_decide (centroid_crs nq = FLAT))
    | _ => Abort undefined
    end
  else if bool_decide (matchType node = GEO) then
    match payload node with
    | GeoData gq =>
        if bool_decide (getPred gq ≠ WITHIN) then Ok false
        else if hasFlatRegion (getGeometry gq) then Ok true
        else match _cap (getGeometry gq) with
             | None => Ok false
             | Some cap =>
                 do _ <- verify 276 (bool_decide (crs cap = SPHERE));
                 Ok (twoDWontWrap (circle cap) index)
             end
    | _ => Abort undefined
    end
  else Ok false.
Proof. intros Hift. unfold compatible. by rewrite Hift. Qed.

Lemma recognized_cases s :
  recognized s ∨ ¬ recognized s.
Proof.
  unfold recognized.
  destruct (decide (s = "")); [tauto|].
  destruct (decide (s = IndexNames.HASHED)); [tauto|].
  destruct (decide (s = IndexNames.GEO_2DSPHERE)); [tauto|].
  destruct (decide (s = IndexNames.GEO_2D)); [tauto|].
  destruct (decide (s = IndexNames.TEXT)); [tauto|].
  destruct (decide (s = IndexNames.GEO_HAYSTACK)); tauto.
Qed.

(** The ordinary branch of a well-typed node fails only in the scan of a
    text index. *)
Lemma compatible_ordinary_Abort elt index node f :
  wellTyped node → indexedFieldType elt index = "" →
  compatible elt index node = Abort f →
  f = invariant_failed 228 ∧ type index = INDEX_TEXT ∧
  Forall (beforePath node) (keyPattern index).
Proof.
  intros (Heq & _ & _ & Hnot) Hift. unfold compatible. rewrite Hift. simpl.
  destruct (bool_decide (matchType node = EQ) && sparse index) eqn:Hes.
  - apply andb_true_iff in Hes as [He%bool_decide_eq_true _].
    destruct (Heq He) as [data ->]. simpl. destruct (isNull data); [done|].
    rewrite He. simpl. by case_bool_decide.
  - simpl.
    destruct (bool_decide (matchType node = GEO) || bool_decide (matchType node = GEO_NEAR));
      [done|].
    assert (∀ k : bool → Result bool,
              (do negationRefused <-
                 (if bool_decide (matchType node = NOT) then
                    if sparse index || multikey index then Ok true
                    else match getChild node 0 with
                         | Some child =>
                             Ok (bool_decide (matchType child = REGEX)
                                 || bool_decide (matchType child = MOD))
                         | None => Abort undefined
                         end
                  else Ok false); k negationRefused) = Abort f →
              ∃ b, k b = Abort f) as Hk.
    { intros k. destruct (decide (matchType node = NOT)) as [Hn|Hn].
      - rewrite (bool_decide_eq_true_2 _ Hn).
        destruct (sparse index || multikey index); [eauto|].
        destruct (Hnot Hn) as [child ->]. eauto.
      - rewrite (bool_decide_eq_false_2 _ Hn). eauto. }
    intros [b Hb]%Hk. destruct b; [done|].
    destruct (decide (type index = INDEX_TEXT)) as [Hty|Hty].
    2: { by rewrite (bool_decide_eq_true_2 _ Hty) in Hb. }
    rewrite (bool_decide_eq_false_2 (type index ≠ INDEX_TEXT)) in Hb by tauto.
    destruct (bool_decide (matchType node = EQ)); [done|].
    by apply specScan_abort in Hb as [-> ?].
Qed.

Lemma bind_soft {A B : Type} (m : Result A) (k : A → Result B) :
  (∃ a, m = Ok a) ∨ m = Abort undefined →
  (∀ a, (∃ b, k a = Ok b) ∨ k a = Abort undefined) →
  (∃ b, bind m k = Ok b) ∨ bind m k = Abort undefined.
Proof. intros [[a ->]| ->] Hk; simpl; [apply Hk | by right]. Qed.

(** On an index that is not of type TEXT the ordinary branch fails no
    assertion. *)
Lemma compatible_ordinary_soft elt index node :
  indexedFieldType elt index = "" → type index ≠ INDEX_TEXT →
  (∃ b, compatible elt index node = Ok b) ∨
  compatible elt index node = Abort undefined.
Proof.
  intros Hift Hty. rewrite compatible_ordinary by done.
  apply bind_soft.
  { destruct (bool_decide (matchType node = EQ) && sparse index); [|eauto].
    destruct (payload node); eauto. }
  intros [|]; [eauto|].
  destruct (bool_decide (matchType node = GEO) || bool_decide (matchType node = GEO_NEAR));
    [eauto|].
  apply bind_soft; [|eauto].
  destruct (bool_decide (matchType node = NOT)); [|eauto].
  destruct (sparse index || multikey index); [eauto|].
  destruct (getChild node 0); eauto.
Qed.
End OracleBranches.

(** ** What the enforcement leaves as it was *)

Lemma eraseFirst_sublist idx l : eraseFirst idx l `sublist_of` l.
Proof.
  induction l as [|j l IH]; simpl; [done|].
  case_bool_decide; [by apply sublist_cons | by apply sublist_skip].
Qed.

Lemma eraseFirst_filter (removable : nat → bool) idx l :
  removable idx = true →
  filter (λ i, removable i = false) (eraseFirst idx l)
  = filter (λ i, removable i = false) l.
Proof.
  intros Hr. induction l as [|j l IH]; simpl; [done|].
  case_bool_decide as Hj.
  - subst j. rewrite filter_cons_False; [done|]. by rewrite Hr.
  - rewrite !filter_cons. by rewrite IH.
Qed.

Lemma eraseFirst_absent idx l : idx ∉ l → eraseFirst idx l = l.
Proof.
  induction l as [|j l IH]; simpl; [done|]. intros Hn.
  apply not_elem_of_cons in Hn as [? ?]. rewrite bool_decide_eq_false_2 by done.
  by rewrite IH.
Qed.

Lemma tag_eta t : mkTag (tag_path t) (first t) (notFirst t) = t.
Proof. by destruct t. Qed.

Lemma setTag_getTag n : setTag n (getTag n) = n.
Proof. by destruct n. Qed.

Lemma setTag_setTag n t t' : setTag (setTag n t) t' = setTag n t'.
Proof. by destruct n. Qed.

Lemma setChildren_setChildren n cs cs' :
  setChildren (setChildren n cs) cs' = setChildren n cs'.
Proof. by destruct n. Qed.

Lemma tagShrunk_refl removable t : tagShrunk removable t t.
Proof. by repeat split. Qed.

Lemma tagShrunk_trans removable t1 t2 t3 :
  tagShrunk removable t1 t2 → tagShrunk removable t2 t3 → tagShrunk removable t1 t3.
Proof.
  intros (Hp & Hf & Hn & Hff & Hnf) (Hp' & Hf' & Hn' & Hff' & Hnf').
  repeat split; try congruence; by etrans.
Qed.

Lemma tagShrunk_mono (r r' : nat → bool) t t' :
  (∀ i, r i = true → r' i = true) → tagShrunk r t t' → tagShrunk r' t t'.
Proof.
  intros Hsub (Hp & Hf & Hn & Hff & Hnf). repeat split; try done.
  - rewrite <- (list_filter_filter_l (λ i, r' i = false) (λ i, r i = false) (first t')),
      <- (list_filter_filter_l (λ i, r' i = false) (λ i, r i = false) (first t)).
    + by rewrite Hff.
    + intros i Hi. destruct (r i) eqn:Hri; [|done]. apply Hsub in Hri. congruence.
    + intros i Hi. destruct (r i) eqn:Hri; [|done]. apply Hsub in Hri. congruence.
  - rewrite <- (list_filter_filter_l (λ i, r' i = false) (λ i, r i = false) (notFirst t')),
      <- (list_filter_filter_l (λ i, r' i = false) (λ i, r i = false) (notFirst t)).
    + by rewrite Hnf.
    + intros i Hi. destruct (r i) eqn:Hri; [|done]. apply Hsub in Hri. congruence.
    + intros i Hi. destruct (r i) eqn:Hri; [|done]. apply Hsub in Hri. congruence.
Qed.

Lemma tagShrunk_erase (removable : nat → bool) idx t :
  removable idx = true →
  tagShrunk removable t
    (mkTag (tag_path t) (eraseFirst idx (first t)) (eraseFirst idx (notFirst t))).
Proof.
  intros Hr. repeat split; simpl;
    auto using eraseFirst_sublist, eraseFirst_filter.
Qed.

Section Frame.
Context {IX : Indexability}.

Lemma Stripped_untagged removable n : ∀ n',
  Stripped removable n n' → untagged n' = untagged n.
Proof.
  induction n as [mt p d t cs IH] using MatchExpression_tree_ind.
  intros n' H. inversion H as [? t0 t' _ _ _|?|? cs' _ Hcs]; subst; [done..|].
  simpl in *. f_equal. apply Forall2_map_eq.
  eapply Forall2_with; [exact Hcs|exact IH|]. intros c c' Hc Hi. by apply Hi.
Qed.

Lemma Stripped_nodeCanUse removable n n' :
  Stripped removable n n' →
  nodeCanUseIndexOnOwnField n' = nodeCanUseIndexOnOwnField n.
Proof. intros H. by apply nodeCanUse_untagged_eq, (Stripped_untagged removable). Qed.

Lemma Stripped_opaque removable n n' :
  Stripped removable n n' → opaque n' = opaque n.
Proof. intros H. by apply opaque_untagged_eq, (Stripped_untagged removable). Qed.

Lemma Stripped_trans removable n1 : ∀ n2 n3,
  Stripped removable n1 n2 → Stripped removable n2 n3 → Stripped removable n1 n3.
Proof.
  induction n1 as [mt p d t cs IH] using MatchExpression_tree_ind.
  intros n2 n3 H12 H23.
  pose proof (Stripped_nodeCanUse _ _ _ H12) as Hown.
  pose proof (Stripped_opaque _ _ _ H12) as Hop.
  inversion H12 as [? t1 t1' Hown1 Ht1 Hs1|?|? cs2 Hop1 Hcs12]; subst; [|done|].
  - inversion H23 as [? t2 t2' Hown2 Ht2 Hs2|?|? cs3 Hop2 Hcs23]; subst; [|done|].
    + rewrite setTag_setTag. rewrite getTag_setTag in Ht2. injection Ht2 as <-.
      apply stripped_leaf with t1; [done..|]. by eapply tagShrunk_trans.
    + unfold opaque in Hop2. rewrite Hown, Hown1 in Hop2. done.
  - inversion H23 as [? t2 t2' Hown2 Ht2 Hs2|?|? cs3 Hop2 Hcs23]; subst; [|done|].
    + unfold opaque in Hop1. rewrite <- Hown, Hown2 in Hop1. done.
    + rewrite setChildren_setChildren. apply stripped_inspected; [done|].
      rewrite children_setChildren in Hcs23. simpl in *.
      clear H12 H23 Hown Hop Hop1 Hop2.
      revert cs3 Hcs23. induction Hcs12 as [|c c2 cs cs2 Hc _ IHcs];
        intros cs3 Hcs23; inversion Hcs23 as [|? c3 ? cs3' Hc23 Hcs23']; subst;
        [constructor|].
      inversion IH as [|?? IHc IHrest]; subst.
      constructor; [by eapply IHc | by apply IHcs].
Qed.

Lemma Stripped_mono (r r' : nat → bool) n : ∀ n',
  (∀ i, r i = true → r' i = true) → Stripped r n n' → Stripped r' n n'.
Proof.
  induction n as [mt p d t cs IH] using MatchExpression_tree_ind.
  intros n' Hsub H. inversion H as [? t0 t' Hown Ht Hs|?|? cs' Hop Hcs]; subst.
  - apply stripped_leaf with t0; [done..|]. by eapply tagShrunk_mono.
  - apply stripped_same.
  - apply stripped_inspected; [done|]. simpl in *.
    eapply Forall2_with; [exact Hcs|exact IH|]. intros c c' Hc Hi. by apply Hi.
Qed.

Lemma Stripped_at removable pos : ∀ root root' n,
  Stripped removable root root' → subtree pos root = Some n →
  ∃ n', subtree pos root' = Some n' ∧ Stripped removable n n'.
Proof.
  induction pos as [|i pos IH]; intros root root' n H Hsub.
  - simpl in Hsub. injection Hsub as <-. by exists root'.
  - inversion H as [? t0 t' Hown Ht Hs|?|? cs' Hop Hcs]; subst.
    + exists n. rewrite subtree_setTag. split; [done|apply stripped_same].
    + exists n. split; [done|apply stripped_same].
    + simpl in Hsub. destruct (children root !! i) as [c|] eqn:Hc; [|done].
      destruct (Forall2_lookup_l _ _ _ _ _ Hcs Hc) as (c' & Hc' & Hcc).
      destruct (IH _ _ _ Hcc Hsub) as (n' & Hn' & Hnn). exists n'.
      split; [|done]. simpl. node_simpl. by rewrite Hc'.
Qed.

Lemma Stripped_tag removable n n' :
  Stripped removable n n' →
  getTag n' = getTag n ∨
  (nodeCanUseIndexOnOwnField n = true ∧
   ∃ t t', getTag n = Some t ∧ getTag n' = Some t' ∧ tagShrunk removable t t').
Proof.
  intros H. inversion H as [? t0 t' Hown Ht Hs|?|? cs' Hop Hcs]; subst.
  - right. split; [done|]. exists t0, t'. by node_simpl.
  - by left.
  - left. by node_simpl.
Qed.

Lemma Stripped_frozen removable n n' :
  Stripped removable n n' →
  opaque n = true → nodeCanUseIndexOnOwnField n = false → n' = n.
Proof.
  intros H Hop Hown. inversion H as [? t0 t' Hown' Ht Hs|?|? cs' Hop' Hcs]; subst;
    [congruence|done|congruence].
Qed.

Lemma stripBounded_Stripped idx prefixPaths d : ∀ node node',
  stripBounded d node idx prefixPaths = Ok node' →
  Stripped (λ i, bool_decide (i = idx)) node node'.
Proof.
  induction d as [|d IH]; intros node node' Hs; [done|].
  apply stripBounded_Ok in Hs
    as [[Hown Hrm]|[(Hown & Hop & ->)|[(Hop & Hand & cs & Hcs & ->)
       |(Hop & Hand & cs1 & Hcs1 & [[Hsat ->]|(Hsat & cs2 & Hcs2 & ->)])]]].
  - apply removeIndexRelevantTag_Ok in Hrm as (tag & Htag & ->).
    apply stripped_leaf with tag; [done..|].
    apply tagShrunk_erase. by apply bool_decide_eq_true.
  - apply stripped_same.
  - apply stripped_inspected; [done|].
    eapply Forall2_impl; [exact Hcs|]. intros c c'. apply IH.
  - apply stripped_inspected; [done|].
    eapply Forall2_impl; [exact Hcs1|]. intros c c' Hc. simpl in Hc.
    destruct (carries idx c); [subst; apply stripped_same | by apply IH].
  - apply stripped_inspected; [done|].
    eapply Forall2_compose; [|exact Hcs1|exact Hcs2].
    intros c c1 c2 Hc1 Hc2. simpl in *.
    apply Stripped_trans with c1; [|by apply IH].
    destruct (carries idx c); [subst; apply stripped_same | by apply IH].
Qed.

Lemma stripFrom_Stripped removable indices : ∀ i node node',
  (∀ k index, indices !! k = Some index → type index = INDEX_TEXT →
              removable (i + k) = true) →
  stripFrom i indices node = Ok node' → Stripped removable node node'.
Proof.
  induction indices as [|index rest IH]; intros i node node' Hr; simpl.
  - intros [= <-]. apply stripped_same.
  - assert (∀ k index0, rest !! k = Some index0 → type index0 = INDEX_TEXT →
                        removable (S i + k) = true) as Hr'.
    { intros k index0 Hk Hty. replace (S i + k) with (i + S k) by lia.
      by apply (Hr (S k) index0). }
    case_bool_decide as Hty; [by apply IH|].
    intros H. inv_bind H. apply IH in H; [|done].
    apply Stripped_trans with a0; [|done].
    case_bool_decide; [|injection Ha0 as <-; apply stripped_same].
    apply stripBounded_Stripped in Ha0.
    eapply Stripped_mono; [|exact Ha0]. intros j ->%bool_decide_eq_true.
    replace i with (i + 0) by lia. apply (Hr 0 index); [done|].
    by destruct (decide (type index = INDEX_TEXT)).
Qed.
End Frame.

(** ** The enforcement, continued *)

Lemma Forall2_same {A : Type} (R : A → A → Prop) (l : list A) :
  Forall (λ a, R a a) l → Forall2 R l l.
Proof. induction 1; by constructor. Qed.

Lemma Forall2_same_inv {A : Type} (l k : list A) :
  Forall2 (λ a b, b = a) l k → k = l.
Proof. induction 1; by simplify_eq. Qed.

Lemma Forall_exists_Forall2 {A : Type} (R : A → A → Prop) (l : list A) :
  Forall (λ a, ∃ b, R a b) l → ∃ k, Forall2 R l k.
Proof.
  induction 1 as [|a l [b Hb] _ [k Hk]]; [by exists []|].
  exists (b :: k). by constructor.
Qed.

Section EnforcementAgain.
Context {IX : Indexability}.

Lemma stripBounded_unfold d node idx prefixPaths :
  stripBounded (S d) node idx prefixPaths =
  if nodeCanUseIndexOnOwnField node then removeIndexRelevantTag node idx
  else if bool_decide (matchType node = NOT) || bool_decide (matchType node = NOR)
  then Ok node
  else if bool_decide (matchType node ≠ AND) then
    do cs <- forEach (λ c, stripBounded d c idx prefixPaths) (children node);
    Ok (setChildren node cs)
  else
    do r <- andLoop (λ c, stripBounded d c idx prefixPaths) idx (children node)
              false prefixPaths;
    let '(cs, hasText, childrenPrefixPaths) := r in
    if negb hasText || negb (bool_decide (childrenPrefixPaths = ∅)) then
      do cs' <- forEach (λ c, stripBounded d c idx prefixPaths) cs;
      Ok (setChildren node cs')
    else Ok (setChildren node cs).
Proof. done. Qed.

Lemma andLoop_total strip idx cs : ∀ hasText paths cs',
  Forall2 (λ c c', if carries idx c then c' = c else strip c = Ok c') cs cs' →
  ∃ hasText' paths', andLoop strip idx cs hasText paths = Ok (cs', hasText', paths').
Proof.
  induction cs as [|c cs IH]; intros hasText paths cs' Hcs;
    inversion Hcs as [|? c' ? cs'' Hc Hrest]; subst.
  - by exists hasText, paths.
  - rewrite andLoop_cons. destruct (carries idx c).
    + subst c'. case_bool_decide.
      * destruct (IH true paths _ Hrest) as (h' & p' & ->). by exists h', p'.
      * destruct (IH hasText (paths ∖ {[path c]}) _ Hrest) as (h' & p' & ->).
        by exists h', p'.
    + rewrite Hc. simpl.
      destruct (IH hasText paths _ Hrest) as (h' & p' & ->). by exists h', p'.
Qed.

Lemma opaque_false node :
  opaque node = false →
  nodeCanUseIndexOnOwnField node = false ∧ matchType node ≠ NOT ∧ matchType node ≠ NOR.
Proof.
  unfold opaque. intros [[? Hnot%bool_decide_eq_false]%orb_false_iff
                           Hnor%bool_decide_eq_false]%orb_false_iff.
  done.
Qed.

(** One call on a node the enforcement looks below, from what its
    recursive calls return. *)
Lemma stripBounded_inspected d node idx prefixPaths cs :
  opaque node = false → matchType node ≠ AND →
  Forall2 (λ c c', stripBounded d c idx prefixPaths = Ok c') (children node) cs →
  stripBounded (S d) node idx prefixPaths = Ok (setChildren node cs).
Proof.
  intros (Hown & Hnot & Hnor)%opaque_false Hand Hcs. rewrite stripBounded_unfold, Hown.
  rewrite !bool_decide_eq_false_2, bool_decide_eq_true_2 by done. simpl.
  apply forEach_Ok in Hcs. by rewrite Hcs.
Qed.

Lemma stripBounded_and d node idx prefixPaths cs1 :
  opaque node = false → matchType node = AND →
  Forall2 (λ c c', if carries idx c then c' = c
                   else stripBounded d c idx prefixPaths = Ok c') (children node) cs1 →
  (satisfied idx prefixPaths node →
   stripBounded (S d) node idx prefixPaths = Ok (setChildren node cs1)) ∧
  (∀ cs2, ¬ satisfied idx prefixPaths node →
          Forall2 (λ c c', stripBounded d c idx prefixPaths = Ok c') cs1 cs2 →
          stripBounded (S d) node idx prefixPaths = Ok (setChildren node cs2)) ∧
  (satisfied idx prefixPaths node ∨ ¬ satisfied idx prefixPaths node).
Proof.
  intros (Hown & Hnot & Hnor)%opaque_false Hand Hcs1.
  destruct (andLoop_total (λ c, stripBounded d c idx prefixPaths) idx _
              false prefixPaths _ Hcs1) as (h' & p' & Hloop).
  pose proof (andLoop_satisfied _ _ _ _ _ _ _ Hloop) as Hsat.
  rewrite stripBounded_unfold, Hown.
  rewrite !bool_decide_eq_false_2 by (try done; by intros []).
  simpl. rewrite Hloop. simpl. split; [|split].
  - intros Hs. apply Hsat in Hs. by rewrite Hs.
  - intros cs2 Hs Hcs2.
    destruct (negb h' || negb (bool_decide (p' = ∅))); [|by destruct Hs; apply Hsat].
    apply forEach_Ok in Hcs2. by rewrite Hcs2.
  - destruct (negb h' || negb (bool_decide (p' = ∅))); [right|left; by apply Hsat].
    intros Hs. by apply Hsat in Hs.
Qed.

Lemma removeIndexRelevantTag_again node idx node' :
  tagsOnce node = true → removeIndexRelevantTag node idx = Ok node' →
  removeIndexRelevantTag node' idx = Ok node'.
Proof.
  intros Honce (tag & Htag & ->)%removeIndexRelevantTag_Ok.
  destruct node as [mt p d t cs]. simpl in Htag. subst t.
  apply tagsOnce_node in Honce as [Hnd _].
  destruct (Hnd tag eq_refl) as [Hf Hn].
  unfold removeIndexRelevantTag. simpl.
  rewrite (eraseFirst_absent idx (eraseFirst idx (first tag)))
    by (by apply eraseFirst_NoDup).
  rewrite (eraseFirst_absent idx (eraseFirst idx (notFirst tag)))
    by (by apply eraseFirst_NoDup).
  done.
Qed.

Lemma stripBounded_again idx prefixPaths d : ∀ node node',
  tagsOnce node = true →
  stripBounded d node idx prefixPaths = Ok node' →
  stripBounded d node' idx prefixPaths = Ok node'.
Proof.
  induction d as [|d IH]; intros node node' Honce Hs; [done|].
  pose proof (stripBounded_untagged _ _ _ _ _ Hs) as Hun.
  pose proof (tagsOnce_children _ Honce) as Hcsonce.
  apply stripBounded_Ok in Hs
    as [[Hown Hrm]|[(Hown & Hop & ->)|[(Hop & Hand & cs & Hcs & ->)
       |(Hop & Hand & cs1 & Hcs1 & [[Hsat ->]|(Hsat & cs2 & Hcs2 & ->)])]]].
  - rewrite stripBounded_unfold, (nodeCanUse_untagged_eq _ _ Hun), Hown.
    by apply removeIndexRelevantTag_again with node.
  - rewrite stripBounded_unfold, Hown. unfold opaque in Hop. rewrite Hown in Hop.
    simpl in Hop. by rewrite Hop.
  - rewrite <- (setChildren_setChildren node cs cs) at 2.
    apply stripBounded_inspected.
    + by rewrite (opaque_untagged_eq _ _ Hun).
    + by node_simpl.
    + node_simpl. apply Forall2_same.
      eapply Forall2_transfer; [exact Hcs|exact Hcsonce|].
      intros c c' Hc Hco. by apply IH with c.
  - rewrite <- (setChildren_setChildren node cs1 cs1) at 2.
    assert (Forall2 (λ c c', alike idx c c' ∧ tagsOnce c' = true ∧
                             (carries idx c' = false →
                              stripBounded d c' idx prefixPaths = Ok c'))
                    (children node) cs1) as Hrel.
    { eapply Forall2_with; [exact Hcs1|exact Hcsonce|].
      intros c c' Hc Hco. simpl in Hc. destruct (carries idx c) eqn:Hcar.
      - subst c'. split; [apply alike_refl|]. split; [done|]. congruence.
      - split; [|split].
        + split; [by eapply stripBounded_untagged|].
          rewrite Hcar. by eapply stripBounded_carries.
        + by eapply stripBounded_tagsOnce.
        + intros _. by apply IH with c. }
    apply stripBounded_and.
    + by rewrite (opaque_untagged_eq _ _ Hun).
    + by node_simpl.
    + node_simpl. apply Forall2_same.
      eapply Forall2_transfer; [exact Hrel|exact Hcsonce|].
      intros c c' (_ & _ & Hfix) _. simpl.
      destruct (carries idx c') eqn:Hcar; [done|by apply Hfix].
    + apply satisfied_alike with node; [by node_simpl| |done].
      node_simpl. eapply Forall2_impl; [exact Hrel|]. by intros c c' [? _].
  - rewrite <- (setChildren_setChildren node cs2 cs2) at 2.
    assert (Forall (λ c2, stripBounded d c2 idx prefixPaths = Ok c2) cs2) as Hfix.
    { assert (Forall (λ c1, tagsOnce c1 = true) cs1) as Hcs1once.
      { eapply Forall2_transfer; [exact Hcs1|exact Hcsonce|].
        intros c c1 Hc Hco. simpl in Hc. destruct (carries idx c); [by subst|].
        by eapply stripBounded_tagsOnce. }
      eapply Forall2_transfer; [exact Hcs2|exact Hcs1once|].
      intros c1 c2 Hc Hco. by apply IH with c1. }
    assert (opaque (setChildren node cs2) = false) as Hop'
      by by rewrite (opaque_untagged_eq _ _ Hun).
    assert (matchType (setChildren node cs2) = AND) as Hand' by by node_simpl.
    assert (Forall2 (λ c c', if carries idx c then c' = c
                             else stripBounded d c idx prefixPaths = Ok c')
                    (children (setChildren node cs2)) cs2) as Hloop.
    { node_simpl. apply Forall2_same. eapply Forall_impl; [exact Hfix|].
      intros c2 Hc2. simpl. by destruct (carries idx c2). }
    destruct (stripBounded_and d _ idx prefixPaths cs2 Hop' Hand' Hloop)
      as (Hyes & Hno & [Hs|Hs]).
    + by apply Hyes.
    + apply Hno; [done|]. by apply Forall2_same.
Qed.
End EnforcementAgain.

Section EnforcementSucceeds.
Context {IX : Indexability}.

Lemma Ready_inspected node :
  Ready node → opaque node = false → Forall Ready (children node).
Proof.
  intros H Hop. inversion H as [? Hown _|? _ Hop'|? _ Hcs]; subst;
    [|congruence|done].
  apply opaque_false in Hop as [? _]. congruence.
Qed.

Lemma Stripped_Ready removable n : ∀ n',
  Stripped removable n n' → Ready n → Ready n'.
Proof.
  induction n as [mt p d t cs IH] using MatchExpression_tree_ind.
  intros n' Hs Hr.
  pose proof (Stripped_nodeCanUse _ _ _ Hs) as Hown.
  pose proof (Stripped_opaque _ _ _ Hs) as Hop.
  inversion Hs as [? t0 t' Hown' Ht Hsh|?|? cs' Hop' Hcs]; subst; [|done|].
  - apply ready_leaf; [congruence|]. node_simpl. by eexists.
  - apply ready_inspected; [congruence|]. node_simpl.
    apply Ready_inspected in Hr; [|done]. simpl in *.
    assert (Forall (λ c, (∀ c', Stripped removable c c' → Ready c → Ready c') ∧ Ready c)
                   cs) as Hboth by (by apply Forall_and).
    eapply Forall2_transfer; [exact Hcs|exact Hboth|].
    intros c c' Hc [Hi Hrc]. by apply Hi.
Qed.

Lemma stripBounded_total idx prefixPaths d : ∀ node,
  (height node ≤ d)%nat → Ready node →
  ∃ node', stripBounded d node idx prefixPaths = Ok node'.
Proof.
  induction d as [|d IH]; intros node Hh Hr.
  { destruct node. simpl in Hh. lia. }
  assert (Forall (λ c, ∃ c', stripBounded d c idx prefixPaths = Ok c')
                 (children node) ∨ opaque node = true) as Hcs.
  { destruct (opaque node) eqn:Hop; [by right|]. left.
    apply Ready_inspected in Hr; [|done].
    apply Forall_forall. intros c Hc. apply IH.
    - apply height_children in Hc. lia.
    - by eapply Forall_forall in Hr. }
  inversion Hr as [? Hown [tag Htag]|? Hown Hop|? Hop Hrcs]; subst.
  - rewrite stripBounded_unfold, Hown. unfold removeIndexRelevantTag. rewrite Htag.
    by eexists.
  - rewrite stripBounded_unfold, Hown. unfold opaque in Hop. rewrite Hown in Hop.
    simpl in Hop. rewrite Hop. by eexists.
  - destruct Hcs as [Hcs|?]; [|congruence].
    destruct (decide (matchType node = AND)) as [Hand|Hand].
    + assert (∃ cs1, Forall2 (λ c c', if carries idx c then c' = c
                                      else stripBounded d c idx prefixPaths = Ok c')
                             (children node) cs1) as [cs1 Hcs1].
      { apply Forall_exists_Forall2. eapply Forall_impl; [exact Hcs|].
        intros c [c' Hc']. simpl. destruct (carries idx c); eauto. }
      destruct (stripBounded_and d node idx prefixPaths cs1 Hop Hand Hcs1)
        as (Hyes & Hno & [Hs|Hs]); [by eexists; apply Hyes|].
      assert (∃ cs2, Forall2 (λ c c', stripBounded d c idx prefixPaths = Ok c') cs1 cs2)
        as [cs2 Hcs2].
      { apply Forall_exists_Forall2. apply Forall_forall. intros c1 Hc1.
        apply list_elem_of_lookup in Hc1 as [i Hi].
        destruct (Forall2_lookup_r _ _ _ _ _ Hcs1 Hi) as (c & Hc & Hcc1).
        assert (c ∈ children node) as Hin by by eapply list_elem_of_lookup_2.
        assert (Ready c) as Hrc by by eapply Forall_forall in Hrcs.
        apply height_children in Hin. simpl in Hcc1.
        apply IH.
        - destruct (carries idx c); [subst; lia|].
          apply stripBounded_height in Hcc1. lia.
        - destruct (carries idx c); [by subst|].
          apply stripBounded_Stripped in Hcc1. by eapply Stripped_Ready. }
      eexists. by apply Hno.
    + apply Forall_exists_Forall2 in Hcs as [cs Hcs]. eexists.
      by apply stripBounded_inspected.
Qed.

Lemma gatherPrefix_total it : ∀ elt paths,
  Exists (λ e, isString e = true) (elt :: it) →
  ∃ result, gatherPrefix elt it paths = Ok result.
Proof.
  induction it as [|elt' it IH]; intros elt paths Hex; simpl.
  - destruct (isString elt) eqn:Hs; [by eexists|].
    apply Exists_cons in Hex as [?|Hex]; [congruence|]. by apply Exists_nil in Hex.
  - destruct (isString elt) eqn:Hs; [by eexists|].
    apply IH. apply Exists_cons in Hex as [?|Hex]; [congruence|done].
Qed.

Lemma stripFrom_total indices : ∀ i node,
  Ready node →
  Forall (λ index, type index = INDEX_TEXT →
                   Exists (λ e, isString e = true) (keyPattern index)) indices →
  ∃ node', stripFrom i indices node = Ok node'.
Proof.
  induction indices as [|index rest IH]; intros i node Hr Hall; simpl; [by eexists|].
  inversion Hall as [|?? Hindex Hrest]; subst.
  case_bool_decide as Hty; [by apply IH|].
  assert (type index = INDEX_TEXT) as Htext
    by by destruct (decide (type index = INDEX_TEXT)).
  specialize (Hindex Htext). unfold textIndexPrefixPaths.
  destruct (keyPattern index) as [|elt it] eqn:Hkp; [by apply Exists_nil in Hindex|].
  simpl. destruct (gatherPrefix_total it elt ∅ Hindex) as [paths ->]. simpl.
  case_bool_decide; simpl; [|by apply IH].
  unfold stripInvalidAssignmentsToTextIndex.
  destruct (stripBounded_total i paths (height node) node) as [node' Hn']; [lia|done|].
  rewrite Hn'. simpl. apply IH; [|done].
  apply stripBounded_Stripped in Hn'. by eapply Stripped_Ready.
Qed.

Lemma stripFrom_Abort indices : ∀ i node e,
  stripFrom i indices node = Abort e →
  e = verify_failed 367 ∨ e = verify_failed 499.
Proof.
  induction indices as [|index rest IH]; intros i node e; simpl; [done|].
  case_bool_decide; [apply IH|].
  intros [Hpaths|(paths & Hpaths & [Hstrip|(node' & Hstrip & Hrest)]%bind_Abort)]%bind_Abort.
  - right. unfold textIndexPrefixPaths in Hpaths.
    destruct (next (keyPattern index)) as [elt it]. by eapply gatherPrefix_Abort.
  - left. case_bool_decide; [|done].
    by eapply (strip_depth_suffices i paths (height node) node).
  - by eapply IH.
Qed.

Lemma stripFrom_nothing indices : ∀ i node,
  Forall (λ index, type index ≠ INDEX_TEXT ∨ isString (firstElement index) = true)
         indices →
  stripFrom i indices node = Ok node.
Proof.
  induction indices as [|index rest IH]; intros i node Hall; simpl; [done|].
  inversion Hall as [|?? Hindex Hrest]; subst.
  case_bool_decide as Hty; [by apply IH|].
  destruct Hindex as [?|Hs]; [done|].
  unfold textIndexPrefixPaths, firstElement in *.
  destruct (next (keyPattern index)) as [elt it]. simpl in Hs.
  destruct it; simpl; rewrite Hs; simpl;
    (rewrite bool_decide_eq_false_2 by (by intros []); by apply IH).
Qed.

Lemma unlisted_children idx node i c :
  unlisted idx node → children node !! i = Some c → unlisted idx c.
Proof.
  intros Hu Hc pos n t Hn Ht. apply (Hu (i :: pos) n t); [|done].
  simpl. by rewrite Hc.
Qed.

Lemma stripBounded_unlisted idx prefixPaths d : ∀ node node',
  unlisted idx node → stripBounded d node idx prefixPaths = Ok node' → node' = node.
Proof.
  induction d as [|d IH]; intros node node' Hu Hs; [done|].
  assert (∀ cs, Forall2 (λ c c', if carries idx c then c' = c
                                 else stripBounded d c idx prefixPaths = Ok c')
                        (children node) cs → cs = children node) as Hloop.
  { intros cs Hcs. apply Forall2_same_inv.
    apply Forall2_same_length_lookup_2; [by eapply Forall2_length|].
    intros i c c' Hc Hc'. pose proof (Forall2_lookup_lr _ _ _ _ _ _ Hcs Hc Hc') as Hcc.
    simpl in Hcc. destruct (carries idx c); [done|].
    apply (IH c c'); [|done]. by eapply unlisted_children. }
  assert (∀ cs, Forall2 (λ c c', stripBounded d c idx prefixPaths = Ok c')
                        (children node) cs → cs = children node) as Hall.
  { intros cs Hcs. apply Forall2_same_inv.
    apply Forall2_same_length_lookup_2; [by eapply Forall2_length|].
    intros i c c' Hc Hc'. pose proof (Forall2_lookup_lr _ _ _ _ _ _ Hcs Hc Hc') as Hcc.
    apply (IH c c'); [|done]. by eapply unlisted_children. }
  apply stripBounded_Ok in Hs
    as [[Hown Hrm]|[(Hown & Hop & ->)|[(Hop & Hand & cs & Hcs & ->)
       |(Hop & Hand & cs1 & Hcs1 & [[Hsat ->]|(Hsat & cs2 & Hcs2 & ->)])]]].
  - apply removeIndexRelevantTag_Ok in Hrm as (tag & Htag & ->).
    destruct (Hu [] node tag eq_refl Htag) as [Hf Hn].
    rewrite !eraseFirst_absent, tag_eta, <- Htag by done. apply setTag_getTag.
  - done.
  - rewrite (Hall _ Hcs). apply setChildren_children.
  - rewrite (Hloop _ Hcs1). apply setChildren_children.
  - rewrite (Hloop _ Hcs1) in Hcs2. rewrite (Hall _ Hcs2). apply setChildren_children.
Qed.

Lemma stripBounded_satisfied idx prefixPaths d node node' :
  matchType node = AND → opaque node = false → satisfied idx prefixPaths node →
  stripBounded d node idx prefixPaths = Ok node' →
  satisfied idx prefixPaths node' ∧
  Forall2 (λ c c', if carries idx c then c' = c
                   else stripBounded (pred d) c idx prefixPaths = Ok c')
          (children node) (children node').
Proof.
  intros Hand Hop Hsat Hs. destruct d as [|d]; [done|].
  apply stripBounded_Ok in Hs
    as [[Hown Hrm]|[(Hown & Hop' & ->)|[(_ & Hand' & _)
       |(_ & _ & cs1 & Hcs1 & [[_ ->]|(Hno & _)])]]]; try done; try congruence.
  - apply opaque_false in Hop as [? _]. congruence.
  - node_simpl. split; [|done].
    apply satisfied_alike with node; [by node_simpl| |done]. node_simpl.
    eapply Forall2_impl; [exact Hcs1|]. intros c c' Hc. simpl in Hc.
    destruct (carries idx c) eqn:Hcar; [subst; apply alike_refl|].
    split; [by eapply stripBounded_untagged|].
    rewrite Hcar. by eapply stripBounded_carries.
Qed.
End EnforcementSucceeds.

Lemma eraseFirst_comm i j l :
  eraseFirst i (eraseFirst j l) = eraseFirst j (eraseFirst i l).
Proof.
  induction l as [|k l IH]; simpl; [done|].
  destruct (decide (k = j)) as [Hj|Hj], (decide (k = i)) as [Hi|Hi].
  - by subst.
  - rewrite (bool_decide_eq_true_2 _ Hj), (bool_decide_eq_false_2 _ Hi). simpl.
    by rewrite (bool_decide_eq_true_2 _ Hj).
  - rewrite (bool_decide_eq_false_2 _ Hj), (bool_decide_eq_true_2 _ Hi). simpl.
    by rewrite (bool_decide_eq_true_2 _ Hi).
  - rewrite (bool_decide_eq_false_2 _ Hj), (bool_decide_eq_false_2 _ Hi). simpl.
    rewrite (bool_decide_eq_false_2 _ Hj), (bool_decide_eq_false_2 _ Hi).
    by rewrite IH.
Qed.

(** ** Doubles that are not finite numbers *)

Lemma nonFinite_spec f :
  nonFinite f = true → Prim2SF f = S754_nan ∨ ∃ s, Prim2SF f = S754_infinity s.
Proof.
  unfold nonFinite. destruct (is_nan f) eqn:Hnan; simpl.
  - intros _. left. unfold Prim2SF. by rewrite Hnan.
  - intros Hinf. right. unfold is_infinity in Hinf.
    rewrite FloatAxioms.eqb_spec, abs_spec in Hinf.
    change (Prim2SF infinity) with (S754_infinity false) in Hinf.
    destruct (Prim2SF f) as [s|s| |s m e]; simpl in Hinf; try done.
    by exists s.
Qed.

Lemma ltb_nonFinite (a d lo hi : float) sl ml el sh mh eh :
  Prim2SF lo = S754_finite sl ml el → Prim2SF hi = S754_finite sh mh eh →
  nonFinite a = true →
  ((a + d <? hi)%float && (lo <? a - d)%float) = false.
Proof.
  intros Hlo Hhi Ha. rewrite !ltb_spec, add_spec, sub_spec, Hlo, Hhi.
  unfold SF64add, SF64sub.
  destruct (nonFinite_spec a Ha) as [->|[s ->]]; [done|].
  destruct (Prim2SF d) as [sd|sd| |sd md ed], s; simpl; try done;
    destruct sd; simpl; try done; try (by rewrite andb_false_r).
Qed.

Section WrapEdges.
Context {GL : GeoLibrary}.

Lemma twoDWontWrap_nonFinite circle index :
  nonFinite (x (center circle)) = true ∨ nonFinite (y (center circle)) = true →
  twoDWontWrap circle index = false.
Proof.
  intros H. unfold twoDWontWrap.
  set (xd := xscandist circle index). set (yd := yscandist circle index).
  destruct H as [Hx|Hy].
  - assert (((x (center circle) + xd <? 180)%float
             && (-180 <? x (center circle) - xd)%float) = false) as ->; [|done].
    by eapply (ltb_nonFinite _ _ (-180)%float 180%float).
  - rewrite <- andb_assoc.
    assert (((y (center circle) + yd <? 90)%float
             && (-90 <? y (center circle) - yd)%float) = false) as ->.
    { by eapply (ltb_nonFinite _ _ (-90)%float 90%float). }
    by rewrite andb_false_r.
Qed.
End WrapEdges.

(** ** The options of an index *)

Lemma getField_absent obj name :
  Forall (λ e, fieldName e ≠ name) obj → getField obj name = eoo.
Proof.
  induction 1 as [|e obj He _ IH]; simpl; [done|].
  by destruct (String.eqb_spec (fieldName e) name).
Qed.

Lemma getField_first pre e post name :
  Forall (λ e', fieldName e' ≠ name) pre → fieldName e = name →
  getField (pre ++ e :: post) name = e.
Proof.
  induction 1 as [|e' pre He' _ IH]; simpl; intros He.
  - by destruct (String.eqb_spec (fieldName e) name).
  - destruct (String.eqb_spec (fieldName e') name); [done|by apply IH].
Qed.

(** ** The tag of a NOT and of its child *)

Section NegationTags.
Context {IX : Indexability} {GL : GeoLibrary}.

Lemma rateIndices_not_child pos : ∀ root prefix indices root' n rt,
  ownFieldBounds → untagged root = root →
  rateIndices root prefix indices = Ok root' →
  subtree pos root' = Some n → matchType n = NOT → getTag n = Some rt →
  ∃ child, getChild n 0 = Some child ∧ getTag child = Some rt.
Proof.
  induction pos as [|i pos IH];
    intros root prefix indices root' n rt Hlaws Hun Hrate Hsub Hnot Htag.
  - simpl in Hsub. injection Hsub as <-.
    pose proof (untagged_subtree [] root root Hun eq_refl) as Hnone.
    apply rateIndices_cases in Hrate
      as [(-> & _)|[(_ & _ & s & rt' & _ & _ & Hroot')|(_ & cs & _ & ->)]].
    + congruence.
    + case_bool_decide as Hn.
      * destruct Hroot' as (child & others & Hcs & ->).
        exists (setTag child (Some rt')). unfold getChild. node_simpl. simpl.
        split; [done|]. node_simpl. congruence.
      * subst root'. node_simpl. congruence.
    + node_simpl. congruence.
  - simpl in Hsub. destruct (children root' !! i) as [c'|] eqn:Hc'; [|done].
    assert (∀ m, subtree (i :: pos) root = Some m → getTag m = None) as Hnone.
    { intros m Hm. by eapply untagged_subtree. }
    apply rateIndices_cases in Hrate
      as [(-> & _)|[(Hr & _ & s & rt' & _ & _ & Hroot')|(_ & cs & Hcs & ->)]].
    + rewrite (Hnone n) in Htag; [done|]. simpl. by rewrite Hc'.
    + case_bool_decide as Hn.
      * destruct Hroot' as (child & others & Hcs & ->). node_simpl.
        destruct i as [|i]; simpl in Hc'.
        -- injection Hc' as <-. destruct pos as [|j pos].
           ++ simpl in Hsub. injection Hsub as <-. exfalso.
              destruct Hlaws as (Hbg & Hown & _). destruct Hr as [_ Hb].
              rewrite Hbg in Hb. unfold getChild in Hb. rewrite Hcs in Hb. simpl in Hb.
              assert (nodeCanUseIndexOnOwnField root = false) as Hroot.
              { destruct (nodeCanUseIndexOnOwnField root) eqn:Hro; [|done].
                apply Hown in Hro. unfold isLogical in Hro. by rewrite Hn in Hro. }
              rewrite Hroot, bool_decide_eq_true_2 in Hb by done. simpl in Hb.
              apply Hown in Hb. unfold isLogical in Hb.
              rewrite matchType_setTag in Hnot. by rewrite Hnot in Hb.
           ++ rewrite subtree_setTag in Hsub.
              rewrite (Hnone n) in Htag; [done|]. simpl. by rewrite Hcs.
        -- rewrite (Hnone n) in Htag; [done|]. simpl. rewrite Hcs. simpl. by rewrite Hc'.
      * subst root'. node_simpl.
        rewrite (Hnone n) in Htag; [done|]. simpl. by rewrite Hc'.
    + node_simpl. destruct (Forall2_lookup_r _ _ _ _ _ Hcs Hc') as (c & Hc & Hrc).
      apply untagged_children in Hun as [_ Hcsun].
      eapply Forall_lookup_1 in Hcsun; [|exact Hc].
      by apply (IH c (ratingPrefix root prefix) indices c' n rt).
Qed.
End NegationTags.

(** ** The failures of the tagging pass *)

Section TaggingFailures.
Context {IX : Indexability} {GL : GeoLibrary}.

(** The oracle has three assertions of its own. *)
Lemma compatible_Abort_kinds elt index node e :
  compatible elt index node = Abort e →
  e = undefined ∨ e = invariant_failed 228 ∨ e = verify_failed 276 ∨
  e = verify_failed 293.
Proof.
  destruct (recognized_cases (indexedFieldType elt index))
    as [[Hift|[Hift|[Hift|[Hift|[Hift|Hift]]]]]|Hno].
  - unfold compatible. rewrite Hift. simpl.
    intros [Hnull|(b & _ & Hrest)]%bind_Abort.
    { destruct (bool_decide (matchType node = EQ) && sparse index); [|done].
      destruct (payload node); simplify_eq/=; tauto. }
    destruct b; [done|].
    destruct (bool_decide (matchType node = GEO) || bool_decide (matchType node = GEO_NEAR));
      [done|].
    apply bind_Abort in Hrest as [Hneg|(b & _ & Hrest)].
    { destruct (bool_decide (matchType node = NOT)); [|done].
      destruct (sparse index || multikey index); [done|].
      destruct (getChild node 0); simplify_eq/=; tauto. }
    destruct b; [done|].
    destruct (bool_decide (type index ≠ INDEX_TEXT)); [done|].
    destruct (bool_decide (matchType node = EQ)); [done|].
    apply specScan_abort in Hrest as [-> _]. tauto.
  - by rewrite compatible_hashed.
  - rewrite compatible_2dsphere by done.
    destruct (bool_decide (matchType node = GEO)).
    { destruct (payload node); intros; simplify_eq/=; tauto. }
    destruct (bool_decide (matchType node = GEO_NEAR)); [|done].
    destruct (payload node); intros; simplify_eq/=; tauto.
  - rewrite compatible_2d by done.
    destruct (bool_decide (matchType node = GEO_NEAR)).
    { destruct (payload node); intros; simplify_eq/=; tauto. }
    destruct (bool_decide (matchType node = GEO)); [|done].
    destruct (payload node) as [|?|gq|?]; try (intros; simplify_eq/=; tauto).
    destruct (bool_decide (getPred gq ≠ WITHIN)); [done|].
    destruct (hasFlatRegion (getGeometry gq)); [done|].
    destruct (_cap (getGeometry gq)) as [cap|]; [|done].
    destruct (bool_decide (crs cap = SPHERE)); [done|].
    simpl. intros [= <-]. tauto.
  - by rewrite compatible_text.
  - by rewrite compatible_haystack.
  - rewrite compatible_unrecognized by done. intros [= <-]. tauto.
Qed.


Lemma rateRest_Abort fullPath index node i it : ∀ rt e,
  rateRest fullPath index node i it rt = Abort e →
  ∃ elt, elt ∈ it ∧ compatible elt index node = Abort e.
Proof.
  induction it as [|elt it IH]; intros rt e; simpl; [done|].
  intros [Hhit|(hit & _ & Hrest)]%bind_Abort.
  - exists elt. split; [by apply elem_of_cons; left|].
    by destruct (String.eqb (fieldName elt) fullPath).
  - apply IH in Hrest as (elt' & Hin & Hab). exists elt'.
    split; [by apply elem_of_cons; right|done].
Qed.

Lemma rateAll_Abort fullPath node indices : ∀ i rt e,
  rateAll fullPath node i indices rt = Abort e →
  ∃ index elt, index ∈ indices ∧
               (elt = firstElement index ∨ elt ∈ laterElements index) ∧
               compatible elt index node = Abort e.
Proof.
  induction indices as [|index rest IH]; intros i rt e; simpl; [done|].
  intros [Hix|(rt' & _ & Hrest)]%bind_Abort.
  - exists index. unfold rateIndex, firstElement, laterElements in *.
    destruct (next (keyPattern index)) as [elt it]. simpl.
    apply bind_Abort in Hix as [Hhit|(hit & _ & Hrest)].
    + exists elt. split; [by apply elem_of_cons; left|]. split; [by left|].
      by destruct (String.eqb (fieldName elt) fullPath).
    + apply rateRest_Abort in Hrest as (elt' & Hin & Hab). exists elt'.
      split; [by apply elem_of_cons; left|]. split; [by right|done].
  - apply IH in Hrest as (index' & elt & Hin & Helt & Hab). exists index', elt.
    split; [by apply elem_of_cons; right|done].
Qed.

Lemma rateIndices_Abort indices root : ∀ prefix e,
  untagged root = root → rateIndices root prefix indices = Abort e →
  (e = undefined ∧
   ∃ pos n, subtree pos root = Some n ∧ matchType n = NOT ∧ getChild n 0 = None) ∨
  (∃ index elt pos n,
     index ∈ indices ∧ (elt = firstElement index ∨ elt ∈ laterElements index) ∧
     subtree pos root = Some n ∧ compatible elt index n = Abort e).
Proof.
  induction root as [mt p d t cs IH] using MatchExpression_tree_ind.
  intros prefix e Hun. pose proof (untagged_children _ Hun) as [Ht Hcsun].
  simpl in Ht, Hcsun. subst t.
  assert (∀ prefix',
            forEach (λ c, rateIndices c prefix' indices) cs = Abort e →
            (e = undefined ∧
             ∃ pos n, subtree pos (Node mt p d None cs) = Some n ∧ matchType n = NOT ∧
                      getChild n 0 = None) ∨
            (∃ index elt pos n,
               index ∈ indices ∧ (elt = firstElement index ∨ elt ∈ laterElements index) ∧
               subtree pos (Node mt p d None cs) = Some n ∧
               compatible elt index n = Abort e)) as Hloop.
  { intros prefix' (c & Hin & Hab)%forEach_Abort.
    apply list_elem_of_lookup in Hin as [i Hi].
    eapply Forall_lookup_1 in IH; [|exact Hi].
    eapply Forall_lookup_1 in Hcsun; [|exact Hi].
    destruct (IH _ _ Hcsun Hab) as [(-> & pos & n & Hn & ?)
                                   |(index & elt & pos & n & ? & ? & Hn & ?)].
    - left. split; [done|]. exists (i :: pos), n. simpl. by rewrite Hi.
    - right. exists index, elt, (i :: pos), n. simpl. by rewrite Hi. }
  rewrite rateIndices_unfold. case_bool_decide as Hnor; [done|].
  destruct (isBoundsGenerating _).
  - intros [Hpath|(s & Hpath & [Hver|(u & _ & [Hall|(rt & Hall & Hend)]%bind_Abort)
                                 ]%bind_Abort)]%bind_Abort.
    + left. case_bool_decide as Hnot; [|done].
      destruct (getChild (Node mt p d None cs) 0) eqn:Hchild; [done|].
      injection Hpath as <-. split; [done|]. by exists [], (Node mt p d None cs).
    + done.
    + right. apply rateAll_Abort in Hall as (index & elt & ? & ? & ?).
      by exists index, elt, [], (Node mt p d None cs).
    + left. case_bool_decide as Hnot; [|done]. simpl in Hend.
      destruct cs as [|child others]; [|done]. injection Hend as <-.
      split; [done|]. by exists [], (Node mt p d None []).
  - destruct (arrayUsesIndexOnChildren _).
    { intros [Hab|(cs' & _ & ?)]%bind_Abort; [|done]. by eapply Hloop. }
    destruct (isLogical _); [|done].
    intros [Hab|(cs' & _ & ?)]%bind_Abort; [|done]. by eapply Hloop.
Qed.
End TaggingFailures.

(** ** The failures of the tagging pass on the heap *)

Section HeapFailures.
Context {IX : Indexability} {GL : GeoLibrary}.

Lemma heap_forEach_Abort prefix indices cs :
  Forall (λ c, ∀ prefix (h : list RelevantTag) e,
            allocated h c →
            TagHeap.rateIndices c prefix indices h = Abort e →
            rateIndices (TagHeap.view h c) prefix indices = Abort e) cs →
  ∀ (h : list RelevantTag) e,
    Forall (allocated h) cs →
    TagHeap.forEach (fun c h => TagHeap.rateIndices c prefix indices h) cs h = Abort e →
    forEach (fun c => rateIndices c prefix indices) (map (TagHeap.view h) cs) = Abort e.
Proof.
  induction 1 as [|c cs Hc _ IH]; intros h e Hall; simpl; [done|].
  inversion Hall as [|?? Hca Hcsa]; subst.
  intros [Hab|([c1 h1] & Hok & Hrest)]%bind_Abort.
  - by rewrite (Hc _ _ _ Hca Hab).
  - destruct (heap_rateIndices_view _ _ _ _ _ _ Hca Hok) as ([k ->] & _ & ->).
    simpl in *. apply bind_Abort in Hrest as [Hrest|(rs & _ & ?)]; [|done].
    assert (map (TagHeap.view (h ++ k)) cs = map (TagHeap.view h) cs) as Hviews.
    { apply map_ext_Forall. eapply Forall_impl; [exact Hcsa|].
      intros ??. by apply view_app. }
    rewrite <- Hviews, (IH (h ++ k) e); [done| |done].
    eapply Forall_impl; [exact Hcsa|]. intros ?. apply allocated_app.
Qed.

Lemma heap_rateIndices_Abort indices node : ∀ prefix (h : list RelevantTag) e,
  allocated h node →
  TagHeap.rateIndices node prefix indices h = Abort e →
  rateIndices (TagHeap.view h node) prefix indices = Abort e.
Proof.
  induction node as [mt p d t cs IH] using Expression_tree_ind.
  intros prefix h e Halloc Hrate.
  set (node := TagHeap.ENode mt p d t cs) in *.
  assert (Forall (allocated h) cs) as Hcs by by apply (allocated_children h node).
  rewrite rateIndices_unfold, view_matchType.
  rewrite heap_rateIndices_unfold in Hrate.
  destruct (decide (TagHeap.matchType node = NOR)) as [Hnor|Hnor].
  { by rewrite bool_decide_eq_true_2 in Hrate by done. }
  rewrite bool_decide_eq_false_2 in Hrate by done.
  rewrite bool_decide_eq_false_2 by done.
  destruct (isBoundsGenerating (TagHeap.view h node)) eqn:Hbg.
  { unfold getChild. rewrite view_children, list_lookup_fmap, view_path.
    unfold TagHeap.getChild in Hrate.
    assert ((if bool_decide (TagHeap.matchType node = NOT)
             then match TagHeap.view h <$> TagHeap.children node !! 0 with
                  | Some child => Ok (prefix +:+ path child)
                  | None => Abort undefined
                  end
             else Ok (prefix +:+ TagHeap.path node))
            = (if bool_decide (TagHeap.matchType node = NOT)
               then match TagHeap.children node !! 0 with
                    | Some child => Ok (prefix +:+ TagHeap.path child)
                    | None => Abort undefined
                    end
               else Ok (prefix +:+ TagHeap.path node))) as ->.
    { case_bool_decide; [|done].
      destruct (TagHeap.children node !! 0) as [child|]; [|done]. simpl.
      by rewrite view_path. }
    apply bind_Abort in Hrate as [Hpath|(fullPath & Hpath & Hrate)].
    { by rewrite Hpath. }
    rewrite Hpath. cbn [bind].
    assert (bool_decide (getTag (TagHeap.view h node) = None)
            = bool_decide (TagHeap.getTag node = None)) as ->.
    { unfold node in *. simpl. destruct t as [a|]; simpl; [|done].
      apply allocated_node in Halloc as [Ht _]. specialize (Ht a eq_refl).
      destruct (lookup_lt_is_Some_2 h a Ht) as [tag ->]. done. }
    apply bind_Abort in Hrate as [Hver|(u & Hver & Hrate)].
    { by rewrite Hver. }
    rewrite Hver. cbn [bind].
    apply verify_Ok, bool_decide_eq_true in Hver.
    unfold TagHeap.alloc in Hrate. cbn [fst snd] in Hrate.
    rewrite view_setTag, rateAll_setTag, view_app in Hrate by done.
    apply bind_Abort in Hrate as [Hall|(tag & Hall & Hrate)].
    { by rewrite Hall. }
    exfalso. clear IH.
    assert (TagHeap.matchType (TagHeap.setTag node (Some (length h)))
            = TagHeap.matchType node) as Hmt by done.
    assert (TagHeap.children (TagHeap.setTag node (Some (length h)))
            = TagHeap.children node) as Hch by done.
    rewrite Hmt, Hch in Hrate.
    destruct (decide (TagHeap.matchType node = NOT)) as [Hnot|Hnot].
    2: { by rewrite bool_decide_eq_false_2 in Hrate by done. }
    rewrite bool_decide_eq_true_2 in Hrate, Hpath by done.
    destruct (TagHeap.children node) as [|child others] eqn:Hchildren; [done|].
    unfold TagHeap.clone in Hrate.
    rewrite list_lookup_insert_eq in Hrate by (rewrite length_app; simpl; lia).
    cbn [bind] in Hrate. unfold TagHeap.alloc, TagHeap.copyPath in Hrate.
    cbn [fst snd] in Hrate.
    rewrite lookup_app_l in Hrate
      by (rewrite length_insert, length_app; simpl; lia).
    rewrite list_lookup_insert_eq in Hrate by (rewrite length_app; simpl; lia).
    rewrite lookup_app_r in Hrate by done.
    rewrite Nat.sub_diag in Hrate. simpl in Hrate. done. }
  rewrite view_path.
  assert (∀ prefix0,
            (do r <- TagHeap.forEach
                       (fun c h => TagHeap.rateIndices c prefix0 indices h)
                       (TagHeap.children node) h;
             Ok (TagHeap.setChildren node r.1, r.2)) = Abort e →
            (do cs0 <- forEach (fun c => rateIndices c prefix0 indices)
                         (children (TagHeap.view h node));
             Ok (setChildren (TagHeap.view h node) cs0)) = Abort e) as Hloop.
  { intros prefix0 [Hab|(r & _ & ?)]%bind_Abort; [|done].
    rewrite view_children. change (TagHeap.children node) with cs in *.
    by rewrite (heap_forEach_Abort prefix0 indices cs IH h e Hcs Hab). }
  destruct (arrayUsesIndexOnChildren (TagHeap.view h node)); [by apply Hloop|].
  destruct (isLogical (TagHeap.view h node)); [by apply Hloop|]. done.
Qed.
End HeapFailures.

(** ** The enforcement of one index after the enforcement of another *)

Section EnforcementOrder.
Context {IX : Indexability}.

Lemma setChildren_inj n cs : setChildren n cs = n → cs = children n.
Proof. destruct n. simpl. by intros [= ->]. Qed.

(** What a call that returns its argument says about the children. *)
Lemma stripBounded_fixed_children d node idx prefixPaths :
  tagsOnce node = true → opaque node = false →
  stripBounded (S d) node idx prefixPaths = Ok node →
  Forall (λ c, carries idx c = false ∨
               ¬ (matchType node = AND ∧ satisfied idx prefixPaths node) →
               stripBounded d c idx prefixPaths = Ok c) (children node).
Proof.
  intros Honce Hop Hs.
  pose proof (tagsOnce_children _ Honce) as Hcsonce.
  apply stripBounded_Ok in Hs
    as [[Hown _]|[(_ & Hop' & _)|[(_ & Hand & cs & Hcs & Heq)
       |(_ & Hand & cs1 & Hcs1 & [[Hsat Heq]|(Hsat & cs2 & Hcs2 & Heq)])]]].
  - apply opaque_false in Hop as [? _]. congruence.
  - congruence.
  - symmetry in Heq. apply setChildren_inj in Heq as ->.
    apply Forall_forall. intros c Hc _.
    apply list_elem_of_lookup in Hc as [i Hi].
    by apply (Forall2_lookup_lr _ _ _ _ _ _ Hcs Hi Hi).
  - symmetry in Heq. apply setChildren_inj in Heq as ->.
    apply Forall_forall. intros c Hc [Hcar|Hno]; [|by destruct Hno].
    apply list_elem_of_lookup in Hc as [i Hi].
    pose proof (Forall2_lookup_lr _ _ _ _ _ _ Hcs1 Hi Hi) as Hcc. simpl in Hcc.
    by rewrite Hcar in Hcc.
  - symmetry in Heq. apply setChildren_inj in Heq as ->.
    apply Forall_forall. intros c Hc _.
    apply list_elem_of_lookup in Hc as [i Hi].
    destruct (Forall2_lookup_l _ _ _ _ _ Hcs1 Hi) as (c1 & Hi1 & Hcc1).
    pose proof (Forall2_lookup_lr _ _ _ _ _ _ Hcs2 Hi1 Hi) as Hc1c.
    simpl in Hcc1, Hc1c. destruct (carries idx c) eqn:Hcar; [by subst|].
    eapply Forall_lookup_1 in Hcsonce; [|exact Hi].
    pose proof (stripBounded_again _ _ _ _ _ Hcsonce Hcc1) as Hfix.
    assert (c1 = c) as -> by congruence. done.
Qed.

Lemma stripBounded_fixed_other k pk j pj d : ∀ z z',
  j ≠ k → tagsOnce z = true →
  stripBounded d z k pk = Ok z → stripBounded d z j pj = Ok z' →
  stripBounded d z' k pk = Ok z'.
Proof.
  induction d as [|d IH]; intros z z' Hjk Honce Hk Hj; [done|].
  pose proof (stripBounded_untagged _ _ _ _ _ Hj) as Hun.
  pose proof (tagsOnce_children _ Honce) as Hcsonce.
  destruct (opaque z) eqn:Hop.
  - (* an own-field node or a negation *)
    rewrite stripBounded_unfold in Hk, Hj. rewrite stripBounded_unfold.
    rewrite (nodeCanUse_untagged_eq _ _ Hun), (untagged_matchType _ _ Hun).
    destruct (nodeCanUseIndexOnOwnField z) eqn:Hown.
    + apply removeIndexRelevantTag_Ok in Hj as (tag & Htag & ->).
      apply removeIndexRelevantTag_Ok in Hk as (tag' & Htag' & Hfix).
      assert (tag' = tag) as -> by congruence.
      apply (f_equal getTag) in Hfix. rewrite getTag_setTag, Htag in Hfix.
      injection Hfix as Hfix. destruct tag as [tp tf tn]. simpl in *.
      injection Hfix as Hf Hn.
      unfold removeIndexRelevantTag. node_simpl. simpl. rewrite setTag_setTag.
      rewrite (eraseFirst_comm k j tf), (eraseFirst_comm k j tn).
      by rewrite <- Hf, <- Hn.
    + unfold opaque in Hop. rewrite Hown in Hop. simpl in Hop. rewrite Hop in Hj |- *.
      by injection Hj as <-.
  - pose proof (stripBounded_fixed_children _ _ _ _ Honce Hop Hk) as Hfixed.
    assert (∀ c c1, c ∈ children z → stripBounded d c j pj = Ok c1 →
                    alike k c c1 ∧ tagsOnce c1 = true ∧
                    (stripBounded d c k pk = Ok c → stripBounded d c1 k pk = Ok c1))
      as Hstep.
    { intros c c1 Hc Hc1.
      assert (tagsOnce c = true) as Hco by by eapply Forall_forall in Hcsonce.
      split; [|split].
      - split; [by eapply stripBounded_untagged|].
        by eapply stripBounded_carries_other.
      - by eapply stripBounded_tagsOnce.
      - intros Hfix. by apply (IH c c1). }
    assert (∃ cs', z' = setChildren z cs' ∧
                   Forall2 (λ c c', alike k c c' ∧
                                    (stripBounded d c k pk = Ok c →
                                     stripBounded d c' k pk = Ok c'))
                           (children z) cs') as (cs' & -> & Hrel).
    { apply stripBounded_Ok in Hj
        as [[Hown _]|[(_ & Hop' & _)|[(_ & Hand & cs & Hcs & ->)
           |(_ & Hand & cs1 & Hcs1 & [[Hsat ->]|(Hsat & cs2 & Hcs2 & ->)])]]].
      - apply opaque_false in Hop as [? _]. congruence.
      - congruence.
      - exists cs. split; [done|].
        apply Forall2_same_length_lookup_2; [by eapply Forall2_length|].
        intros i c c' Hi Hi'.
        pose proof (Forall2_lookup_lr _ _ _ _ _ _ Hcs Hi Hi') as Hcc. simpl in Hcc.
        destruct (Hstep c c') as (? & _ & ?); [by eapply list_elem_of_lookup_2|done|done].
      - exists cs1. split; [done|].
        apply Forall2_same_length_lookup_2; [by eapply Forall2_length|].
        intros i c c' Hi Hi'.
        pose proof (Forall2_lookup_lr _ _ _ _ _ _ Hcs1 Hi Hi') as Hcc. simpl in Hcc.
        destruct (carries j c); [subst; split; [apply alike_refl|done]|].
        destruct (Hstep c c') as (? & _ & ?); [by eapply list_elem_of_lookup_2|done|done].
      - exists cs2. split; [done|].
        apply Forall2_same_length_lookup_2;
          [by rewrite (Forall2_length _ _ _ Hcs1), (Forall2_length _ _ _ Hcs2)|].
        intros i c c2 Hi Hi2.
        destruct (Forall2_lookup_l _ _ _ _ _ Hcs1 Hi) as (c1 & Hi1 & Hcc1).
        pose proof (Forall2_lookup_lr _ _ _ _ _ _ Hcs2 Hi1 Hi2) as Hc12. simpl in Hc12.
        assert (c ∈ children z) as Hin by by eapply list_elem_of_lookup_2.
        assert (tagsOnce c = true) as Hco by by eapply Forall_forall in Hcsonce.
        simpl in Hcc1.
        assert (alike k c c1 ∧ tagsOnce c1 = true ∧
                (stripBounded d c k pk = Ok c → stripBounded d c1 k pk = Ok c1))
          as (Hal1 & Hco1 & Hfix1).
        { destruct (carries j c); [|by apply Hstep].
          subst c1. split; [apply alike_refl|]. split; [done|tauto]. }
        split.
        + apply alike_trans with c1; [done|].
          split; [by eapply stripBounded_untagged|].
          by eapply stripBounded_carries_other.
        + intros Hfix. apply (IH c1 c2); [done..|by apply Hfix1|done]. }
    assert (Forall2 (alike k) (children z) cs') as Halike.
    { eapply Forall2_impl; [exact Hrel|]. by intros c c' [? _]. }
    assert (opaque (setChildren z cs') = false) as Hop'
      by by rewrite (opaque_untagged_eq _ _ Hun).
    rewrite <- (setChildren_setChildren z cs' cs') at 2.
    destruct (decide (matchType z = AND)) as [Hand|Hand].
    + assert (matchType (setChildren z cs') = AND) as Hand' by by node_simpl.
      assert (∀ c', c' ∈ cs' → carries k c' = false →
                    stripBounded d c' k pk = Ok c') as Hnon.
      { intros c' Hc' Hcar. apply list_elem_of_lookup in Hc' as [i Hi'].
        destruct (Forall2_lookup_r _ _ _ _ _ Hrel Hi') as (c & Hi & [Hal Hfix]).
        apply Hfix. eapply Forall_lookup_1 in Hfixed; [|exact Hi]. apply Hfixed.
        left. destruct Hal as [_ Hcc]. congruence. }
      assert (Forall2 (λ c c', if carries k c then c' = c
                               else stripBounded d c k pk = Ok c')
                      (children (setChildren z cs')) cs') as Hloop.
      { node_simpl. apply Forall2_same. apply Forall_forall. intros c' Hc'.
        destruct (carries k c') eqn:Hcar; [done|by apply Hnon]. }
      destruct (stripBounded_and d _ k pk cs' Hop' Hand' Hloop) as (Hyes & Hno & [Hs|Hs]).
      * by apply Hyes.
      * apply Hno; [done|]. apply Forall2_same. apply Forall_forall. intros c' Hc'.
        apply list_elem_of_lookup in Hc' as [i Hi'].
        destruct (Forall2_lookup_r _ _ _ _ _ Hrel Hi') as (c & Hi & [Hal Hfix]).
        apply Hfix. eapply Forall_lookup_1 in Hfixed; [|exact Hi]. apply Hfixed.
        right. intros [_ Hsat]. apply Hs.
        apply satisfied_alike with z; [by node_simpl|by node_simpl|done].
    + apply stripBounded_inspected; [done|by node_simpl|].
      node_simpl. apply Forall2_same. apply Forall_forall. intros c' Hc'.
      apply list_elem_of_lookup in Hc' as [i Hi'].
      destruct (Forall2_lookup_r _ _ _ _ _ Hrel Hi') as (c & Hi & [Hal Hfix]).
      apply Hfix. eapply Forall_lookup_1 in Hfixed; [|exact Hi]. apply Hfixed.
      right. by intros [? _].
Qed.
End EnforcementOrder.

Section EnforcementTwice.
Context {IX : Indexability}.

Lemma stripFrom_keeps_fixed indices : ∀ i z z' k pk,
  k < i → tagsOnce z = true →
  stripInvalidAssignmentsToTextIndex z k pk = Ok z →
  stripFrom i indices z = Ok z' →
  stripInvalidAssignmentsToTextIndex z' k pk = Ok z'.
Proof.
  induction indices as [|index rest IH]; intros i z z' k pk Hk Honce Hfix; simpl.
  - by intros [= <-].
  - case_bool_decide as Hty; [apply IH; [lia|done..]|].
    intros Hs. inv_bind Hs. apply (IH (S i) a0 z' k pk); [lia| | |done].
    + case_bool_decide as Hne0; [|by injection Ha0 as <-].
      by eapply stripBounded_tagsOnce.
    + case_bool_decide as Hne0; [|by injection Ha0 as <-].
      unfold stripInvalidAssignmentsToTextIndex in *.
      rewrite (stripBounded_height _ _ _ _ _ Ha0).
      apply (stripBounded_fixed_other k pk i a (height z) z a0); [lia|done..].
Qed.

Lemma stripFrom_tagsOnce indices : ∀ i z z',
  tagsOnce z = true → stripFrom i indices z = Ok z' → tagsOnce z' = true.
Proof.
  induction indices as [|index rest IH]; intros i z z' Honce; simpl.
  - by intros [= <-].
  - case_bool_decide as Hty; [by apply IH|].
    intros Hs. inv_bind Hs. apply (IH (S i) a0 z'); [|done].
    case_bool_decide as Hne0; [|by injection Ha0 as <-].
    by eapply stripBounded_tagsOnce.
Qed.

Lemma stripFrom_makes_fixed indices : ∀ i z z' k index paths,
  tagsOnce z = true → stripFrom i indices z = Ok z' →
  indices !! k = Some index → type index = INDEX_TEXT →
  textIndexPrefixPaths index = Ok paths → paths ≠ ∅ →
  stripInvalidAssignmentsToTextIndex z' (i + k) paths = Ok z'.
Proof.
  induction indices as [|index0 rest IH];
    intros i z z' k index paths Honce Hs Hk Hty Hpaths Hne; [done|].
  simpl in Hs. destruct k as [|k]; simpl in Hk.
  - injection Hk as ->. rewrite bool_decide_eq_false_2 in Hs by (by intros []).
    rewrite Hpaths in Hs. simpl in Hs. rewrite bool_decide_eq_true_2 in Hs by done.
    inv_bind Hs. rewrite Nat.add_0_r.
    apply (stripFrom_keeps_fixed rest (S i) a z' i paths); [lia| | |done].
    + by eapply stripBounded_tagsOnce.
    + unfold stripInvalidAssignmentsToTextIndex in *.
      rewrite (stripBounded_height _ _ _ _ _ Ha).
      by apply stripBounded_again with z.
  - replace (i + S k) with (S i + k) by lia.
    case_bool_decide as Hty0; [by eapply IH|].
    inv_bind Hs. apply (IH (S i) a0 z' k index paths); try done.
    case_bool_decide as Hne0; [|by injection Ha0 as <-].
    by eapply stripBounded_tagsOnce.
Qed.

Lemma stripFrom_paths indices : ∀ i z z' k index,
  stripFrom i indices z = Ok z' → indices !! k = Some index →
  type index = INDEX_TEXT → ∃ paths, textIndexPrefixPaths index = Ok paths.
Proof.
  induction indices as [|index0 rest IH]; intros i z z' k index Hs Hk Hty; [done|].
  simpl in Hs. destruct k as [|k]; simpl in Hk.
  - injection Hk as ->. rewrite bool_decide_eq_false_2 in Hs by (by intros []).
    inv_bind Hs. by exists a.
  - case_bool_decide as Hty0; [by eapply IH|]. inv_bind Hs. by eapply IH.
Qed.

Lemma stripFrom_fixed indices : ∀ i z,
  (∀ k index, indices !! k = Some index → type index = INDEX_TEXT →
              ∃ paths, textIndexPrefixPaths index = Ok paths ∧
                       (paths ≠ ∅ →
                        stripInvalidAssignmentsToTextIndex z (i + k) paths = Ok z)) →
  stripFrom i indices z = Ok z.
Proof.
  induction indices as [|index rest IH]; intros i z Hall; simpl; [done|].
  assert (stripFrom (S i) rest z = Ok z) as Hrest.
  { apply IH. intros k index0 Hk Hty. replace (S i + k) with (i + S k) by lia.
    by apply (Hall (S k) index0). }
  case_bool_decide as Hty; [done|].
  destruct (Hall 0 index eq_refl) as (paths & -> & Hfix).
  { by destruct (decide (type index = INDEX_TEXT)). }
  simpl. case_bool_decide; [|done].
  rewrite Nat.add_0_r in Hfix. by rewrite Hfix.
Qed.
End EnforcementTwice.

(** ** The tagging pass prepares the enforcement *)

Section TaggingPrepares.
Context {IX : Indexability} {GL : GeoLibrary}.

Lemma rateIndices_Ready indices root : ∀ prefix rated,
  ownFieldBounds → untagged root = root →
  (∀ pos n, subtree pos root = Some n → opaque n = false → children n ≠ [] →
            arrayUsesIndexOnChildren n || isLogical n = true) →
  rateIndices root prefix indices = Ok rated → Ready rated.
Proof.
  induction root as [mt p d t cs IH] using MatchExpression_tree_ind.
  intros prefix rated Hlaws Hun Hkinds Hrate.
  pose proof (rateIndices_untagged _ _ _ _ Hrate) as Hsame.
  pose proof (nodeCanUse_untagged_eq _ _ Hsame) as Hown'.
  pose proof (opaque_untagged_eq _ _ Hsame) as Hop'.
  destruct Hlaws as (Hbg & Hown & Harr).
  set (root := Node mt p d t cs) in *.
  assert (nodeCanUseIndexOnOwnField root = true → rates root) as Hleaf.
  { intros Ho. split.
    - intros Hnor. apply Hown in Ho. unfold isLogical in Ho. by rewrite Hnor in Ho.
    - by rewrite Hbg, Ho. }
  destruct (nodeCanUseIndexOnOwnField root) eqn:Ho.
  { (* an own-field node is rated *)
    apply ready_leaf; [congruence|].
    apply rateIndices_cases in Hrate
      as [(_ & Hnr & _)|[(_ & _ & s & rt & _ & _ & Hres)|(Hd & _)]].
    - by destruct Hnr; apply Hleaf.
    - case_bool_decide.
      + destruct Hres as (child & others & _ & ->). node_simpl. by eexists.
      + subst rated. node_simpl. by eexists.
    - destruct (not_rates_descends root); [by apply Hleaf|done]. }
  destruct (opaque root) eqn:Hop.
  { apply ready_negation; congruence. }
  apply ready_inspected; [congruence|].
  apply opaque_false in Hop as (_ & Hnot & Hnor).
  apply rateIndices_cases in Hrate
    as [(-> & _ & Hnd)|[([_ Hb] & _)|(_ & cs' & Hcs & ->)]].
  - destruct cs as [|c cs0] eqn:Hcs; [by constructor|]. exfalso. apply Hnd.
    split; [done|]. split.
    + rewrite Hbg, Ho. simpl. by rewrite bool_decide_eq_false_2.
    + apply (Hkinds [] root); [done| |done].
      unfold opaque. rewrite Ho. simpl. by rewrite !bool_decide_eq_false_2.
  - rewrite Hbg, Ho in Hb. simpl in Hb. by rewrite bool_decide_eq_false_2 in Hb.
  - node_simpl. apply untagged_children in Hun as [_ Hcsun]. simpl in Hcsun, Hcs.
    apply Forall_forall. intros c' Hc'. apply list_elem_of_lookup in Hc' as [i Hi'].
    destruct (Forall2_lookup_r _ _ _ _ _ Hcs Hi') as (c & Hi & Hrc).
    eapply Forall_lookup_1 in IH; [|exact Hi].
    eapply Forall_lookup_1 in Hcsun; [|exact Hi].
    apply (IH (ratingPrefix root prefix) c' (conj Hbg (conj Hown Harr)) Hcsun);
      [|exact Hrc].
    intros pos n Hn. apply (Hkinds (i :: pos) n). simpl. by rewrite Hi.
Qed.
End TaggingPrepares.


Section TaggingAssertions.
Context {IX : Indexability} {GL : GeoLibrary}.


End TaggingAssertions.

(** * The properties of the specification *)

(** C1. After [stripInvalidAssignmentsToTextIndexes] on a tree whose tags
    list no index twice, for every text index with a non-empty set of
    prefix paths (the names of the key elements before the first string
    element): an own-field leaf that still lists the index and that the
    enforcement inspects (it is a child of a node reached from the root
    through nodes that are not own-field leaves, NOT or NOR and do not list
    the index themselves) is a direct child of an AND that has a direct
    TEXT child listing the index and, for every prefix path, a direct child
    other than the TEXT predicate that lists the index and has that path;
    a root that is an own-field leaf does not list the index. *)
Theorem C1_text_prefix_rule {IX : Indexability}
    root indices root' idx index prefixPaths :
  tagsOnce root = true →
  stripInvalidAssignmentsToTextIndexes root indices = Ok root' →
  indices !! idx = Some index → type index = INDEX_TEXT →
  textIndexPrefixPaths index = Ok prefixPaths → prefixPaths ≠ ∅ →
  (∃ before sentinel after,
     keyPattern index = before ++ sentinel :: after ∧ isString sentinel = true ∧
     Forall (λ e, isString e = false) before ∧
     ∀ p, p ∈ prefixPaths ↔ ∃ e, e ∈ before ∧ fieldName e = p) ∧
  (nodeCanUseIndexOnOwnField root' = true → carries idx root' = false) ∧
  (∀ pos node l,
     enteredAlong idx root' pos = true → subtree pos root' = Some node →
     l ∈ children node →
     nodeCanUseIndexOnOwnField l = true → carries idx l = true →
     matchType node = AND ∧ satisfied idx prefixPaths node).
Proof.
  intros Honce Hstrip Hidx Htext Hpaths Hne.
  destruct (stripFrom_Enforced _ _ _ _ _ _ _ Hstrip Honce Hidx Htext Hpaths Hne)
    as [Henf Hroot].
  split; [by apply textIndexPrefixPaths_Ok|]. split; [done|].
  intros pos node l. by apply Enforced_at.
Qed.

Lemma C1_text_prefix_rule_witness :
  matchType (tree AND [tagged (mkTag "_fts" [] [0]) textLeaf;
                       tagged (mkTag "p" [0] []) (eqLeaf "p" (BNumber 1))]) = AND ∧
  satisfied 0 ({[ "p" ]} ∪ ∅)
    (tree AND [tagged (mkTag "_fts" [] [0]) textLeaf;
               tagged (mkTag "p" [0] []) (eqLeaf "p" (BNumber 1))]).
Proof.
  refine (proj2 (proj2 (@C1_text_prefix_rule sample_indexability
            Examples4.q_nested_rated [Examples.ix_text] Examples4.q_nested_rated
            0 Examples.ix_text ({[ "p" ]} ∪ ∅) _ _ _ _ _ _))
            [1; 0] _ (tagged (mkTag "p" [0] []) (eqLeaf "p" (BNumber 1))) _ _ _ _ _);
    try reflexivity.
  - apply (bool_decide_unpack _). by vm_compute.
  - set_solver.
Defined.

(** C1, as stated, fails for an AND that holds the text predicate deeper
    down: in {q: 1, $or: [{$text: ..., p: 1}, {r: 1}]} the inner AND meets
    the prerequisites of {p: 1, _fts: "text"} and keeps its assignments,
    so the outer AND has descendants assigned to the index and no direct
    TEXT child. *)
Lemma C1_counterexample :
  rateIndices Examples4.q_nested "" [Examples.ix_text] = Ok Examples4.q_nested_rated ∧
  stripInvalidAssignmentsToTextIndexes Examples4.q_nested_rated [Examples.ix_text]
    = Ok Examples4.q_nested_rated ∧
  matchType Examples4.q_nested_rated = AND ∧
  (∃ n, subtree [1; 0; 0] Examples4.q_nested_rated = Some n ∧ carries 0 n = true) ∧
  ¬ hasTextChild 0 Examples4.q_nested_rated.
Proof.
  split; [by vm_compute|]. split; [by vm_compute|]. split; [done|]. split.
  - eexists. split; [reflexivity|]. done.
  - intros (c & Hc & Hmt & _). simpl in Hc. set_solver.
Qed.

(** C2. An equality on null is refused by the ordinary key element of a
    sparse index, but accepted by the hashed key element of a sparse hashed
    index: the tagging pass assigns that index to the leaf {a: null}. *)
Theorem C2_null_equality_on_sparse_hashed :
  sparse Examples.ix_a_sparse = true ∧
  compatible (asc "a") Examples.ix_a_sparse Examples2.q_null = Ok false ∧
  sparse Examples.ix_a_hashed_sparse = true ∧
  compatible (family "a" "hashed") Examples.ix_a_hashed_sparse Examples2.q_null
    = Ok true ∧
  rateIndices Examples2.q_null "" [Examples.ix_a_hashed_sparse]
    = Ok (tagged (mkTag "a" [0] []) Examples2.q_null).
Proof. by repeat split. Qed.

(** C3. For a NOT node matched against an ordinary key element the oracle
    answers not-usable whenever the index is sparse or multikey, and
    whenever the negated child is a regex or a modulo predicate; after the
    tagging pass on an untagged tree, every index listed in either list of
    the tag of a NOT node is neither sparse nor multikey. *)
Theorem C3_not_never_on_sparse_or_multikey {IX : Indexability} {GL : GeoLibrary} :
  (∀ elt index node,
     indexedFieldType elt index = "" → matchType node = NOT →
     (sparse index = true ∨ multikey index = true →
      compatible elt index node = Ok false) ∧
     (∀ child, getChild node 0 = Some child →
               matchType child = REGEX ∨ matchType child = MOD →
               compatible elt index node = Ok false)) ∧
  (∀ root prefix indices root' pos n' rt i,
     untagged root = root → rateIndices root prefix indices = Ok root' →
     subtree pos root' = Some n' → matchType n' = NOT → getTag n' = Some rt →
     i ∈ first rt ∨ i ∈ notFirst rt →
     ∃ index, indices !! i = Some index ∧
              sparse index = false ∧ multikey index = false).
Proof.
  split.
  - intros elt index node Hord Hnot. split.
    + by apply compatible_ordinary_not_sparse_multikey.
    + intros child. by apply compatible_ordinary_not_regex_mod.
  - intros root prefix indices root' pos n' rt i Hun Hrate Hn' Hnot Htag Hi.
    destruct (rateIndices_subtree_inv _ _ _ _ _ _ Hrate Hn') as [n Hn].
    destruct (rateIndices_subtree _ _ _ _ _ _ Hrate Hn)
      as (n'' & Hn'' & Hsame & Hcase).
    assert (n'' = n') as -> by congruence.
    destruct Hcase as [(r & rt' & Hr & Hrt & Ht)|[_ Ht]].
    2: { rewrite (untagged_subtree _ _ _ Hun Hn) in Ht. congruence. }
    assert (rt' = rt) as -> by congruence.
    assert (matchType r = NOT) as Hrnot.
    { apply RatedAt_rater in Hr as [_ [Hsub|(q & _ & _ & ?)]]; [|done].
      assert (r = n) as -> by congruence. destruct Hsame as [? _]. congruence. }
    destruct Hrt as (fullPath & _ & Hf & Hl).
    destruct Hi as [Hi|Hi].
    + apply Hf in Hi as (index & Hix & _ & Hc). exists index. split; [done|].
      by apply (compatible_not_true (firstElement index) _ r).
    + apply Hl in Hi as (index & Hix & elt & _ & _ & Hc). exists index. split; [done|].
      by apply (compatible_not_true elt _ r).
Qed.

Lemma C3_not_never_on_sparse_or_multikey_witness :
  compatible (asc "a") Examples.ix_a_sparse Examples.q_not = Ok false ∧
  compatible (asc "a") Examples.ix_a (tree NOT [leaf REGEX "a"]) = Ok false ∧
  ∃ index, [Examples.ix_a_sparse; Examples.ix_a] !! 1 = Some index ∧
           sparse index = false ∧ multikey index = false.
Proof.
  destruct (@C3_not_never_on_sparse_or_multikey sample_indexability sample_geo)
    as [Horacle Htag].
  split; [|split].
  - apply (Horacle (asc "a") Examples.ix_a_sparse Examples.q_not); [reflexivity..|].
    left. reflexivity.
  - apply (Horacle (asc "a") Examples.ix_a (tree NOT [leaf REGEX "a"])
             eq_refl eq_refl) with (leaf REGEX "a"); [reflexivity|].
    left. reflexivity.
  - apply (Htag Examples.q_not "" [Examples.ix_a_sparse; Examples.ix_a]
             (Node NOT "" NoPayload (Some (mkTag "a" [1] []))
                [tagged (mkTag "a" [1] []) (leaf EQ "a")])
             []
             (Node NOT "" NoPayload (Some (mkTag "a" [1] []))
                [tagged (mkTag "a" [1] []) (leaf EQ "a")])
             (mkTag "a" [1] []) 1); try reflexivity.
    left. simpl. apply list_elem_of_singleton. reflexivity.
Defined.

(** C4. After the tagging pass on an untagged tree a node carries a tag
    exactly when the traversal rates it: it generates bounds, it is not a
    NOR, and every node above it is descended into (not a NOR, not
    bounds-generating, an array operator over its children or a logical
    connective); or it is the first child of such a node that is a NOT.
    The tag holds the indexes whose key elements accept the rated node, so
    the node is tagged, with two empty lists, also when no index is
    compatible. *)
Theorem C4_the_rated_nodes_are_tagged {IX : Indexability} {GL : GeoLibrary}
    root prefix indices root' pos n :
  untagged root = root → rateIndices root prefix indices = Ok root' →
  subtree pos root = Some n →
  ∃ n', subtree pos root' = Some n' ∧ sameNode n n' ∧
        (is_Some (getTag n') ↔ ∃ r, RatedAt root pos r) ∧
        (∀ r, RatedAt root pos r →
              ∃ rt, getTag n' = Some rt ∧ ratedTag indices r rt ∧
                    ((∀ index elt, index ∈ indices →
                                   compatible elt index r ≠ Ok true) →
                     first rt = [] ∧ notFirst rt = [])).
Proof.
  intros Hun Hrate Hn.
  destruct (rateIndices_subtree _ _ _ _ _ _ Hrate Hn)
    as (n' & Hn' & Hsame & Hcase).
  exists n'. split; [done|]. split; [done|].
  destruct Hcase as [(r & rt & Hr & Hrt & Ht)|[Hno Ht]].
  - split; [rewrite Ht; naive_solver|].
    intros r' Hr'. rewrite (RatedAt_unique _ _ _ _ Hr' Hr).
    exists rt. split; [done|]. split; [done|]. intros Hnone.
    destruct Hrt as (fullPath & _ & Hf & Hl).
    split; apply elem_of_nil_inv; intros i Hi.
    + apply Hf in Hi as (index & Hix & _ & Hc).
      by apply (Hnone index (firstElement index)); [eapply list_elem_of_lookup_2|].
    + apply Hl in Hi as (index & Hix & elt & _ & _ & Hc).
      by apply (Hnone index elt); [eapply list_elem_of_lookup_2|].
  - rewrite Ht, (untagged_subtree _ _ _ Hun Hn). split; [|naive_solver].
    split; [by intros [? ?]|]. intros [r Hr]. by apply Hno in Hr.
Qed.

Lemma C4_the_rated_nodes_are_tagged_witness :
  ∃ n', subtree [0] (tree AND [tagged (mkTag "a" [] []) (leaf GT "a")]) = Some n' ∧
        sameNode (leaf GT "a") n' ∧
        (is_Some (getTag n') ↔ ∃ r, RatedAt (tree AND [leaf GT "a"]) [0] r) ∧
        (∀ r, RatedAt (tree AND [leaf GT "a"]) [0] r →
              ∃ rt, getTag n' = Some rt ∧ ratedTag [] r rt ∧
                    ((∀ index elt, index ∈ [] → compatible elt index r ≠ Ok true) →
                     first rt = [] ∧ notFirst rt = [])).
Proof.
  apply (@C4_the_rated_nodes_are_tagged sample_indexability sample_geo
           (tree AND [leaf GT "a"]) "" []); reflexivity.
Defined.

(** C4, as stated, fails under a NOR: the equality leaf of
    {$nor: [{a: 5}]} generates bounds and leaves the pass without a tag. *)
Lemma C4_counterexample :
  ∃ root' n',
    rateIndices Examples2.q_nor_eq "" [Examples.ix_a] = Ok root' ∧
    subtree [0] root' = Some n' ∧
    isBoundsGenerating n' = true ∧ getTag n' = None.
Proof.
  exists Examples2.q_nor_eq, (eqLeaf "a" (BNumber 5)). by repeat split.
Qed.

(** C5. No node strictly beneath a NOR node is tagged by the tagging pass:
    whatever the NOR holds, every node below it leaves [rateIndices] with
    the tag it had.  [getFields] called on a NOR returns the set it was
    given, and every path it adds to the set anywhere in a tree comes from
    a node that has no NOR at or above it. *)
Theorem C5_nor_is_opaque {IX : Indexability} {GL : GeoLibrary} :
  (∀ root prefix indices root' q nor i pos n,
     rateIndices root prefix indices = Ok root' →
     subtree q root = Some nor → matchType nor = NOR →
     subtree (q ++ i :: pos) root = Some n →
     ∃ n', subtree (q ++ i :: pos) root' = Some n' ∧ sameNode n n' ∧
           getTag n' = getTag n) ∧
  (∀ nor prefix out, matchType nor = NOR → getFields nor prefix out = out) ∧
  (∀ root prefix out s,
     s ∈ getFields root prefix out → s ∉ out →
     ∃ pos, CollectedAt root prefix pos s ∧
            ∀ q rest nor, pos = q ++ rest → subtree q root = Some nor →
                          matchType nor ≠ NOR).
Proof.
  split; [|split].
  - intros root prefix indices root' q nor i pos n Hrate Hnor Hmt Hn.
    destruct (rateIndices_subtree _ _ _ _ _ _ Hrate Hn)
      as (n' & Hn' & Hsame & [(r & rt & Hr & _)|[_ Htag]]).
    + by apply (RatedAt_below_nor q root nor i pos r) in Hr.
    + by exists n'.
  - intros nor prefix out Hmt. rewrite getFields_unfold.
    by rewrite bool_decide_eq_true_2.
  - intros root prefix out s Hin Hout.
    apply getFields_spec in Hin as [?|[pos Hc]]; [done|].
    exists pos. split; [done|]. by apply CollectedAt_no_nor with prefix s.
Qed.

Lemma C5_nor_is_opaque_witness :
  (∃ n', subtree [1; 0] Examples.q_nor_rated = Some n' ∧
         sameNode (leaf GT "b") n' ∧ getTag n' = None) ∧
  getFields (tree NOR [leaf GT "b"]) "" ∅ = ∅ ∧
  ∃ pos, CollectedAt Examples.q_nor "" pos "a" ∧
         ∀ q rest nor, pos = q ++ rest → subtree q Examples.q_nor = Some nor →
                       matchType nor ≠ NOR.
Proof.
  destruct (@C5_nor_is_opaque sample_indexability sample_geo) as (Htag & Hnor & Hget).
  split; [|split].
  - apply (Htag Examples.q_nor "" [Examples.ix_a] Examples.q_nor_rated
             [1] (tree NOR [leaf GT "b"; eqLeaf "c" (BNumber 2)]) 0 [] (leaf GT "b"));
      reflexivity.
  - apply Hnor. reflexivity.
  - apply (Hget Examples.q_nor "" ∅ "a").
    + apply (bool_decide_unpack _). vm_compute. exact I.
    + apply not_elem_of_empty.
Defined.




(** C7. On a 2d key element the oracle accepts a GEO_NEAR leaf exactly when
    its reference point is flat.  It refuses a GEO leaf that is not a
    "within"; it accepts a "within" exactly when the geometry has a flat
    region, or has a spherical cap whose circle keeps its box strictly
    inside (-180,180)x(-90,90), the box being the center widened along y
    by the radius in degrees plus the error of the geohash grid that the
    options bits, min and max of the index describe, and along x by the
    scan distance of the geometry library at the latitude of the center; a
    box that touches or crosses a bound is refused.  [twoDWontWrap] is
    this test. *)
Theorem C7_two_d_key_element {GL : GeoLibrary} elt index node :
  indexedFieldType elt index = IndexNames.GEO_2D →
  (∀ nq, matchType node = GEO_NEAR → payload node = GeoNearData nq →
         (compatible elt index node = Ok true ↔ centroid_crs nq = FLAT) ∧
         (compatible elt index node = Ok false ↔ centroid_crs nq ≠ FLAT)) ∧
  (∀ gq, matchType node = GEO → payload node = GeoData gq →
         (getPred gq = INTERSECT → compatible elt index node = Ok false) ∧
         (compatible elt index node = Ok true ↔
          getPred gq = WITHIN ∧
          (hasFlatRegion (getGeometry gq) = true ∨
           ∃ cap, _cap (getGeometry gq) = Some cap ∧ crs cap = SPHERE ∧
                  strictlyInside (circle cap) index)) ∧
         (∀ cap, getPred gq = WITHIN → hasFlatRegion (getGeometry gq) = false →
                 _cap (getGeometry gq) = Some cap → crs cap = SPHERE →
                 touchesOrCrosses (circle cap) index →
                 compatible elt index node = Ok false)) ∧
  (∀ circle,
     (twoDWontWrap circle index = true ↔ strictlyInside circle index) ∧
     (touchesOrCrosses circle index → twoDWontWrap circle index = false)).
Proof.
  intros Hift. split; [|split].
  - intros nq Hmt Hd. rewrite (compatible_2d_near _ _ _ _ Hift Hmt Hd).
    case_bool_decide; naive_solver.
  - intros gq Hmt Hd. rewrite (compatible_2d_geo _ _ _ _ Hift Hmt Hd).
    split; [|split].
    + intros Hpred. rewrite bool_decide_eq_true_2; [done|]. by rewrite Hpred.
    + case_bool_decide as Hpred.
      { split; [done|]. by intros [? _]. }
      destruct (hasFlatRegion (getGeometry gq)) eqn:Hflat.
      { split; [|done]. intros _. split; [done|]. by left. }
      destruct (_cap (getGeometry gq)) as [cap|] eqn:Hcap.
      2: { split; [done|]. intros [_ [?|(cap & ? & _)]]; done. }
      case_bool_decide as Hcrs; simpl.
      * split.
        -- intros [= Hwrap]. apply twoDWontWrap_strictlyInside in Hwrap.
           split; [done|]. right. by exists cap.
        -- intros [_ [?|(cap' & [= <-] & _ & Hin)]]; [done|].
           apply twoDWontWrap_strictlyInside in Hin. by rewrite Hin.
      * split; [done|]. intros [_ [?|(cap' & [= <-] & ? & _)]]; done.
    + intros cap Hpred Hflat Hcap Hcrs Htouch.
      rewrite bool_decide_eq_false_2 by (by rewrite Hpred; intros Hne).
      rewrite Hflat, Hcap, (bool_decide_eq_true_2 _ Hcrs). simpl.
      by rewrite (twoDWontWrap_touchesOrCrosses _ _ Htouch).
  - intros circle. split.
    + apply twoDWontWrap_strictlyInside.
    + apply twoDWontWrap_touchesOrCrosses.
Qed.

Lemma C7_two_d_key_element_witness :
  @compatible sample_grid (family "loc" "2d") Examples6.ix_2d_options
    (Examples3.withinCap 0 0 0.5) = Ok true ∧
  @compatible sample_grid (family "loc" "2d") Examples6.ix_2d_options
    (Examples3.withinCap 130 0 0.5) = Ok false ∧
  @compatible sample_grid (family "loc" "2d") Examples6.ix_2d_options
    (Examples3.withinCap 0 65 0.5) = Ok false.
Proof.
  assert (@gridOf sample_grid Examples6.ix_2d_options Examples6.grid_options) as Hgrid.
  { split; [|split; [|split]].
    - exists 10%float. split; [|reflexivity]. by apply option_number.
    - apply option_later; [done|]. apply option_later; [done|]. by apply option_number.
    - apply option_later; [done|]. by apply option_number.
    - reflexivity. }
  split; [|split].
  - destruct (@C7_two_d_key_element sample_grid (family "loc" "2d")
                Examples6.ix_2d_options (Examples3.withinCap 0 0 0.5) eq_refl)
      as (_ & Hgeo & _).
    apply (Hgeo (mkGeoQuery WITHIN (Examples3.capAt 0 0 0.5)) eq_refl eq_refl).
    split; [reflexivity|]. right. eexists. split; [reflexivity|].
    split; [reflexivity|]. eexists _, _. split.
    + exists Examples6.grid_options. split; [exact Hgrid|]. split; reflexivity.
    + by vm_compute.
  - destruct (@C7_two_d_key_element sample_grid (family "loc" "2d")
                Examples6.ix_2d_options (Examples3.withinCap 130 0 0.5) eq_refl)
      as (_ & Hgeo & _).
    destruct (Hgeo (mkGeoQuery WITHIN (Examples3.capAt 130 0 0.5)) eq_refl eq_refl)
      as (_ & _ & Htouch).
    apply (Htouch (mkCap (mkCircle 0.5 (mkPoint 130 0)) SPHERE)); try reflexivity.
    eexists _, _. split.
    + exists Examples6.grid_options. split; [exact Hgrid|]. split; reflexivity.
    + left. by vm_compute.
  - destruct (@C7_two_d_key_element sample_grid (family "loc" "2d")
                Examples6.ix_2d_options (Examples3.withinCap 0 65 0.5) eq_refl)
      as (_ & Hgeo & _).
    destruct (Hgeo (mkGeoQuery WITHIN (Examples3.capAt 0 65 0.5)) eq_refl eq_refl)
      as (_ & _ & Htouch).
    apply (Htouch (mkCap (mkCircle 0.5 (mkPoint 0 65)) SPHERE)); try reflexivity.
    eexists _, _. split.
    + exists Examples6.grid_options. split; [exact Hgrid|]. split; reflexivity.
    + right. right. left. by vm_compute.
Defined.

(** C8. When the tagging pass rates a NOT node, the node and its child end
    with two tag objects at different addresses that hold the same path and
    the same two lists.  A write to either object, such as the removal of
    an index by the enforcement, leaves the other object as it was. *)
Theorem C8_not_clone_is_independent {IX : Indexability} {GL : GeoLibrary}
    node prefix indices (h : list RelevantTag) node' h' :
  TagHeap.matchType node = NOT →
  isBoundsGenerating (TagHeap.view h node) = true →
  TagHeap.rateIndices node prefix indices h = Ok (node', h') →
  ∃ rt childRt child' others tag,
    TagHeap.getTag node' = Some rt ∧
    TagHeap.children node' = child' :: others ∧
    TagHeap.getTag child' = Some childRt ∧
    rt ≠ childRt ∧
    h' !! rt = Some tag ∧ h' !! childRt = Some tag ∧
    (∀ t, <[childRt := t]> h' !! rt = Some tag) ∧
    (∀ t, <[rt := t]> h' !! childRt = Some tag) ∧
    (∀ idx h'',
       TagHeap.removeIndexRelevantTag child' idx h' = Ok h'' →
       h'' !! rt = Some tag ∧
       h'' !! childRt = Some (mkTag (tag_path tag) (eraseFirst idx (first tag))
                                (eraseFirst idx (notFirst tag)))) ∧
    (∀ idx h'',
       TagHeap.removeIndexRelevantTag node' idx h' = Ok h'' →
       h'' !! childRt = Some tag ∧
       h'' !! rt = Some (mkTag (tag_path tag) (eraseFirst idx (first tag))
                           (eraseFirst idx (notFirst tag)))).
Proof.
  intros Hnot Hbg Hrate.
  destruct (heap_rateIndices_not _ _ _ _ _ _ Hnot Hbg Hrate)
    as (child & others & tag & Hcs & -> & ->).
  exists (length h), (S (length h)), (TagHeap.setTag child (Some (S (length h)))),
    others, tag.
  assert ((h ++ [tag; tag]) !! length h = Some tag) as Hrt.
  { rewrite lookup_app_r, Nat.sub_diag by done. done. }
  assert ((h ++ [tag; tag]) !! S (length h) = Some tag) as Hchild.
  { rewrite lookup_app_r by lia. by replace (S (length h) - length h) with 1 by lia. }
  assert (length h < length (h ++ [tag; tag])) as Hlt1
    by (rewrite length_app; simpl; lia).
  assert (S (length h) < length (h ++ [tag; tag])) as Hlt2
    by (rewrite length_app; simpl; lia).
  split; [by destruct node|]. split; [by destruct node|].
  split; [by destruct child|]. split; [lia|]. split; [done|]. split; [done|].
  split; [intros t; by rewrite list_lookup_insert_ne by lia|].
  split; [intros t; by rewrite list_lookup_insert_ne by lia|].
  split.
  - intros idx h''. unfold TagHeap.removeIndexRelevantTag.
    replace (TagHeap.getTag (TagHeap.setTag child (Some (S (length h)))))
      with (Some (S (length h))) by by destruct child.
    rewrite Hchild. intros [= <-].
    rewrite list_lookup_insert_ne by lia. split; [done|].
    by rewrite list_lookup_insert_eq.
  - intros idx h''. unfold TagHeap.removeIndexRelevantTag.
    replace (TagHeap.getTag
               (TagHeap.setChildren (TagHeap.setTag node (Some (length h)))
                  (TagHeap.setTag child (Some (S (length h))) :: others)))
      with (Some (length h)) by by destruct node.
    rewrite Hrt. intros [= <-].
    rewrite list_lookup_insert_ne by lia. split; [done|].
    by rewrite list_lookup_insert_eq.
Qed.

Lemma C8_not_clone_is_independent_witness :
  ∃ rt childRt child' others tag,
    TagHeap.getTag Examples5.h_not_rated = Some rt ∧
    TagHeap.children Examples5.h_not_rated = child' :: others ∧
    TagHeap.getTag child' = Some childRt ∧
    rt ≠ childRt ∧
    [mkTag "a" [0] []; mkTag "a" [0] []] !! rt = Some tag ∧
    [mkTag "a" [0] []; mkTag "a" [0] []] !! childRt = Some tag ∧
    (∀ t, <[childRt := t]> [mkTag "a" [0] []; mkTag "a" [0] []] !! rt = Some tag) ∧
    (∀ t, <[rt := t]> [mkTag "a" [0] []; mkTag "a" [0] []] !! childRt = Some tag) ∧
    (∀ idx h'',
       TagHeap.removeIndexRelevantTag child' idx [mkTag "a" [0] []; mkTag "a" [0] []]
         = Ok h'' →
       h'' !! rt = Some tag ∧
       h'' !! childRt = Some (mkTag (tag_path tag) (eraseFirst idx (first tag))
                                (eraseFirst idx (notFirst tag)))) ∧
    (∀ idx h'',
       TagHeap.removeIndexRelevantTag Examples5.h_not_rated idx
         [mkTag "a" [0] []; mkTag "a" [0] []] = Ok h'' →
       h'' !! childRt = Some tag ∧
       h'' !! rt = Some (mkTag (tag_path tag) (eraseFirst idx (first tag))
                           (eraseFirst idx (notFirst tag)))).
Proof.
  apply (@C8_not_clone_is_independent sample_indexability sample_geo
           Examples5.h_not "" [Examples.ix_a] []); reflexivity.
Defined.




(** C10. One call of [removeIndexRelevantTag] on a tagged node takes the
    first occurrence of the index, if any, out of each of the two lists and
    leaves the rest of the lists, their order and the path of the tag as
    they were; an index listed twice is therefore still listed after one
    removal.  A key pattern that names a field twice after its first
    element gives such a tag. *)
Theorem C10_removal_takes_one_occurrence :
  (∀ node idx tag,
     getTag node = Some tag →
     ∃ tag',
       removeIndexRelevantTag node idx = Ok (setTag node (Some tag')) ∧
       tag_path tag' = tag_path tag ∧
       firstOccurrenceRemoved idx (first tag) (first tag') ∧
       firstOccurrenceRemoved idx (notFirst tag) (notFirst tag') ∧
       (∀ l1 l2 l3, first tag = l1 ++ idx :: l2 ++ idx :: l3 → idx ∈ first tag') ∧
       (∀ l1 l2 l3, notFirst tag = l1 ++ idx :: l2 ++ idx :: l3 →
                    idx ∈ notFirst tag')) ∧
  rateIndices (leaf GT "a") "" [Examples2.ix_repeat]
    = Ok (tagged (mkTag "a" [] [0; 0]) (leaf GT "a")) ∧
  removeIndexRelevantTag (tagged (mkTag "a" [] [0; 0]) (leaf GT "a")) 0
    = Ok (tagged (mkTag "a" [] [0]) (leaf GT "a")).
Proof.
  split; [|by split].
  intros node idx tag Htag. unfold removeIndexRelevantTag. rewrite Htag.
  eexists. split; [done|]. simpl.
  pose proof (eraseFirst_spec idx (first tag)) as Hf.
  pose proof (eraseFirst_spec idx (notFirst tag)) as Hn.
  repeat split; try done; intros l1 l2 l3 Hl.
  - by apply (firstOccurrenceRemoved_twice _ _ _ _ _ _ Hf Hl).
  - by apply (firstOccurrenceRemoved_twice _ _ _ _ _ _ Hn Hl).
Qed.

Lemma C10_removal_takes_one_occurrence_witness :
  ∃ tag',
    removeIndexRelevantTag (tagged (mkTag "a" [1; 0] [0; 2; 0]) (leaf GT "a")) 0
      = Ok (setTag (tagged (mkTag "a" [1; 0] [0; 2; 0]) (leaf GT "a")) (Some tag')) ∧
    tag_path tag' = "a" ∧
    firstOccurrenceRemoved 0 [1; 0] (first tag') ∧
    firstOccurrenceRemoved 0 [0; 2; 0] (notFirst tag') ∧
    (∀ l1 l2 l3, [1; 0] = l1 ++ 0 :: l2 ++ 0 :: l3 → 0 ∈ first tag') ∧
    (∀ l1 l2 l3, [0; 2; 0] = l1 ++ 0 :: l2 ++ 0 :: l3 → 0 ∈ notFirst tag').
Proof.
  apply (proj1 C10_removal_takes_one_occurrence
           (tagged (mkTag "a" [1; 0] [0; 2; 0]) (leaf GT "a")) 0
           (mkTag "a" [1; 0] [0; 2; 0])).
  reflexivity.
Defined.


(** * Further properties of the code *)

(** X1. [getFields] only adds to the set it is given: called with a set
    [out] it returns the union of [out] and of what it returns for the
    empty set. *)
Theorem X1_getFields_accumulates {IX : Indexability} node prefix out :
  getFields node prefix out = getFields node prefix ∅ ∪ out.
Proof. apply getFields_union. Qed.

(** X2. The prefix handed to [getFields] is prepended to every path it
    collects: the paths collected under the prefix [a +:+ b] are the paths
    collected under [b], each with [a] in front; in particular the paths
    collected under a prefix are those collected under the empty prefix
    with the prefix in front. *)
Theorem X2_getFields_prefix {IX : Indexability} node a b s :
  s ∈ getFields node (a +:+ b) ∅ ↔ ∃ s', s = a +:+ s' ∧ s' ∈ getFields node b ∅.
Proof.
  rewrite getFields_spec. setoid_rewrite getFields_spec. split.
  - intros [[]%not_elem_of_empty|[pos (s' & -> & Hs')%CollectedAt_prefix_inv]].
    exists s'. split; [done|]. right. by exists pos.
  - intros (s' & -> & [[]%not_elem_of_empty|[pos Hs']]). right. exists pos.
    by apply CollectedAt_prefix.
Qed.

(** X3. [getFields] misses no indexable node it can reach: a node that can
    use an index on its own field, under no NOR and reached from the root
    through array operators that pass their field down and logical
    connectives only, has its dotted path in the result, whatever the set
    held before. *)
Theorem X3_getFields_complete {IX : Indexability} root prefix out pos s :
  CollectedAt root prefix pos s → s ∈ getFields root prefix out.
Proof. intros H. apply getFields_spec. right. by exists pos. Qed.

Lemma X3_getFields_complete_witness :
  "a.b" ∈ @getFields sample_indexability
            (Node ELEM_MATCH_OBJECT "a" NoPayload None [leaf GT "b"]) "" ∅.
Proof.
  apply (@X3_getFields_complete sample_indexability
           (Node ELEM_MATCH_OBJECT "a" NoPayload None [leaf GT "b"]) "" ∅ [0] "a.b").
  apply (@collected_array sample_indexability _ "" 0 (leaf GT "b") [] "a.b");
    try done.
  by apply (@collected_here sample_indexability (leaf GT "b") "a.").
Defined.

(** X4. [findRelevantIndices] appends to the vector of its caller, in the
    order of the catalog, exactly the indexes whose first key element is
    named as one of the fields; what the vector held before the call stays
    at its front, so a vector that is not empty is not cleared.  An index
    with an empty key pattern anywhere in the catalog fails the assertion
    of line 118, whether or not other indexes are relevant. *)
Theorem X4_findRelevantIndices_filters :
  (∀ fields allIndices out,
     Forall (λ index, keyPattern index ≠ []) allIndices →
     findRelevantIndices fields allIndices out
     = Ok (out ++ filter (λ index, fieldName (firstElement index) ∈ fields) allIndices)) ∧
  (∀ fields allIndices out,
     ¬ Forall (λ index, keyPattern index ≠ []) allIndices →
     findRelevantIndices fields allIndices out = Abort (verify_failed 118)).
Proof. split; [apply findRelevantIndices_Ok | apply findRelevantIndices_Abort]. Qed.

Lemma X4_findRelevantIndices_filters_witness :
  findRelevantIndices {[ "a" ]} [btree [asc "b"]; btree [asc "a"; asc "b"]]
    [btree [asc "c"]]
  = Ok ([btree [asc "c"]] ++
        filter (λ index, fieldName (firstElement index) ∈ ({[ "a" ]} : gset string))
          [btree [asc "b"]; btree [asc "a"; asc "b"]]) ∧
  findRelevantIndices {[ "a" ]} [btree [asc "a"]; btree []] []
  = Abort (verify_failed 118).
Proof.
  split.
  - apply (proj1 X4_findRelevantIndices_filters). by repeat constructor.
  - apply (proj2 X4_findRelevantIndices_filters).
    intros Hall. by inversion Hall as [|?? _ Hrest]; inversion Hrest.
Defined.

(** X5. The tag [rateIndices] puts on a node records the dotted path the
    node was rated for (the prefix, the paths of the array operators
    descended through, each followed by a dot, then the path of the node,
    or of its first child for a NOT), and every index the tag lists has a
    key element of exactly that name: its first element for the first
    list, a later element for the second list. *)
Theorem X5_tag_names_key_elements {IX : Indexability} {GL : GeoLibrary}
    root prefix indices root' pos s :
  rateIndices root prefix indices = Ok root' → TagPathAt root prefix pos s →
  ∃ n' rt,
    subtree pos root' = Some n' ∧ getTag n' = Some rt ∧ tag_path rt = s ∧
    (∀ i, i ∈ first rt →
          ∃ index, indices !! i = Some index ∧ fieldName (firstElement index) = s) ∧
    (∀ i, i ∈ notFirst rt →
          ∃ index elt, indices !! i = Some index ∧ elt ∈ laterElements index ∧
                       fieldName elt = s).
Proof.
  intros Hrate Hpath.
  destruct (TagPathAt_tag _ _ _ _ Hpath _ _ Hrate) as (n' & rt & node & Hn' & Htag & Hall).
  apply rateAll_Ok in Hall as (Hp & Hf & Hn). simpl in *.
  exists n', rt. repeat split; try done.
  - intros i [[]%elem_of_nil|(k & index & -> & Hk & Hname & _)]%Hf. by exists index.
  - intros i [[]%elem_of_nil|(k & index & -> & Hk & elt & Hin & Hname & _)]%Hn.
    by exists index, elt.
Qed.

Lemma X5_tag_names_key_elements_witness :
  ∃ n' rt,
    subtree [0] (Node ELEM_MATCH_OBJECT "a" NoPayload None
                   [tagged (mkTag "a.b" [1] [0]) (leaf GT "b")]) = Some n' ∧
    getTag n' = Some rt ∧ tag_path rt = "a.b" ∧
    (∀ i, i ∈ first rt →
          ∃ index, [btree [asc "c"; asc "a.b"]; btree [asc "a.b"]] !! i = Some index ∧
                   fieldName (firstElement index) = "a.b") ∧
    (∀ i, i ∈ notFirst rt →
          ∃ index elt, [btree [asc "c"; asc "a.b"]; btree [asc "a.b"]] !! i = Some index ∧
                       elt ∈ laterElements index ∧ fieldName elt = "a.b").
Proof.
  apply (@X5_tag_names_key_elements sample_indexability sample_geo
           (Node ELEM_MATCH_OBJECT "a" NoPayload None [leaf GT "b"]) ""
           [btree [asc "c"; asc "a.b"]; btree [asc "a.b"]]).
  - reflexivity.
  - apply (@tag_path_below sample_indexability _ "" 0 (leaf GT "b")); [done..|].
    by constructor.
Defined.

(** X6. The prefilter loses no first-element assignment.  When the tests
    of indexability are related as in indexability.h (a node generates
    bounds exactly if it can use an index on its own field or is a NOT
    whose first child can; a logical connective neither can use an index
    on its own field nor is an array operator), every index that
    [rateIndices], run on an untagged tree against the whole catalog,
    lists in the first list of a tag has its first key element named as a
    field that [getFields] collects from the same tree, and so is among
    the indexes [findRelevantIndices] returns for these fields, whatever
    the vector it appends to held before. *)
Theorem X6_relevant_indexes_cover_first_lists {IX : Indexability} {GL : GeoLibrary}
    root prefix allIndices root' pos n' rt i :
  ownFieldBounds → untagged root = root →
  rateIndices root prefix allIndices = Ok root' →
  subtree pos root' = Some n' → getTag n' = Some rt → i ∈ first rt →
  ∃ index,
    allIndices !! i = Some index ∧
    fieldName (firstElement index) ∈ getFields root prefix ∅ ∧
    ∀ out relevant,
      findRelevantIndices (getFields root prefix ∅) allIndices out = Ok relevant →
      index ∈ relevant.
Proof.
  intros Hlaws Hun Hrate Hn' Htag Hi.
  destruct (rateIndices_subtree_inv _ _ _ _ _ _ Hrate Hn') as [n Hn].
  destruct (rateIndices_subtree _ _ _ _ _ _ Hrate Hn)
    as (n'' & Hn'' & _ & [(r & rt' & Hr & _ & Ht)|[_ Ht]]).
  2: { rewrite (untagged_subtree _ _ _ Hun Hn) in Ht. congruence. }
  destruct (RatedAt_TagPathAt _ _ _ Hr _ _ _ Hrate) as [s Hs].
  destruct (TagPathAt_tag _ _ _ _ Hs _ _ Hrate) as (m & rt'' & node & Hm & Htag' & Hall).
  assert (rt'' = rt) as -> by congruence.
  apply rateAll_Ok in Hall as (_ & Hf & _). simpl in Hf.
  apply Hf in Hi as [[]%elem_of_nil|(k & index & -> & Hk & Hname & _)].
  destruct (TagPathAt_CollectedAt _ _ _ _ Hlaws Hs) as [pos' Hc].
  assert (fieldName (firstElement index) ∈ getFields root prefix ∅) as Hin.
  { rewrite Hname. apply getFields_spec. right. by exists pos'. }
  exists index. split; [done|]. split; [done|]. intros out relevant Hrel.
  apply (findRelevantIndices_elem _ _ _ _ Hrel). right. split; [|done].
  by eapply list_elem_of_lookup_2.
Qed.

Lemma X6_relevant_indexes_cover_first_lists_witness :
  ∃ index,
    [btree [asc "b"]; btree [asc "a"; asc "b"]] !! 1 = Some index ∧
    fieldName (firstElement index)
      ∈ @getFields sample_indexability (tree AND [tree NOT [leaf EQ "a"]]) "" ∅ ∧
    ∀ out relevant,
      findRelevantIndices
        (@getFields sample_indexability (tree AND [tree NOT [leaf EQ "a"]]) "" ∅)
        [btree [asc "b"]; btree [asc "a"; asc "b"]] out = Ok relevant →
      index ∈ relevant.
Proof.
  apply (@X6_relevant_indexes_cover_first_lists sample_indexability sample_geo
           (tree AND [tree NOT [leaf EQ "a"]]) ""
           [btree [asc "b"]; btree [asc "a"; asc "b"]]
           (tree AND [Node NOT "" NoPayload (Some (mkTag "a" [1] []))
                        [tagged (mkTag "a" [1] []) (leaf EQ "a")]])
           [0; 0] (tagged (mkTag "a" [1] []) (leaf EQ "a")) (mkTag "a" [1] []) 1).
  - apply sample_ownFieldBounds.
  - reflexivity.
  - reflexivity.
  - reflexivity.
  - reflexivity.
  - simpl. apply list_elem_of_singleton. reflexivity.
Defined.

(** X7. After [rateIndices] on an untagged tree the two lists of every tag
    are in the order of the catalog and hold positions of the catalog: the
    first list is strictly increasing, so it names no index twice; the
    second is increasing and may repeat an index. *)
Theorem X7_tag_lists_in_catalog_order {IX : Indexability} {GL : GeoLibrary}
    root prefix indices root' pos n' rt :
  untagged root = root → rateIndices root prefix indices = Ok root' →
  subtree pos root' = Some n' → getTag n' = Some rt →
  ordered (length indices) rt.
Proof.
  intros Hun Hrate Hn' Htag.
  destruct (rateIndices_tag_origin _ _ _ _ _ _ _ Hrate Hn' Htag)
    as [(s & node & Hall)|(n & Hn & Hnt)].
  - apply rateAll_ordered in Hall; [done|]. by repeat split; constructor.
  - rewrite (untagged_subtree _ _ _ Hun Hn) in Hnt. done.
Qed.

Lemma X7_tag_lists_in_catalog_order_witness :
  ordered 2 (mkTag "a" [0; 1] [1; 1]).
Proof.
  apply (@X7_tag_lists_in_catalog_order sample_indexability sample_geo
           (leaf GT "a") "" [btree [asc "a"]; btree [asc "a"; asc "a"; asc "a"]]
           (tagged (mkTag "a" [0; 1] [1; 1]) (leaf GT "a")) []
           (tagged (mkTag "a" [0; 1] [1; 1]) (leaf GT "a"))); reflexivity.
Defined.

(** X8. The two passes composed.  When no key pattern of the catalog names
    a field twice after its first element, [rateIndices] on an untagged
    tree yields tags that list no index twice, and after
    [stripInvalidAssignmentsToTextIndexes] on that result, for every text
    index with a non-empty prefix, an own-field leaf the enforcement
    inspects lists the index only as a direct child of an AND that has a
    direct TEXT child listing the index and a direct child listing it for
    every prefix path. *)
Theorem X8_tagging_then_enforcement {IX : Indexability} {GL : GeoLibrary}
    root prefix indices rated root' idx index prefixPaths :
  untagged root = root →
  Forall (λ index, NoDup (map fieldName (laterElements index))) indices →
  rateIndices root prefix indices = Ok rated →
  stripInvalidAssignmentsToTextIndexes rated indices = Ok root' →
  indices !! idx = Some index → type index = INDEX_TEXT →
  textIndexPrefixPaths index = Ok prefixPaths → prefixPaths ≠ ∅ →
  tagsOnce rated = true ∧
  (nodeCanUseIndexOnOwnField root' = true → carries idx root' = false) ∧
  (∀ pos node l,
     enteredAlong idx root' pos = true → subtree pos root' = Some node →
     l ∈ children node →
     nodeCanUseIndexOnOwnField l = true → carries idx l = true →
     matchType node = AND ∧ satisfied idx prefixPaths node).
Proof.
  intros Hun Hkeys Hrate Hstrip Hidx Htext Hpaths Hne.
  assert (tagsOnce rated = true) as Honce.
  { eapply rateIndices_tagsOnce; [exact Hkeys|exact Hrate|by apply untagged_tagsOnce]. }
  destruct (stripFrom_Enforced _ _ _ _ _ _ _ Hstrip Honce Hidx Htext Hpaths Hne)
    as [Henf Hroot].
  split; [done|]. split; [done|]. intros pos node l. by apply Enforced_at.
Qed.

Lemma X8_tagging_then_enforcement_witness :
  tagsOnce Examples4.q_nested_rated = true ∧
  matchType (tree AND [tagged (mkTag "_fts" [] [0]) textLeaf;
                       tagged (mkTag "p" [0] []) (eqLeaf "p" (BNumber 1))]) = AND ∧
  satisfied 0 ({[ "p" ]} ∪ ∅)
    (tree AND [tagged (mkTag "_fts" [] [0]) textLeaf;
               tagged (mkTag "p" [0] []) (eqLeaf "p" (BNumber 1))]).
Proof.
  destruct (@X8_tagging_then_enforcement sample_indexability sample_geo
              Examples4.q_nested "" [Examples.ix_text] Examples4.q_nested_rated
              Examples4.q_nested_rated 0 Examples.ix_text ({[ "p" ]} ∪ ∅))
    as (Honce & _ & Hat); try reflexivity.
  - repeat constructor. set_solver.
  - set_solver.
  - split; [exact Honce|].
    apply (Hat [1; 0] _ (tagged (mkTag "p" [0] []) (eqLeaf "p" (BNumber 1))));
      try reflexivity.
    set_solver.
Defined.

(** X9. [rateIndices] cannot be run twice.  When the tests of indexability
    read the expression and not its tags, a second call on the result of a
    first one fails the assertion of line 318 as soon as the first call
    rated at least one node, whatever prefix and catalog it is given; when
    the first call rated nothing, the second one returns the tree as it
    is. *)
Theorem X9_second_tagging_pass {IX : Indexability} {GL : GeoLibrary}
    root prefix indices root' prefix2 indices2 :
  tagBlind isBoundsGenerating → tagBlind arrayUsesIndexOnChildren →
  rateIndices root prefix indices = Ok root' →
  ((∃ pos r, RatedAt root pos r) ∧
   rateIndices root' prefix2 indices2 = Abort (verify_failed 318)) ∨
  ((∀ pos r, ¬ RatedAt root pos r) ∧
   rateIndices root' prefix2 indices2 = Ok root').
Proof. intros Hbg Harr Hrate. by eapply rateIndices_again. Qed.

Lemma X9_second_tagging_pass_witness :
  ((∃ pos r, @RatedAt sample_indexability (tree AND [leaf GT "a"]) pos r) ∧
   rateIndices (tree AND [tagged (mkTag "a" [0] []) (leaf GT "a")]) "" []
   = Abort (verify_failed 318)) ∨
  ((∀ pos r, ¬ @RatedAt sample_indexability (tree AND [leaf GT "a"]) pos r) ∧
   rateIndices (tree AND [tagged (mkTag "a" [0] []) (leaf GT "a")]) "" []
   = Ok (tree AND [tagged (mkTag "a" [0] []) (leaf GT "a")])).
Proof.
  apply (@X9_second_tagging_pass sample_indexability sample_geo
           (tree AND [leaf GT "a"]) "" [Examples.ix_a]).
  - apply sample_bounds_tagBlind.
  - apply sample_array_tagBlind.
  - reflexivity.
Defined.

(** X10. An index classified as a plain btree is never treated as a
    special index, whatever string its key pattern holds: the oracle gives
    the same answer for every key element, answers not-usable for GEO and
    GEO_NEAR predicates, and fails no assertion. *)
Theorem X10_btree_index_ignores_family_strings {GL : GeoLibrary} elt elt' index node :
  type index = INDEX_BTREE →
  indexedFieldType elt index = "" ∧
  compatible elt index node = compatible elt' index node ∧
  ¬ aborts (compatible elt index node) ∧
  (matchType node = GEO ∨ matchType node = GEO_NEAR →
   compatible elt index node = Ok false).
Proof.
  intros Hty.
  assert (type index ≠ INDEX_TEXT) as Hnt by by rewrite Hty.
  pose proof (indexedFieldType_btree elt index Hty) as Hift.
  pose proof (indexedFieldType_btree elt' index Hty) as Hift'.
  split; [done|]. split; [by rewrite !compatible_ordinary by done|].
  split; [|by apply compatible_ordinary_geo].
  destruct (compatible_ordinary_soft elt index node Hift Hnt) as [[b Hb]|Hb];
    rewrite Hb; simpl; tauto.
Qed.

Lemma X10_btree_index_ignores_family_strings_witness :
  indexedFieldType (family "loc" "2dsphere")
    (mkIndex [family "loc" "2dsphere"] false false INDEX_BTREE []) = "" ∧
  compatible (family "loc" "2dsphere")
    (mkIndex [family "loc" "2dsphere"] false false INDEX_BTREE []) (leaf GEO "loc")
  = compatible (asc "loc")
      (mkIndex [family "loc" "2dsphere"] false false INDEX_BTREE []) (leaf GEO "loc") ∧
  ¬ aborts (compatible (family "loc" "2dsphere")
              (mkIndex [family "loc" "2dsphere"] false false INDEX_BTREE [])
              (leaf GEO "loc")) ∧
  (matchType (leaf GEO "loc") = GEO ∨ matchType (leaf GEO "loc") = GEO_NEAR →
   compatible (family "loc" "2dsphere")
     (mkIndex [family "loc" "2dsphere"] false false INDEX_BTREE []) (leaf GEO "loc")
   = Ok false).
Proof.
  apply (@X10_btree_index_ignores_family_strings sample_geo). reflexivity.
Defined.

(** X11. Through an ordinary key element of an index that is not of type
    TEXT the oracle accepts every predicate that is not an equality, a geo
    predicate or a NOT, also on a sparse or multikey index; it accepts an
    equality unless the index is sparse and the value is null; it accepts
    a NOT exactly when the index is neither sparse nor multikey and the
    negated child is neither a regex nor a modulo predicate. *)
Theorem X11_ordinary_element_of_plain_index {GL : GeoLibrary} elt index node :
  indexedFieldType elt index = "" → type index ≠ INDEX_TEXT →
  (plainLeaf node → compatible elt index node = Ok true) ∧
  (∀ data, matchType node = EQ → payload node = EqualityData data →
           compatible elt index node = Ok (negb (sparse index && isNull data))) ∧
  (∀ child, matchType node = NOT → getChild node 0 = Some child →
            (compatible elt index node = Ok true ↔
             sparse index = false ∧ multikey index = false ∧
             matchType child ≠ REGEX ∧ matchType child ≠ MOD) ∧
            (compatible elt index node = Ok false ↔
             sparse index = true ∨ multikey index = true ∨
             matchType child = REGEX ∨ matchType child = MOD)).
Proof.
  intros Hift Hty. split; [by apply compatible_ordinary_plain|].
  split; [intros data; by apply compatible_ordinary_eq|].
  intros child Hnot Hchild. rewrite (compatible_ordinary_not _ _ _ _ Hift Hty Hnot Hchild).
  destruct (sparse index), (multikey index); simpl; try naive_solver;
    repeat case_bool_decide; simpl; naive_solver.
Qed.

Lemma X11_ordinary_element_of_plain_index_witness :
  compatible (asc "a") (mkIndex [asc "a"] true true INDEX_BTREE []) (leaf REGEX "a")
  = Ok true ∧
  compatible (asc "a") Examples.ix_a Examples.q_not = Ok true.
Proof.
  assert (INDEX_BTREE ≠ INDEX_TEXT) as Hty by done.
  destruct (@X11_ordinary_element_of_plain_index sample_geo (asc "a")
              (mkIndex [asc "a"] true true INDEX_BTREE []) (leaf REGEX "a")
              eq_refl Hty) as (Hplain & _ & _).
  destruct (@X11_ordinary_element_of_plain_index sample_geo (asc "a")
              Examples.ix_a Examples.q_not eq_refl Hty) as (_ & _ & Hnot).
  split.
  - apply Hplain. by repeat split.
  - apply (Hnot (leaf EQ "a") eq_refl eq_refl). by repeat split.
Defined.

(** X12. A hashed key element accepts equalities and IN predicates and
    nothing else, whatever the options of the index; a text key element
    accepts the TEXT predicate and nothing else; a geoHaystack key element
    accepts nothing.  None of the three fails. *)
Theorem X12_hashed_text_haystack_elements {GL : GeoLibrary} elt index node :
  (indexedFieldType elt index = IndexNames.HASHED →
   ∃ b, compatible elt index node = Ok b ∧
        (b = true ↔ matchType node = EQ ∨ matchType node = MATCH_IN)) ∧
  (indexedFieldType elt index = IndexNames.TEXT →
   ∃ b, compatible elt index node = Ok b ∧ (b = true ↔ matchType node = TEXT)) ∧
  (indexedFieldType elt index = IndexNames.GEO_HAYSTACK →
   compatible elt index node = Ok false).
Proof.
  split; [|split].
  - intros Hift. rewrite compatible_hashed by done. eexists. split; [done|].
    rewrite orb_true_iff, !bool_decide_eq_true. tauto.
  - intros Hift. rewrite compatible_text by done. eexists. split; [done|].
    by rewrite bool_decide_eq_true.
  - apply compatible_haystack.
Qed.

Lemma X12_hashed_text_haystack_elements_witness :
  (∃ b, compatible (family "a" "hashed") Examples.ix_a_hashed_sparse (leaf GT "a") = Ok b ∧
        (b = true ↔ matchType (leaf GT "a") = EQ ∨ matchType (leaf GT "a") = MATCH_IN)) ∧
  (∃ b, compatible (family "_fts" "text") Examples.ix_text textLeaf = Ok b ∧
        (b = true ↔ matchType textLeaf = TEXT)).
Proof.
  split.
  - apply (@X12_hashed_text_haystack_elements sample_geo (family "a" "hashed")
             Examples.ix_a_hashed_sparse (leaf GT "a")). reflexivity.
  - apply (@X12_hashed_text_haystack_elements sample_geo (family "_fts" "text")
             Examples.ix_text textLeaf). reflexivity.
Defined.

(** X13. A 2dsphere key element accepts a GEO predicate exactly when its
    geometry has an S2 region, a GEO_NEAR predicate exactly when its
    reference point is spherical or the query is a nearSphere, and no
    other predicate. *)
Theorem X13_two_d_sphere_key_element {GL : GeoLibrary} elt index node :
  indexedFieldType elt index = IndexNames.GEO_2DSPHERE →
  (∀ gq, matchType node = GEO → payload node = GeoData gq →
         compatible elt index node = Ok (hasS2Region (getGeometry gq))) ∧
  (∀ nq, matchType node = GEO_NEAR → payload node = GeoNearData nq →
         (compatible elt index node = Ok true ↔
          centroid_crs nq = SPHERE ∨ isNearSphere nq = true) ∧
         (compatible elt index node = Ok false ↔
          centroid_crs nq ≠ SPHERE ∧ isNearSphere nq = false)) ∧
  (matchType node ≠ GEO → matchType node ≠ GEO_NEAR →
   compatible elt index node = Ok false).
Proof.
  intros Hift. rewrite compatible_2dsphere by done. split; [|split].
  - intros gq -> ->. done.
  - intros nq -> ->. simpl.
    case_bool_decide; destruct (isNearSphere nq); simpl; naive_solver.
  - intros Hg Hn. by rewrite !bool_decide_eq_false_2 by done.
Qed.

Lemma X13_two_d_sphere_key_element_witness :
  compatible (family "loc" "2dsphere")
    (mkIndex [family "loc" "2dsphere"] false false INDEX_2DSPHERE [])
    (Node GEO_NEAR "loc" (GeoNearData (mkNear FLAT true)) None []) = Ok true ∧
  compatible (family "loc" "2dsphere")
    (mkIndex [family "loc" "2dsphere"] false false INDEX_2DSPHERE [])
    (leaf GT "loc") = Ok false.
Proof.
  destruct (@X13_two_d_sphere_key_element sample_geo (family "loc" "2dsphere")
              (mkIndex [family "loc" "2dsphere"] false false INDEX_2DSPHERE [])
              (Node GEO_NEAR "loc" (GeoNearData (mkNear FLAT true)) None []) eq_refl)
    as (_ & Hnear & _).
  destruct (@X13_two_d_sphere_key_element sample_geo (family "loc" "2dsphere")
              (mkIndex [family "loc" "2dsphere"] false false INDEX_2DSPHERE [])
              (leaf GT "loc") eq_refl) as (_ & _ & Hother).
  split.
  - apply (Hnear (mkNear FLAT true) eq_refl eq_refl). right. reflexivity.
  - apply Hother; done.
Defined.

(** X14. On a node whose payload and children match its kind the oracle
    returns an answer unless one of its three assertions fails: an
    unknown family string (line 293), a text index whose key pattern runs
    out in the scan (line 228), or, on a 2d key element, a "within" whose
    geometry has no flat region and a cap that is not spherical (line
    276).  The last case fails exactly then. *)
Theorem X14_oracle_failures {GL : GeoLibrary} elt index node :
  wellTyped node →
  (∀ f, compatible elt index node = Abort f →
        (f = verify_failed 293 ∧ ¬ recognized (indexedFieldType elt index)) ∨
        (f = verify_failed 276 ∧ indexedFieldType elt index = IndexNames.GEO_2D ∧
         matchType node = GEO) ∨
        (f = invariant_failed 228 ∧ indexedFieldType elt index = "" ∧
         type index = INDEX_TEXT ∧ Forall (beforePath node) (keyPattern index))) ∧
  (∀ gq cap,
     indexedFieldType elt index = IndexNames.GEO_2D →
     matchType node = GEO → payload node = GeoData gq →
     getPred gq = WITHIN → hasFlatRegion (getGeometry gq) = false →
     _cap (getGeometry gq) = Some cap →
     (compatible elt index node = Abort (verify_failed 276) ↔ crs cap ≠ SPHERE)).
Proof.
  intros Hwt. split.
  - intros f Hab. destruct (recognized_cases (indexedFieldType elt index))
      as [[Hift|[Hift|[Hift|[Hift|[Hift|Hift]]]]]|Hno].
    + right. right. apply compatible_ordinary_Abort in Hab; naive_solver.
    + by rewrite compatible_hashed in Hab.
    + rewrite compatible_2dsphere in Hab by done.
      destruct Hwt as (_ & Hgeo & Hnear & _).
      destruct (decide (matchType node = GEO)) as [Hg|Hg].
      { rewrite (bool_decide_eq_true_2 _ Hg) in Hab.
        by destruct (Hgeo Hg) as [gq Hgq]; rewrite Hgq in Hab. }
      rewrite (bool_decide_eq_false_2 _ Hg) in Hab.
      destruct (decide (matchType node = GEO_NEAR)) as [Hn|Hn].
      { rewrite (bool_decide_eq_true_2 _ Hn) in Hab.
        by destruct (Hnear Hn) as [nq Hnq]; rewrite Hnq in Hab. }
      by rewrite (bool_decide_eq_false_2 _ Hn) in Hab.
    + rewrite compatible_2d in Hab by done.
      destruct Hwt as (_ & Hgeo & Hnear & _).
      destruct (decide (matchType node = GEO_NEAR)) as [Hn|Hn].
      { rewrite (bool_decide_eq_true_2 _ Hn) in Hab.
        by destruct (Hnear Hn) as [nq Hnq]; rewrite Hnq in Hab. }
      rewrite (bool_decide_eq_false_2 _ Hn) in Hab.
      destruct (decide (matchType node = GEO)) as [Hg|Hg].
      2: { by rewrite (bool_decide_eq_false_2 _ Hg) in Hab. }
      rewrite (bool_decide_eq_true_2 _ Hg) in Hab.
      destruct (Hgeo Hg) as [gq Hgq]. rewrite Hgq in Hab.
      destruct (bool_decide (getPred gq ≠ WITHIN)); [done|].
      destruct (hasFlatRegion (getGeometry gq)); [done|].
      destruct (_cap (getGeometry gq)) as [cap|]; [|done].
      destruct (bool_decide (crs cap = SPHERE)); [done|].
      simpl in Hab. injection Hab as <-. right. left. done.
    + by rewrite compatible_text in Hab.
    + by rewrite compatible_haystack in Hab.
    + left. rewrite compatible_unrecognized in Hab by done. by injection Hab as <-.
  - intros gq cap Hift Hg Hgq Hpred Hflat Hcap.
    rewrite compatible_2d by done. rewrite Hg, Hgq. simpl.
    rewrite bool_decide_eq_false_2 by (by rewrite Hpred; intros []).
    rewrite Hflat, Hcap. case_bool_decide; simpl; naive_solver.
Qed.

Lemma X14_oracle_failures_witness :
  compatible (family "loc" "2d") Examples3.ix_2d
    (Node GEO "loc"
       (GeoData (mkGeoQuery WITHIN
                   (mkGeometry false false
                      (Some (mkCap (mkCircle 1 (mkPoint 0 0)) FLAT))))) None [])
  = Abort (verify_failed 276).
Proof.
  assert (wellTyped (Node GEO "loc"
                       (GeoData (mkGeoQuery WITHIN
                                   (mkGeometry false false
                                      (Some (mkCap (mkCircle 1 (mkPoint 0 0)) FLAT)))))
                       None [])) as Hwt.
  { repeat split; intros; try done. by eexists. }
  apply (proj2 (@X14_oracle_failures sample_geo (family "loc" "2d") Examples3.ix_2d
                  _ Hwt)
           (mkGeoQuery WITHIN
              (mkGeometry false false (Some (mkCap (mkCircle 1 (mkPoint 0 0)) FLAT))))
           (mkCap (mkCircle 1 (mkPoint 0 0)) FLAT)); try reflexivity.
  done.
Defined.

(** X15. [stripInvalidAssignmentsToTextIndexes] only takes text indexes
    out of the tags of nodes that can use an index on their own field.
    The expression is unchanged; a node has a tag after the pass exactly if
    it had one before; the tag of a node that cannot use an index on its
    own field is unchanged; the tag of one that can keeps its path, and
    its lists are sublists of the former lists from which no occurrence of
    an index that is not of type TEXT is missing. *)
Theorem X15_enforcement_only_removes_text_indexes {IX : Indexability}
    root indices root' pos n :
  stripInvalidAssignmentsToTextIndexes root indices = Ok root' →
  subtree pos root = Some n →
  untagged root' = untagged root ∧
  ∃ n', subtree pos root' = Some n' ∧
        (getTag n' = getTag n ∨
         (nodeCanUseIndexOnOwnField n = true ∧
          ∃ t t', getTag n = Some t ∧ getTag n' = Some t' ∧
                  tagShrunk (isTextIndex indices) t t')).
Proof.
  intros Hstrip Hn.
  assert (Stripped (isTextIndex indices) root root') as Hs.
  { eapply stripFrom_Stripped; [|exact Hstrip]. intros k index Hk Hty.
    unfold isTextIndex. simpl. rewrite Hk. simpl. by apply bool_decide_eq_true. }
  split; [by eapply Stripped_untagged|].
  destruct (Stripped_at _ _ _ _ _ Hs Hn) as (n' & Hn' & Hnn).
  exists n'. split; [done|]. by apply Stripped_tag.
Qed.

Lemma X15_enforcement_only_removes_text_indexes_witness :
  untagged (tree OR [tagged (mkTag "p" [0; 1] []) (eqLeaf "p" (BNumber 1))])
  = untagged (tree OR [tagged (mkTag "p" [1; 0; 1] [1]) (eqLeaf "p" (BNumber 1))]) ∧
  ∃ n', subtree [0] (tree OR [tagged (mkTag "p" [0; 1] []) (eqLeaf "p" (BNumber 1))])
        = Some n' ∧
        (getTag n' = getTag (tagged (mkTag "p" [1; 0; 1] [1]) (eqLeaf "p" (BNumber 1))) ∨
         (@nodeCanUseIndexOnOwnField sample_indexability
            (tagged (mkTag "p" [1; 0; 1] [1]) (eqLeaf "p" (BNumber 1))) = true ∧
          ∃ t t', getTag (tagged (mkTag "p" [1; 0; 1] [1]) (eqLeaf "p" (BNumber 1)))
                  = Some t ∧
                  getTag n' = Some t' ∧
                  tagShrunk (isTextIndex [btree [asc "p"]; Examples.ix_text]) t t')).
Proof.
  apply (@X15_enforcement_only_removes_text_indexes sample_indexability
           (tree OR [tagged (mkTag "p" [1; 0; 1] [1]) (eqLeaf "p" (BNumber 1))])
           [btree [asc "p"]; Examples.ix_text]); reflexivity.
Defined.

(** X16. The enforcement never changes a negation: a NOT or NOR node that
    cannot use an index on its own field is, with its whole subtree and
    all tags in it, after [stripInvalidAssignmentsToTextIndexes] what it
    was before, wherever it stands in the tree and whatever text indexes
    its tags list. *)
Theorem X16_enforcement_leaves_negations {IX : Indexability}
    root indices root' pos n :
  stripInvalidAssignmentsToTextIndexes root indices = Ok root' →
  subtree pos root = Some n →
  matchType n = NOT ∨ matchType n = NOR →
  nodeCanUseIndexOnOwnField n = false →
  subtree pos root' = Some n.
Proof.
  intros Hstrip Hn Hneg Hown.
  assert (Stripped (isTextIndex indices) root root') as Hs.
  { eapply stripFrom_Stripped; [|exact Hstrip]. intros k index Hk Hty.
    unfold isTextIndex. simpl. rewrite Hk. simpl. by apply bool_decide_eq_true. }
  destruct (Stripped_at _ _ _ _ _ Hs Hn) as (n' & Hn' & Hnn).
  rewrite Hn'. f_equal. apply (Stripped_frozen _ _ _ Hnn); [|done].
  unfold opaque. rewrite Hown. simpl.
  destruct Hneg as [-> | ->]; done.
Qed.

Lemma X16_enforcement_leaves_negations_witness :
  subtree [1] (tree AND [tagged (mkTag "p" [] []) (eqLeaf "p" (BNumber 1));
                         Node NOT "" NoPayload (Some (mkTag "s" [] [0]))
                           [tagged (mkTag "s" [] [0]) (leaf GT "s")]])
  = Some (Node NOT "" NoPayload (Some (mkTag "s" [] [0]))
            [tagged (mkTag "s" [] [0]) (leaf GT "s")]).
Proof.
  apply (@X16_enforcement_leaves_negations sample_indexability
           (tree AND [tagged (mkTag "p" [0] []) (eqLeaf "p" (BNumber 1));
                      Node NOT "" NoPayload (Some (mkTag "s" [] [0]))
                        [tagged (mkTag "s" [] [0]) (leaf GT "s")]])
           [Examples3.ix_text_suffix]); try reflexivity.
  by left.
Defined.

(** X17. [stripInvalidAssignmentsToTextIndexes] returns the tree as it is,
    and fails no assertion, when every index of the catalog either is not
    of type TEXT or has a string as its first key element, that is a text
    index without prefix: only text indexes with a prefix are enforced. *)
Theorem X17_enforcement_without_prefixes {IX : Indexability} root indices :
  Forall (λ index, type index ≠ INDEX_TEXT ∨ isString (firstElement index) = true)
         indices →
  stripInvalidAssignmentsToTextIndexes root indices = Ok root.
Proof. apply stripFrom_nothing. Qed.

Lemma X17_enforcement_without_prefixes_witness :
  @stripInvalidAssignmentsToTextIndexes sample_indexability
    (tagged (mkTag "_fts" [1] []) textLeaf)
    [btree [asc "a"]; textIndex [family "_fts" "text"; asc "a"]]
  = Ok (tagged (mkTag "_fts" [1] []) textLeaf).
Proof.
  apply (@X17_enforcement_without_prefixes sample_indexability).
  apply Forall_cons; split; [by left|].
  apply Forall_cons; split; [by right|]. apply Forall_nil_2.
Defined.

(** X18. [stripInvalidAssignmentsToTextIndexes] is idempotent on a tree
    whose tags list no index twice: applied, with the same catalog, to its
    own result it returns that result. *)
Theorem X18_enforcement_is_idempotent {IX : Indexability} root indices root' :
  tagsOnce root = true →
  stripInvalidAssignmentsToTextIndexes root indices = Ok root' →
  stripInvalidAssignmentsToTextIndexes root' indices = Ok root'.
Proof.
  intros Honce Hs. apply stripFrom_fixed. intros k index Hk Hty.
  destruct (stripFrom_paths _ _ _ _ _ _ Hs Hk Hty) as [paths Hpaths].
  exists paths. split; [done|]. intros Hne.
  by apply (stripFrom_makes_fixed indices 0 root root' k index paths).
Qed.

Lemma X18_enforcement_is_idempotent_witness :
  @stripInvalidAssignmentsToTextIndexes sample_indexability
    (tree AND [tagged (mkTag "_fts" [] []) textLeaf;
               tree OR [tagged (mkTag "p" [] []) (eqLeaf "p" (BNumber 1))]])
    [Examples.ix_text]
  = Ok (tree AND [tagged (mkTag "_fts" [] []) textLeaf;
                  tree OR [tagged (mkTag "p" [] []) (eqLeaf "p" (BNumber 1))]]).
Proof.
  apply (@X18_enforcement_is_idempotent sample_indexability
           (tree AND [tagged (mkTag "_fts" [] [0]) textLeaf;
                      tree OR [tagged (mkTag "p" [0] []) (eqLeaf "p" (BNumber 1))]])).
  - reflexivity.
  - reflexivity.
Defined.

(** X19. The enforcement keeps what meets the rule: called on an AND that
    has a direct TEXT child listing the index and, for every prefix path,
    a direct child listing it, it returns an AND that still meets the
    rule, and every direct child that lists the index is returned as it
    was. *)
Theorem X19_satisfied_and_keeps_its_assignments {IX : Indexability}
    node idx prefixPaths node' :
  matchType node = AND → opaque node = false → satisfied idx prefixPaths node →
  stripInvalidAssignmentsToTextIndex node idx prefixPaths = Ok node' →
  satisfied idx prefixPaths node' ∧
  ∀ i c, children node !! i = Some c → carries idx c = true →
         children node' !! i = Some c.
Proof.
  intros Hand Hop Hsat Hs.
  destruct (stripBounded_satisfied _ _ _ _ _ Hand Hop Hsat Hs) as [Hsat' Hcs].
  split; [done|]. intros i c Hc Hcar.
  destruct (Forall2_lookup_l _ _ _ _ _ Hcs Hc) as (c' & Hc' & Hcc).
  simpl in Hcc. rewrite Hcar in Hcc. by subst.
Qed.

Lemma X19_satisfied_and_keeps_its_assignments_witness :
  satisfied 0 ({[ "p" ]} : gset string)
    (tree AND [tagged (mkTag "_fts" [] [0]) textLeaf;
               tagged (mkTag "p" [0] []) (eqLeaf "p" (BNumber 1));
               tree OR [tagged (mkTag "p" [] []) (eqLeaf "p" (BNumber 2))]]) ∧
  ∀ i c,
    children (tree AND [tagged (mkTag "_fts" [] [0]) textLeaf;
                        tagged (mkTag "p" [0] []) (eqLeaf "p" (BNumber 1));
                        tree OR [tagged (mkTag "p" [0] [])
                                   (eqLeaf "p" (BNumber 2))]]) !! i = Some c →
    carries 0 c = true →
    children (tree AND [tagged (mkTag "_fts" [] [0]) textLeaf;
                        tagged (mkTag "p" [0] []) (eqLeaf "p" (BNumber 1));
                        tree OR [tagged (mkTag "p" [] [])
                                   (eqLeaf "p" (BNumber 2))]]) !! i = Some c.
Proof.
  apply (@X19_satisfied_and_keeps_its_assignments sample_indexability
           (tree AND [tagged (mkTag "_fts" [] [0]) textLeaf;
                      tagged (mkTag "p" [0] []) (eqLeaf "p" (BNumber 1));
                      tree OR [tagged (mkTag "p" [0] []) (eqLeaf "p" (BNumber 2))]])
           0 {[ "p" ]}); try reflexivity.
  split.
  - exists (tagged (mkTag "_fts" [] [0]) textLeaf). simpl. set_solver.
  - intros p ->%elem_of_singleton.
    exists (tagged (mkTag "p" [0] []) (eqLeaf "p" (BNumber 1))). simpl.
    repeat split; [set_solver|done].
Defined.

(** X20. The enforcement succeeds on every tree in which each node that
    can use an index on its own field and is reached through nodes the
    enforcement looks below (not a negation, not such a node itself)
    carries a tag, provided every index of type TEXT has a string among
    its key elements; the result is again such a tree. *)
Theorem X20_enforcement_succeeds_on_tagged_trees {IX : Indexability} root indices :
  Ready root →
  Forall (λ index, type index = INDEX_TEXT →
                   Exists (λ e, isString e = true) (keyPattern index)) indices →
  ∃ root', stripInvalidAssignmentsToTextIndexes root indices = Ok root' ∧ Ready root'.
Proof.
  intros Hr Hall. destruct (stripFrom_total indices 0 root Hr Hall) as [root' Hs].
  exists root'. split; [done|].
  apply (stripFrom_Stripped (λ _, true)) in Hs; [|done].
  by eapply Stripped_Ready.
Qed.

Lemma X20_enforcement_succeeds_on_tagged_trees_witness :
  ∃ root',
    @stripInvalidAssignmentsToTextIndexes sample_indexability
      (tree OR [tagged (mkTag "p" [0] []) (eqLeaf "p" (BNumber 1));
                tree NOR [leaf GT "b"]])
      [Examples.ix_text] = Ok root' ∧
    @Ready sample_indexability root'.
Proof.
  apply (@X20_enforcement_succeeds_on_tagged_trees sample_indexability).
  - apply ready_inspected; [done|]. simpl.
    apply Forall_cons; split; [apply ready_leaf; [done|by eexists]|].
    apply Forall_cons; split; [by apply ready_negation|apply Forall_nil_2].
  - apply Forall_cons; split; [|apply Forall_nil_2].
    intros _. apply Exists_cons_tl, Exists_cons_hd. done.
Defined.

(** X21. [stripInvalidAssignmentsToTextIndexes] fails in two ways only:
    at line 367, on a node that can use an index on its own field and has
    no tag, and at line 499, on a text index without a string in its key
    pattern.  In particular the depth given to the traversal, the height
    of the tree, is never exceeded. *)
Theorem X21_enforcement_failures {IX : Indexability} root indices e :
  stripInvalidAssignmentsToTextIndexes root indices = Abort e →
  e = verify_failed 367 ∨ e = verify_failed 499.
Proof. apply stripFrom_Abort. Qed.

Lemma X21_enforcement_failures_witness :
  @stripInvalidAssignmentsToTextIndexes sample_indexability (leaf GT "p")
    [Examples.ix_text] = Abort (verify_failed 367) ∧
  (verify_failed 367 = verify_failed 367 ∨ verify_failed 367 = verify_failed 499).
Proof.
  split; [reflexivity|].
  apply (@X21_enforcement_failures sample_indexability (leaf GT "p") [Examples.ix_text]).
  reflexivity.
Defined.

(** X22. The enforcement for an index that no tag of the tree lists
    changes nothing: if it returns, it returns the tree it was given. *)
Theorem X22_enforcement_of_an_unlisted_index {IX : Indexability}
    root idx prefixPaths root' :
  unlisted idx root →
  stripInvalidAssignmentsToTextIndex root idx prefixPaths = Ok root' →
  root' = root.
Proof. intros Hu Hs. by eapply stripBounded_unlisted. Qed.

Lemma X22_enforcement_of_an_unlisted_index_witness :
  tree OR [tagged (mkTag "p" [0] [2]) (eqLeaf "p" (BNumber 1))]
  = tree OR [tagged (mkTag "p" [0] [2]) (eqLeaf "p" (BNumber 1))].
Proof.
  apply (@X22_enforcement_of_an_unlisted_index sample_indexability
           (tree OR [tagged (mkTag "p" [0] [2]) (eqLeaf "p" (BNumber 1))]) 1 {[ "p" ]}).
  - intros [|[|i] [|j pos]] n t Hn Ht; simpl in Hn; simplify_eq/=; set_solver.
  - reflexivity.
Defined.

(** X23. On a tag that lists no index twice one call of
    [removeIndexRelevantTag] removes the index altogether: the node is no
    longer assigned to it, its assignment to every other index is as
    before, and a second removal changes nothing. *)
Theorem X23_removal_without_repetition node idx tag :
  getTag node = Some tag → NoDup (first tag) → NoDup (notFirst tag) →
  ∃ node',
    removeIndexRelevantTag node idx = Ok node' ∧
    carries idx node' = false ∧
    (∀ i, i ≠ idx → carries i node' = carries i node) ∧
    removeIndexRelevantTag node' idx = Ok node'.
Proof.
  intros Htag Hf Hn. unfold removeIndexRelevantTag. rewrite Htag.
  eexists. split; [done|].
  destruct (eraseFirst_NoDup idx _ Hf) as [_ Hf'].
  destruct (eraseFirst_NoDup idx _ Hn) as [_ Hn'].
  split; [|split].
  - unfold carries, assigned. node_simpl. simpl.
    by rewrite !bool_decide_eq_false_2.
  - intros i Hi. unfold carries, assigned. node_simpl. rewrite Htag. simpl.
    f_equal; apply bool_decide_ext; by apply elem_of_eraseFirst_ne.
  - node_simpl. simpl. rewrite setTag_setTag.
    by rewrite !(eraseFirst_absent idx (eraseFirst idx _)).
Qed.

Lemma X23_removal_without_repetition_witness :
  ∃ node',
    removeIndexRelevantTag (tagged (mkTag "a" [0; 1] [2; 1]) (leaf GT "a")) 1 = Ok node' ∧
    carries 1 node' = false ∧
    (∀ i, i ≠ 1 → carries i node'
                  = carries i (tagged (mkTag "a" [0; 1] [2; 1]) (leaf GT "a"))) ∧
    removeIndexRelevantTag node' 1 = Ok node'.
Proof.
  apply (X23_removal_without_repetition
           (tagged (mkTag "a" [0; 1] [2; 1]) (leaf GT "a")) 1 (mkTag "a" [0; 1] [2; 1]));
    [reflexivity| |]; apply (bool_decide_unpack _); by vm_compute.
Defined.

(** X24. The tagging pass prepares the enforcement.  When the tests of
    indexability are related as in indexability.h and every node of the
    tree that has children is a logical connective, an array operator over
    its children or a node that can use an index on its own field, then
    after [rateIndices] on an untagged tree
    [stripInvalidAssignmentsToTextIndexes] finds a tag on every node it
    takes an index from: it returns a tree for every catalog whose TEXT
    indexes have a string among their key elements. *)
Theorem X24_tagging_prepares_enforcement {IX : Indexability} {GL : GeoLibrary}
    root prefix indices rated indices' :
  ownFieldBounds → untagged root = root →
  (∀ pos n, subtree pos root = Some n → opaque n = false → children n ≠ [] →
            arrayUsesIndexOnChildren n || isLogical n = true) →
  rateIndices root prefix indices = Ok rated →
  Forall (λ index, type index = INDEX_TEXT →
                   Exists (λ e, isString e = true) (keyPattern index)) indices' →
  ∃ root', stripInvalidAssignmentsToTextIndexes rated indices' = Ok root'.
Proof.
  intros Hlaws Hun Hkinds Hrate Hall.
  apply stripFrom_total; [|done]. by eapply rateIndices_Ready.
Qed.

Lemma X24_tagging_prepares_enforcement_witness :
  ∃ root',
    @stripInvalidAssignmentsToTextIndexes sample_indexability
      (tree OR [tagged (mkTag "p" [0] []) (leaf GT "p")]) [Examples.ix_text] = Ok root'.
Proof.
  apply (@X24_tagging_prepares_enforcement sample_indexability sample_geo
           (tree OR [leaf GT "p"]) "" [btree [asc "p"]]).
  - apply sample_ownFieldBounds.
  - reflexivity.
  - intros pos n Hn Hop Hcs. destruct pos as [|[|i] pos]; simpl in Hn.
    + injection Hn as <-. reflexivity.
    + destruct pos as [|j pos]; simpl in Hn; [|done].
      injection Hn as <-. done.
    + done.
  - reflexivity.
  - apply Forall_cons; split; [|apply Forall_nil_2].
    intros _. apply Exists_cons_tl, Exists_cons_hd. done.
Defined.

(** X25. [twoDWontWrap] refuses a circle whose center has a coordinate
    that is not a finite number: with a NaN or an infinite longitude or
    latitude no comparison of the test holds, whatever the radius and the
    parameters of the index. *)
Theorem X25_wrap_test_refuses_non_finite_centers {GL : GeoLibrary} circle index :
  nonFinite (x (center circle)) = true ∨ nonFinite (y (center circle)) = true →
  twoDWontWrap circle index = false.
Proof. apply twoDWontWrap_nonFinite. Qed.

Lemma X25_wrap_test_refuses_non_finite_centers_witness :
  @twoDWontWrap sample_geo (mkCircle 0.5 (mkPoint 0 neg_infinity)) Examples3.ix_2d
  = false.
Proof.
  apply (@X25_wrap_test_refuses_non_finite_centers sample_geo).
  right. reflexivity.
Defined.

(** X26. An option of an index is read from the first element of that
    name in its description: [fieldWithDefault] returns its number, and
    the default when that element is not a number, even if a later element
    of the same name is one; it returns the default when no element has
    the name.  A 2d index without options gets 26 bits and the bounds
    -180 and 180. *)
Theorem X26_options_and_defaults {GL : GeoLibrary} :
  (∀ obj name def,
     Forall (λ e, fieldName e ≠ name) obj → fieldWithDefault obj name def = def) ∧
  (∀ pre e post name def,
     Forall (λ e', fieldName e' ≠ name) pre → fieldName e = name →
     fieldWithDefault (pre ++ e :: post) name def
     = if isNumber e then numberDouble e else def) ∧
  (∀ index,
     infoObj index = [] →
     bits (twoDParameters index) = toUnsigned 26 ∧
     min (twoDParameters index) = (-180)%float ∧
     max (twoDParameters index) = 180%float).
Proof.
  split; [|split].
  - intros obj name def Hno. unfold fieldWithDefault. by rewrite getField_absent.
  - intros pre e post name def Hpre He. unfold fieldWithDefault.
    by rewrite getField_first.
  - intros index Hinfo. unfold twoDParameters. rewrite Hinfo. done.
Qed.

Lemma X26_options_and_defaults_witness :
  fieldWithDefault [mkElt "bits" (BString "many"); mkElt "max" (BNumber 90);
                    mkElt "bits" (BNumber 10)] "bits" 26 = 26%float ∧
  fieldWithDefault [mkElt "bits" (BString "many"); mkElt "max" (BNumber 90);
                    mkElt "bits" (BNumber 10)] "max" 180 = 90%float ∧
  fieldWithDefault [mkElt "bits" (BString "many"); mkElt "max" (BNumber 90);
                    mkElt "bits" (BNumber 10)] "min" (-180) = (-180)%float.
Proof.
  destruct (@X26_options_and_defaults sample_geo) as (Habsent & Hfirst & _).
  split; [|split].
  - apply (Hfirst [] (mkElt "bits" (BString "many"))
             [mkElt "max" (BNumber 90); mkElt "bits" (BNumber 10)] "bits" 26%float);
      [constructor|reflexivity].
  - apply (Hfirst [mkElt "bits" (BString "many")] (mkElt "max" (BNumber 90))
             [mkElt "bits" (BNumber 10)] "max" 180%float); [|reflexivity].
    by repeat constructor.
  - apply Habsent. by repeat constructor.
Defined.

(** X27. [rateIndices] shares no tag object.  Run on a tree whose nodes
    hold distinct, allocated tag objects, it leaves the tag objects that
    existed as they were, and every tag object the resulting tree holds
    that the tree did not hold before is newly allocated and held by one
    node only: the tag of a NOT and the tag of its child are two objects,
    and so are the tags of any two nodes. *)
Theorem X27_tags_are_not_shared {IX : Indexability} {GL : GeoLibrary}
    node prefix indices (h : list RelevantTag) node' h' :
  allocated h node → NoDup (addresses node) →
  TagHeap.rateIndices node prefix indices h = Ok (node', h') →
  (∃ k, h' = h ++ k) ∧ allocated h' node' ∧ NoDup (addresses node') ∧
  Forall (λ a, a ∈ addresses node ∨ (length h ≤ a)%nat) (addresses node').
Proof.
  intros Hal Hnd Hrate.
  destruct (heap_rateIndices_view _ _ _ _ _ _ Hal Hrate) as (Hk & Hal' & _).
  destruct (heap_rateIndices_NoDup _ _ _ _ _ _ Hal Hnd Hrate) as [Hnd' Hfresh].
  done.
Qed.

Lemma X27_tags_are_not_shared_witness :
  (∃ k, [mkTag "a" [0] []; mkTag "a" [0] []] = [] ++ k) ∧
  allocated [mkTag "a" [0] []; mkTag "a" [0] []] Examples5.h_not_rated ∧
  NoDup (addresses Examples5.h_not_rated) ∧
  Forall (λ a, a ∈ addresses Examples5.h_not ∨ (length ([] : list RelevantTag) ≤ a)%nat)
         (addresses Examples5.h_not_rated).
Proof.
  apply (@X27_tags_are_not_shared sample_indexability sample_geo
           Examples5.h_not "" [Examples.ix_a] []).
  - by apply Forall_nil.
  - apply NoDup_nil_2.
  - reflexivity.
Defined.

(** X28. The tagging pass on tag objects and the tagging pass on owned
    tags agree.  On a tree whose tag addresses are allocated, [rateIndices]
    on owned tags, given the tree read through the heap, returns the tree
    that [rateIndices] on the heap returns, read through the heap it
    returns, and fails with the same assertion when that one fails. *)
Theorem X28_heap_tagging_agrees_with_owned_tags {IX : Indexability} {GL : GeoLibrary}
    node prefix indices (h : list RelevantTag) :
  allocated h node →
  rateIndices (TagHeap.view h node) prefix indices
  = match TagHeap.rateIndices node prefix indices h with
    | Ok (node', h') => Ok (TagHeap.view h' node')
    | Abort e => Abort e
    end.
Proof.
  intros Hal. destruct (TagHeap.rateIndices node prefix indices h) as [[node' h']|e] eqn:Hr.
  - by apply heap_rateIndices_view in Hr as (_ & _ & ?).
  - by apply heap_rateIndices_Abort.
Qed.

Lemma X28_heap_tagging_agrees_with_owned_tags_witness :
  rateIndices (TagHeap.view [] Examples5.h_not) "" [Examples.ix_a]
  = match TagHeap.rateIndices Examples5.h_not "" [Examples.ix_a] [] with
    | Ok (node', h') => Ok (TagHeap.view h' node')
    | Abort e => Abort e
    end.
Proof.
  apply (@X28_heap_tagging_agrees_with_owned_tags sample_indexability sample_geo
           Examples5.h_not "" [Examples.ix_a] []).
  by apply Forall_nil.
Defined.

(** X29. The tag of a NOT and the tag of its child stay equal through both
    passes.  When the tests of indexability are related as in
    indexability.h, after [rateIndices] on an untagged tree followed by
    [stripInvalidAssignmentsToTextIndexes] for any catalog, every NOT node
    that carries a tag has a first child that carries the same path and
    the same two lists. *)
Theorem X29_negation_and_child_keep_equal_tags {IX : Indexability} {GL : GeoLibrary}
    root prefix indices rated indices' root' pos n rt :
  ownFieldBounds → untagged root = root →
  rateIndices root prefix indices = Ok rated →
  stripInvalidAssignmentsToTextIndexes rated indices' = Ok root' →
  subtree pos root' = Some n → matchType n = NOT → getTag n = Some rt →
  ∃ child, getChild n 0 = Some child ∧ getTag child = Some rt.
Proof.
  intros Hlaws Hun Hrate Hstrip Hn Hnot Htag.
  assert (Stripped (λ _, true) rated root') as Hs.
  { by eapply stripFrom_Stripped; [|exact Hstrip]. }
  assert (is_Some (subtree pos rated)) as [m Hm].
  { clear -Hs Hn. revert rated root' Hs Hn.
    induction pos as [|i pos IH]; intros rated root' Hs Hn; [by eexists|].
    inversion Hs as [? t0 t' _ _ _|?|? cs' _ Hcs]; subst.
    - rewrite subtree_setTag in Hn. by eexists.
    - by eexists.
    - simpl in *. node_simpl.
      destruct (cs' !! i) as [c'|] eqn:Hc'; [|done].
      destruct (Forall2_lookup_r _ _ _ _ _ Hcs Hc') as (c & -> & Hcc). by eapply IH. }
  destruct (Stripped_at _ _ _ _ _ Hs Hm) as (n' & Hn' & Hmn).
  assert (n' = n) as -> by congruence.
  assert (matchType m = NOT) as Hmnot.
  { rewrite <- Hnot. symmetry. by apply untagged_matchType, (Stripped_untagged (λ _, true)). }
  assert (n = m) as ->.
  { apply (Stripped_frozen _ _ _ Hmn).
    - unfold opaque. rewrite Hmnot. simpl. by rewrite orb_true_r.
    - destruct Hlaws as (_ & Hown & _).
      destruct (nodeCanUseIndexOnOwnField m) eqn:Hmo; [|done].
      apply Hown in Hmo. unfold isLogical in Hmo. by rewrite Hmnot in Hmo. }
  by eapply rateIndices_not_child.
Qed.

Lemma X29_negation_and_child_keep_equal_tags_witness :
  ∃ child,
    getChild (Node NOT "" NoPayload (Some (mkTag "s" [] [0]))
                [tagged (mkTag "s" [] [0]) (leaf GT "s")]) 0 = Some child ∧
    getTag child = Some (mkTag "s" [] [0]).
Proof.
  apply (@X29_negation_and_child_keep_equal_tags sample_indexability sample_geo
           (tree AND [eqLeaf "p" (BNumber 1); tree NOT [leaf GT "s"]]) ""
           [Examples3.ix_text_suffix]
           (tree AND [tagged (mkTag "p" [0] []) (eqLeaf "p" (BNumber 1));
                      Node NOT "" NoPayload (Some (mkTag "s" [] [0]))
                        [tagged (mkTag "s" [] [0]) (leaf GT "s")]])
           [Examples3.ix_text_suffix]
           (tree AND [tagged (mkTag "p" [] []) (eqLeaf "p" (BNumber 1));
                      Node NOT "" NoPayload (Some (mkTag "s" [] [0]))
                        [tagged (mkTag "s" [] [0]) (leaf GT "s")]])
           [1]); try reflexivity.
  apply sample_ownFieldBounds.
Defined.

(** X30. On an untagged tree [rateIndices] fails only where the oracle
    fails: if it does not return, then the oracle fails, with the same
    assertion, for a node of the tree and a key element of an index of the
    catalog, or a NOT node of the tree has no child.  In particular the
    assertion of line 318 does not fail on an untagged tree. *)
Theorem X30_tagging_fails_only_with_the_oracle {IX : Indexability} {GL : GeoLibrary}
    root prefix indices e :
  untagged root = root → rateIndices root prefix indices = Abort e →
  e ≠ verify_failed 318 ∧
  ((e = undefined ∧
    ∃ pos n, subtree pos root = Some n ∧ matchType n = NOT ∧ getChild n 0 = None) ∨
   (∃ index elt pos n,
      index ∈ indices ∧ (elt = firstElement index ∨ elt ∈ laterElements index) ∧
      subtree pos root = Some n ∧ compatible elt index n = Abort e)).
Proof.
  intros Hun Hrate. pose proof (rateIndices_Abort _ _ _ _ Hun Hrate) as Hwhere.
  split; [|done].
  destruct Hwhere as [[-> _]|(index & elt & pos & n & _ & _ & _ & Hab)]; [done|].
  apply compatible_Abort_kinds in Hab as [->|[->|[->| ->]]]; done.
Qed.

Lemma X30_tagging_fails_only_with_the_oracle_witness :
  invariant_failed 228 ≠ verify_failed 318 ∧
  ((invariant_failed 228 = undefined ∧
    ∃ pos n, subtree pos (Node ELEM_MATCH_OBJECT "a" NoPayload None [leaf GT "b"]) = Some n ∧
             matchType n = NOT ∧ getChild n 0 = None) ∨
   (∃ index elt pos n,
      index ∈ [textIndex [asc "a.b"]] ∧
      (elt = firstElement index ∨ elt ∈ laterElements index) ∧
      subtree pos (Node ELEM_MATCH_OBJECT "a" NoPayload None [leaf GT "b"]) = Some n ∧
      compatible elt index n = Abort (invariant_failed 228))).
Proof.
  apply (@X30_tagging_fails_only_with_the_oracle sample_indexability sample_geo
           (Node ELEM_MATCH_OBJECT "a" NoPayload None [leaf GT "b"]) ""
           [textIndex [asc "a.b"]]); reflexivity.
Defined.
